(** * aws-orchestrate: the sequence model and the wrapper pipeline

    A shallow embedding of [src/LambdaSequence.ts] and [src/wrapper.ts].

    The class [LambdaSequence] is a record of its two private fields; its
    methods and getters are functions in a state-and-exception monad over
    that record, because a getter ([activeFn]) mutates the object and a
    method that throws keeps the mutations made before the throw.

    JavaScript values are a small JSON-like inductive; objects keep their
    insertion order (association lists), the responses dictionary of a
    sequence is a finite map keyed by ARN. *)

From stdpp Require Import base option list strings gmap pretty.
From Stdlib Require Import ZArith Ascii.

Set Warnings "-register-all".
Set Default Proof Using "Type".
Local Open Scope string_scope.

(** ** JavaScript values *)

Inductive JValue : Type :=
| JUndefined
| JNull
| JBool (b : bool)
| JNum (n : Z)
| JStr (s : string)
| JArr (items : list JValue)
| JObj (props : list (string * JValue)).

(** [IDictionary]: a plain object, keys in insertion order. *)
Abbreviation IDictionary := (list (string * JValue)).

(** [o[k]] for an own property. *)
Fixpoint obj_get (k : string) (o : IDictionary) : option JValue :=
  match o with
  | [] => None
  | (k', v) :: o' => if decide (k = k') then Some v else obj_get k o'
  end.

(** [o[k] = v]: overwrite in place, or append a new key. *)
Fixpoint obj_set (k : string) (v : JValue) (o : IDictionary) : IDictionary :=
  match o with
  | [] => [(k, v)]
  | (k', v') :: o' =>
      if decide (k = k') then (k, v) :: o' else (k', v') :: obj_set k v o'
  end.

Definition Object_keys (o : IDictionary) : list string := o.*1.

(** [{ ...base, ...src }] *)
Definition spread (base src : IDictionary) : IDictionary :=
  fold_left (fun acc kv => obj_set kv.1 kv.2 acc) src base.

Definition js_typeof (v : JValue) : string :=
  match v with
  | JUndefined => "undefined"
  | JNull => "object"
  | JBool _ => "boolean"
  | JNum _ => "number"
  | JStr _ => "string"
  | JArr _ | JObj _ => "object"
  end.

(** [a === b] on values; two object or array values are compared by
    reference in JavaScript, and no two literals share one, so the
    embedding answers [false] for them. *)
Definition strict_eq (a b : JValue) : bool :=
  match a, b with
  | JUndefined, JUndefined => true
  | JNull, JNull => true
  | JBool x, JBool y => bool_decide (x = y)
  | JNum x, JNum y => bool_decide (x = y)
  | JStr x, JStr y => bool_decide (x = y)
  | _, _ => false
  end.

Definition truthy (v : JValue) : bool :=
  match v with
  | JUndefined | JNull => false
  | JBool b => b
  | JNum n => negb (bool_decide (n = 0%Z))
  | JStr s => negb (bool_decide (s = ""))
  | JArr _ | JObj _ => true
  end.

(** The own enumerable properties of a value, as the object spread sees
    them: array elements under their decimal index. *)
Definition own_props (v : JValue) : IDictionary :=
  match v with
  | JObj o => o
  | JArr xs => imap (fun i x => (pretty i, x)) xs
  | _ => []
  end.

(** [s.split(c)] for a one-character separator. *)
Fixpoint split_on (c : ascii) (s : string) : list string :=
  match s with
  | EmptyString => [EmptyString]
  | String a rest =>
      if decide (a = c) then EmptyString :: split_on c rest
      else match split_on c rest with
           | [] => [String a EmptyString]
           | w :: ws => String a w :: ws
           end
  end.

(** [v[p]], [undefined] when [v] has no such own property. *)
Definition prop_get (v : JValue) (p : string) : JValue :=
  default JUndefined (obj_get p (own_props v)).

(** [str.replace(pattern, replacement)] with a string pattern: the first
    occurrence only; in the replacement, [$$] is a dollar sign, [$&] the
    match, [$`] what precedes it and [$'] what follows it. *)
Fixpoint GetSubstitution (matched before after replacement : string) : string :=
  match replacement with
  | EmptyString => EmptyString
  | String a tl =>
      if decide (a = "$"%char) then
        match tl with
        | String c rest =>
            if decide (c = "$"%char)
            then String "$" (GetSubstitution matched before after rest)
            else if decide (c = "&"%char)
            then matched +:+ GetSubstitution matched before after rest
            else if decide (c = "`"%char)
            then before +:+ GetSubstitution matched before after rest
            else if decide (c = "'"%char)
            then after +:+ GetSubstitution matched before after rest
            else String "$" (GetSubstitution matched before after tl)
        | EmptyString => String "$" EmptyString
        end
      else String a (GetSubstitution matched before after tl)
  end.

Definition String_replace (str pattern replacement : string) : string :=
  match String.index 0 pattern str with
  | None => str
  | Some pos =>
      let before := String.substring 0 pos str in
      let after :=
        String.substring (pos + String.length pattern)
          (String.length str - (pos + String.length pattern)) str in
      before +:+ GetSubstitution pattern before after replacement +:+ after
  end.

(** ** Errors *)

(** The messages of the [new Error(...)] sites of [LambdaSequence.ts]. *)
Inductive ErrorText : Type :=
| NoAssignedStep        (* Problem resolving activeFn: no step with status assigned found *)
| IngestIntoExisting    (* Attempt to ingest steps into a LambdaSequence that already has steps! *)
| DynamicNotFound (key : string) (from : JValue)
                        (* The property KEY was set as a dynamic property ... which could not be found. *)
| FanOutUnavailable     (* the fanOut functionality is not yet available *)
| Message (text : string).

Module ServerlessError.
(** Modelled from the spec: the class is imported from [./errors], which
    is not among the sources.  The record has the fields the wrapper
    assigns ([functionName], [classification], [correlationId],
    [awsRequestId]) and those its test reads after a throw. *)
Record t : Type := mk {
  name : string;
  httpStatus : Z;
  message : string;
  classification : string;
  functionName : option string;
  correlationId : option string;
  awsRequestId : option string
}.
End ServerlessError.

(** What can be thrown.  [HandledError] and [UnhandledError] are built from
    a code and the error at hand (the logging context passed to the first
    is left out); [DefaultError] is the error object of the default-error
    policy, with its own message (the wrapper falls back on the cause's
    when it is empty) and the cause whose stack it takes. *)
Inductive JsError : Type :=
| Error_ (text : ErrorText)
| TypeError (property : string)          (* Cannot read property ... of undefined *)
| RangeError                             (* Maximum call stack size exceeded *)
| Serverless (e : ServerlessError.t)
| HandledError (code : Z) (e : JsError)
| UnhandledError (code : Z) (e : JsError)
| DefaultError (message : string) (cause : JsError)
| RethrowError (err : JsError)
| ErrorWithinError (e errorOfError : JsError).

(** ** Steps and sequences *)

(** Modelled from the spec: the type declarations of [./private] are not
    among the sources.  The statuses and the function types are those of
    spec 3; the fields of a step are those [add] and [onCondition] write,
    with the [onError] the wrapper reads. *)
Module Status.
Inductive t : Type := assigned | active | completed | skipped.

#[global] Instance eq_dec : EqDecision t.
Proof. solve_decision. Defined.

(** The order in which a status may advance. *)
Definition rank (s : t) : nat :=
  match s with assigned => 0 | active => 1 | completed => 2 | skipped => 3 end.
End Status.

Inductive ILambdaFunctionType : Type := task | fan_out | fan_in | other.

Definition OrchestratedCondition : Type := gmap string JValue -> bool.

Inductive OnError : Type :=
| OrchestratedErrorHandler (handler : JsError -> bool)
| OrchestratedErrorForwarder (arn : string) (params : IDictionary).

Module Step.
Record t : Type := mk {
  arn : string;
  params : IDictionary;
  type : ILambdaFunctionType;
  status : Status.t;
  onCondition : option OrchestratedCondition;
  onError : option OnError
}.

(** [step.status = st] *)
Definition set_status (st : Status.t) (s : t) : t :=
  mk (arn s) (params s) (type s) st (onCondition s) (onError s).

(** [{ ...s, params: p }] *)
Definition set_params (p : IDictionary) (s : t) : t :=
  mk (arn s) p (type s) (status s) (onCondition s) (onError s).
End Step.

Abbreviation ILambdaSequenceStep := Step.t.

(** The class: its two private fields. *)
Record LambdaSequence : Type := mkSequence {
  _steps : list ILambdaSequenceStep;
  _responses : gmap string JValue
}.

(** What [toObject] builds; the properties after [isSequence] are only set
    for a sequence. *)
Record ISerializedSequence : Type := mkSerialized {
  ser_isSequence : bool;
  ser_totalSteps : option nat;
  ser_completedSteps : option nat;
  ser_activeFn : option string;
  ser_completed : option (list string);
  ser_remaining : option (list string);
  ser_steps : option (list ILambdaSequenceStep);
  ser_responses : option (gmap string JValue)
}.

(** Modelled from the spec: [buildOrchestratedRequest] is imported from
    [./sequences/index], which is not among the sources.  The spec gives the
    wire form [{ type: orchestrated-message-body, body, sequence, headers }]
    with each field compressed on its own by a reversible codec; the record
    holds the fields before compression, and the headers are those of the
    codec's module, outside the sequence. *)
Record IOrchestratedRequest : Type := mkRequest {
  req_body : JValue;
  req_sequence : option ISerializedSequence
}.

(** ** The effect monad: state that survives a throw *)

Inductive Outcome (A : Type) : Type :=
| Returns (a : A)
| Throws (e : JsError).
Arguments Returns {A} a.
Arguments Throws {A} e.

Definition Eff (St A : Type) : Type := St -> Outcome A * St.

Definition ret {St A} (a : A) : Eff St A := fun s => (Returns a, s).
Definition throw {St A} (e : JsError) : Eff St A := fun s => (Throws e, s).
Definition bind {St A B} (m : Eff St A) (k : A -> Eff St B) : Eff St B :=
  fun s => match m s with
           | (Returns a, s') => k a s'
           | (Throws e, s') => (Throws e, s')
           end.
Definition read {St A} (f : St -> A) : Eff St A := fun s => (Returns (f s), s).
Definition modify {St} (f : St -> St) : Eff St unit := fun s => (Returns tt, f s).
Definition lift {St A} (o : Outcome A) : Eff St A := fun s => (o, s).

Notation "'let!' x ':=' m 'in' k" := (bind m (fun x => k))
  (at level 10, x pattern, m at level 100, k at level 200).
Notation "m ';;;' k" := (bind m (fun _ => k))
  (at level 100, k at level 200, right associativity).

Fixpoint mapM_eff {St A B} (f : A -> Eff St B) (l : list A) : Eff St (list B) :=
  match l with
  | [] => ret []
  | x :: xs => let! y := f x in let! ys := mapM_eff f xs in ret (y :: ys)
  end.

(** ** [get] of native-dash

    The library function the source imports for lookups.  It walks the
    dot-separated path from the root: at each segment the value becomes
    [value[p]] when it is an object that has [p] among its own keys, and
    [undefined] otherwise; [Object.keys] of [null] throws a [TypeError].  At
    the end a truthy value is returned and the default stands in for every
    other one.  The root here is always the responses dictionary. *)
Definition NullOnPath : JsError := TypeError "Object.keys".

Definition get_segment (value : Outcome JValue) (p : string) : Outcome JValue :=
  match value with
  | Throws e => Throws e
  | Returns v =>
      if bool_decide (js_typeof v = "object") then
        match v with
        | JNull => Throws NullOnPath
        | _ => Returns (prop_get v p)
        end
      else Returns JUndefined
  end.

Definition get (root : gmap string JValue) (dotPath : string) (defaultValue : JValue)
  : Outcome JValue :=
  match split_on "." dotPath with
  | [] => Returns defaultValue     (* [split] never gives an empty array *)
  | p :: ps =>
      match fold_left get_segment ps (Returns (default JUndefined (root !! p))) with
      | Returns value => Returns (if truthy value then value else defaultValue)
      | Throws e => Throws e
      end
  end.

(** ** The class [LambdaSequence] *)

Module Seq.

(** [new LambdaSequence()] *)
Definition new : LambdaSequence := mkSequence [] ∅.

Definition set_steps (l : list ILambdaSequenceStep) (this : LambdaSequence)
  : LambdaSequence := mkSequence l (_responses this).

Definition set_responses (r : gmap string JValue) (this : LambdaSequence)
  : LambdaSequence := mkSequence (_steps this) r.

(** A step object is known by its position in [_steps]: [refs] pairs each
    step with it, so that a step found by [filter] or [find] can be
    assigned to afterwards. *)
Definition StepRef : Type := nat * ILambdaSequenceStep.

Definition refs (this : LambdaSequence) : list StepRef :=
  imap (fun i s => (i, s)) (_steps this).

Definition has_status (st : Status.t) (r : StepRef) : Prop :=
  Step.status r.2 = st.

#[global] Instance has_status_dec st r : Decision (has_status st r).
Proof. unfold has_status. apply _. Defined.

(** [ref.status = st] *)
Definition assign_status (r : StepRef) (st : Status.t) (this : LambdaSequence)
  : LambdaSequence :=
  set_steps (alter (Step.set_status st) r.1 (_steps this)) this.

Definition notASequence : LambdaSequence := set_steps [] new.

(** [add(arn, params = {}, type = task)], the defaults written out by the
    caller *)
Definition add (arn : string) (params : IDictionary) (type : ILambdaFunctionType)
  (this : LambdaSequence) : LambdaSequence :=
  set_steps (_steps this ++ [Step.mk arn params type Status.assigned None None]) this.

(** The body of [onError] is a bare [return]: nothing is attached. *)
Definition onError (policy : OnError) (this : LambdaSequence) : LambdaSequence :=
  this.

Definition onCondition (fn : OrchestratedCondition) (arn : string)
  (params : IDictionary) (this : LambdaSequence) : LambdaSequence :=
  set_steps
    (_steps this ++ [Step.mk arn params task Status.assigned (Some fn) None]) this.

Definition fanOut {A} : Eff LambdaSequence A := throw (Error_ FanOutUnavailable).

Definition isSequence (this : LambdaSequence) : bool :=
  bool_decide (0 < length (_steps this)).

Definition remaining (this : LambdaSequence) : list ILambdaSequenceStep :=
  filter (fun s => Step.status s = Status.assigned) (_steps this).

Definition completed (this : LambdaSequence) : list ILambdaSequenceStep :=
  filter (fun s => Step.status s = Status.completed) (_steps this).

Definition steps (this : LambdaSequence) : list ILambdaSequenceStep := _steps this.

Definition nextFn (this : LambdaSequence) : option ILambdaSequenceStep :=
  if bool_decide (0 < length (remaining this)) then remaining this !! 0 else None.

Definition isDone (this : LambdaSequence) : bool :=
  match nextFn this with Some _ => false | None => true end.

(** The getter [activeFn].  It returns a reference to a step of [_steps]
    or [undefined] ([None]).  Its last branch re-enters the getter; [depth]
    bounds that recursion, and two levels are all it ever uses
    ([activeFn_depth] below). *)
Fixpoint activeFn_rec (depth : nat) : Eff LambdaSequence (option StepRef) :=
  fun this =>
    match depth with
    | 0 => (Throws RangeError, this)
    | S depth' =>
        if bool_decide (length (_steps this) = 0) then (Returns None, this)
        else
          let active := filter (has_status Status.active) (refs this) in
          (* more than one active step only logs a warning *)
          if bool_decide (length active = 0) then
            match List.find (fun i => bool_decide (has_status Status.assigned i))
                    (refs this) with
            | None => (Throws (Error_ NoAssignedStep), this)
            | Some step =>
                activeFn_rec depth' (assign_status step Status.active this)
            end
          else (Returns (active !! 0), this)
    end.

Definition activeFn : Eff LambdaSequence (option StepRef) := activeFn_rec 2.

(** [this.activeFn.arn] and the like: reading a property of [undefined]
    is a [TypeError]. *)
Definition member {A} (property : string) (o : option StepRef)
  (f : ILambdaSequenceStep -> A) : Eff LambdaSequence A :=
  match o with
  | Some r => ret (f r.2)
  | None => throw (TypeError property)
  end.

Definition finishStep (results : JValue) : Eff LambdaSequence unit :=
  let! a := activeFn in
  let! arn := member "arn" a Step.arn in
  modify (fun this => set_responses (<[arn := results]> (_responses this)) this) ;;;
  let! a' := activeFn in
  match a' with
  | Some r => modify (assign_status r Status.completed)
  | None => throw (TypeError "status")
  end.

(** Modelled from the spec: [isDynamic] is declared in
    [sequences/dynamic.d.ts] and its body is not among the sources.  The
    spec describes a dynamic reference as the sentinel shape
    [{ lookup: stepId.jsonPath }]. *)
Definition isDynamic (value : JValue) : bool :=
  match value with
  | JObj o => match obj_get "lookup" o with Some (JStr _) => true | _ => false end
  | _ => false
  end.

Definition lookup_of (value : JValue) : string :=
  match prop_get value "lookup" with JStr p => p | _ => "" end.

(** One turn of the [reduce] in [resolveRequestProperties]. *)
Definition resolve_key (this : LambdaSequence) (fn : ILambdaSequenceStep)
  (props : IDictionary) (key : string) : Outcome IDictionary :=
  let value := default JUndefined (obj_get key (Step.params fn)) in
  if isDynamic value then
    match get (_responses this) (lookup_of value) JUndefined with
    | Throws e => Throws e
    | Returns value' =>
        if strict_eq (JStr (js_typeof value')) JUndefined then
          Throws (Error_ (DynamicNotFound key
                            (default JUndefined (obj_get key (Step.params fn)))))
        else Returns (obj_set key value' props)
    end
  else Returns (obj_set key value props).

Definition reduce {A B} (f : B -> A -> Outcome B) (l : list A) (init : B)
  : Outcome B :=
  fold_left (fun acc x => match acc with
                          | Returns b => f b x
                          | Throws e => Throws e
                          end) l (Returns init).

Definition resolveRequestProperties (fn : ILambdaSequenceStep)
  : Eff LambdaSequence IDictionary :=
  fun this =>
    (reduce (resolve_key this fn) (Object_keys (Step.params fn)) [], this).

(** The getter [dynamicProperties]; [String(v)] begins with a colon only
    for a string [v] (or an array whose text does, which the embedding
    leaves out), and [from] is then the rest of the string. *)
Definition dynamicProperties : Eff LambdaSequence (list (string * string)) :=
  let! a := activeFn in
  let! params :=
    match a with
    | Some _ => let! a' := activeFn in member "params" a' Step.params
    | None => ret []
    end in
  let! entries :=
    mapM_eff (fun key =>
                let! a' := activeFn in
                let! ps := member "params" a' Step.params in
                ret (key, default JUndefined (obj_get key ps)))
             (Object_keys params) in
  ret (omap (fun kv => match kv.2 with
                       | JStr (String ":" rest) => Some (kv.1, rest)
                       | _ => None
                       end) entries).

Definition toObject : Eff LambdaSequence ISerializedSequence :=
  let! isSeq := read isSequence in
  if isSeq then
    let! totalSteps := read (fun this => length (steps this)) in
    let! completedSteps := read (fun this => length (completed this)) in
    let! a := activeFn in
    let! activeArn :=
      match a with
      | Some _ => let! a' := activeFn in
                  let! arn := member "arn" a' Step.arn in ret (Some arn)
      | None => ret None
      end in
    let! completedArns := read (fun this => Step.arn <$> completed this) in
    let! remainingArns := read (fun this => Step.arn <$> remaining this) in
    let! theSteps := read _steps in
    let! responses := read _responses in
    ret (mkSerialized true (Some totalSteps) (Some completedSteps) activeArn
           (Some completedArns) (Some remainingArns) (Some theSteps)
           (Some responses))
  else ret (mkSerialized false None None None None None None None).

(** The instance method: it assigns the two fields of [this], unless the
    serialized form is not a sequence, where it returns a fresh object
    and leaves [this] as it is.  A serialized form that says it is a
    sequence carries [steps] and [responses]. *)
Definition deserialize_into (s : ISerializedSequence) (this : LambdaSequence)
  : LambdaSequence :=
  if negb (ser_isSequence s) then this
  else mkSequence (default [] (ser_steps s)) (default ∅ (ser_responses s)).

(** The static [LambdaSequence.deserialize]: a new object, the instance
    method applied to it, and that object returned. *)
Definition deserialize (s : ISerializedSequence) : LambdaSequence :=
  deserialize_into s new.

(** Modelled from the spec: the envelope of [buildOrchestratedRequest]
    (see [IOrchestratedRequest]); the sequence goes in by its serialized
    form. *)
Definition buildOrchestratedRequest (body : JValue)
  : Eff LambdaSequence IOrchestratedRequest :=
  let! s := toObject in ret (mkRequest body (Some s)).

(** [validateCallDepth] is an empty stub. *)
Definition validateCallDepth : Eff LambdaSequence unit := ret tt.

Definition getInvocationParameters
  : Eff LambdaSequence (string * IOrchestratedRequest) :=
  let! a := activeFn in
  let! fn := member "params" a id in
  let! body := resolveRequestProperties fn in
  let! a' := activeFn in
  let! arn := member "arn" a' Step.arn in
  validateCallDepth ;;;
  let! request := buildOrchestratedRequest (JObj body) in
  ret (arn, request).

(** A parameter with a default value: the default stands in for
    [undefined]. *)
Definition orDefault (argument defaultValue : JValue) : JValue :=
  match argument with JUndefined => defaultValue | _ => argument end.

(** [next(currentFnResponse = {})] *)
Definition next (currentFnResponse : JValue)
  : Eff LambdaSequence (string * IOrchestratedRequest) :=
  finishStep (orDefault currentFnResponse (JObj [])) ;;; getInvocationParameters.

(** [ingestSteps(request, steps)], [steps] already parsed. *)
Definition ingestSteps (request : JValue) (steps : list ILambdaSequenceStep)
  : Eff LambdaSequence unit :=
  let! n := read (fun this => length (_steps this)) in
  if bool_decide (0 < n) then throw (Error_ IngestIntoExisting)
  else
    modify (set_steps steps) ;;;
    let! a := activeFn in
    let! activeFnParams :=
      match a with
      | Some _ =>
          (* an object is truthy, so [this.activeFn.params] is taken *)
          let! a' := activeFn in
          member "params" a' Step.params ;;;
          let! a'' := activeFn in
          member "params" a'' Step.params
      | None => ret []
      end in
    let transformedRequest :=
      if bool_decide (js_typeof request = "object")
      then spread activeFnParams (own_props request)
      else spread activeFnParams [("request", request)] in
    let! old := read _steps in
    let! mapped :=
      mapM_eff (fun s =>
                  let! a1 := activeFn in
                  match a1 with
                  | Some _ =>
                      let! a2 := activeFn in
                      let! arn := member "arn" a2 Step.arn in
                      ret (if bool_decide (Step.arn s = arn)
                           then Step.set_params transformedRequest s else s)
                  | None => ret s
                  end) old in
    modify (set_steps mapped).

End Seq.

(** ** The wrapper *)

(** What [invokeLambda] is given as its second argument. *)
Inductive Payload : Type :=
| Orchestrated (request : IOrchestratedRequest)
| ErrorPayload (e : JsError)
| ParamsPayload (params : IDictionary).

(** Modelled from the spec: [ErrorMeta] and [ErrorHandler] are imported from
    [./private] and [./errors], which are not among the sources.  The records
    have the fields the wrapper reads; spec 3 gives the same shape. *)
Module ErrorMeta.
(** [found.handling] *)
Record Handling : Type := mkHandling {
  callback : option (JsError -> Outcome JValue);
  forwardTo : option string
}.

(** One expectation registered through [context.errorMgmt]. *)
Record ErrorHandler : Type := mkHandler {
  identifiedBy : JsError -> bool;
  code : Z;
  handling : option Handling
}.

(** [errorMeta.defaultHandling], by its [type] tag. *)
Inductive DefaultHandling : Type :=
| handler_fn (defaultHandlerFn : JsError -> Outcome JValue)
| error_forwarding (arn : string)
| default_error (message : string)
| default.

Record t : Type := mk {
  expectations : list ErrorHandler;
  defaultHandling : DefaultHandling;
  defaultErrorCode : Z
}.

(** Modelled from the spec: [findError] is imported from [./private] and
    is not among the sources.  Spec 4.4: the first expectation whose
    predicate returns truthy for the thrown value matches; none gives
    [false]. *)
Definition findError (e : JsError) (errorMeta : t) : option ErrorHandler :=
  List.find (fun h => identifiedBy h e) (expectations errorMeta).
End ErrorMeta.

(** Modelled from the spec: the [type] property of the error classes, which
    are not among the sources (spec 4.3); [RethrowError] copies the one of
    the error it is built from ([errors/RethrowError.js]), and the wrapper
    itself sets [default-error] on the error of that policy. *)
Fixpoint error_type (e : JsError) : option string :=
  match e with
  | HandledError _ _ => Some "handled-error"
  | UnhandledError _ _ => Some "unhandled-error"
  | DefaultError _ _ => Some "default-error"
  | RethrowError err => error_type err
  | ErrorWithinError _ _ => Some "error-within-error"
  | Serverless _ => Some "serverless-error"
  | Error_ _ | TypeError _ | RangeError => None
  end.

Module HttpStatusCodes.
Definition Success : Z := 200.
Definition Accepted : Z := 202.
Definition NoContent : Z := 204.
End HttpStatusCodes.

(** What the wrapped handler returns. *)
Inductive WrapperResult : Type :=
| Result (result : JValue)
| ApiGatewayResponse (statusCode : Z) (headers : IDictionary) (body : string)
| ApiGatewayError (err : JsError).        (* convertToApiGatewayError(err) *)

(** The platform context of the invocation. *)
Record IAWSLambaContext : Type := mkContext {
  ctx_functionName : string;
  ctx_awsRequestId : string
}.

(** The handler context, by the fields the wrapper reads back. *)
Module IHandlerContext.
Record t : Type := mk {
  functionName : string;
  awsRequestId : string;
  correlationId : string;
  sequence : LambdaSequence;
  isSequence : bool;
  isDone : bool;
  isApiGatewayRequest : bool
}.
End IHandlerContext.

(** The event as [LambdaSequence.from] unboxes it, with the answers of
    [isLambdaProxyRequest] (common-types) on the event and on the
    [apiGateway] part. *)
Record UnboxedEvent : Type := mkEvent {
  ev_request : JValue;
  ev_isLambdaProxyRequest : bool;
  ev_apiGatewayIsLambdaProxyRequest : bool
}.

Record IWrapperOptions : Type := mkOptions {
  sequenceTracker : option string
}.

(** One run of the user's handler function: what it returns or throws, and
    what it did through the context before that ([setSuccessCode],
    [errorMgmt], [registerSequence]). *)
Record HandlerRun : Type := mkRun {
  run_outcome : Outcome JValue;
  run_statusCode : option Z;
  run_errorMgmt : ErrorMeta.t;
  run_registered : option LambdaSequence
}.

(** The mutable objects a wrapper invocation works on: the sequence of the
    event, the module variable [newSequence], and the calls made to
    [invokeLambda] so far. *)
Record World : Type := mkWorld {
  w_sequence : LambdaSequence;
  w_newSequence : option LambdaSequence;
  w_invoked : list (string * Payload)
}.

Module Wrapper.
Section wrapper.

(** The collaborators outside the sources: the platform behind
    [invokeLambda] (aws-log), [JSON.stringify], the response headers of
    the headers module, the tracker status builder and the logger's
    correlation id. *)
Variable platform : string -> Payload -> Outcome JValue.
Variable JSON_stringify : JValue -> string.
Variable getResponseHeaders : IDictionary.
Variable sequenceStatus : string -> LambdaSequence -> JValue.
Variable getCorrelationId : string.

Variable fn : JValue -> IHandlerContext.t -> HandlerRun.
Variable options : IWrapperOptions.

Definition on_sequence {A} (m : Eff LambdaSequence A) : Eff World A :=
  fun w => let r := m (w_sequence w) in
           (r.1, mkWorld r.2 (w_newSequence w) (w_invoked w)).

Definition invokeLambda (arn : string) (payload : Payload) : Eff World JValue :=
  fun w => (platform arn payload,
            mkWorld (w_sequence w) (w_newSequence w) (w_invoked w ++ [(arn, payload)])).

(** [registerSequence(s)]: [newSequence = s] *)
Definition registerSequence (s : option LambdaSequence) (w : World) : World :=
  match s with
  | Some _ => mkWorld (w_sequence w) s (w_invoked w)
  | None => w
  end.

Definition getNewSequence (w : World) : LambdaSequence :=
  default Seq.notASequence (w_newSequence w).

(** [newSequence.start()] *)
Definition invokeNewSequence (results : JValue) : Eff World JValue :=
  fun w =>
    match w_newSequence w with
    | None => (Returns JUndefined, w)
    | Some ns =>
        match Seq.getInvocationParameters ns with
        | (Returns p, ns') =>
            invokeLambda p.1 (Orchestrated p.2)
              (mkWorld (w_sequence w) (Some ns') (w_invoked w))
        | (Throws e, ns') =>
            (Throws e, mkWorld (w_sequence w) (Some ns') (w_invoked w))
        end
    end.

Definition when {St} (c : bool) (m : Eff St unit) : Eff St unit :=
  if c then m else ret tt.

(** The regions of the [try] block after the user function has returned. *)

(** SEQUENCE (next) *)
Definition continueSequence (result : JValue) : Eff World unit :=
  let! isSequence := read (fun w => Seq.isSequence (w_sequence w)) in
  let! isDone := read (fun w => Seq.isDone (w_sequence w)) in
  when (isSequence && negb isDone)
    (let! p := on_sequence (Seq.next result) in
     invokeLambda p.1 (Orchestrated p.2) ;;; ret tt).

(** SEQUENCE (orchestration starting) *)
Definition startNewSequence (result : JValue) : Eff World unit :=
  let! started := read (fun w => Seq.isSequence (getNewSequence w)) in
  when started (invokeNewSequence result ;;; ret tt).

(** What the tracker is sent: [buildOrchestratedRequest(status(sequence))]. *)
Definition trackerPayload (w : World) : Payload :=
  Orchestrated (mkRequest (sequenceStatus getCorrelationId (w_sequence w)) None).

(** SEQUENCE (send to tracker) *)
Definition notifyTracker : Eff World unit :=
  let! isSequence := read (fun w => Seq.isSequence (w_sequence w)) in
  match sequenceTracker options with
  | Some tracker =>
      when (truthy (JStr tracker) && isSequence)
        (let! payload := read trackerPayload in
         invokeLambda tracker payload ;;; ret tt)
  | None => ret tt
  end.

(** RETURN-VALUES *)
Definition returnValues (handlerContext : IHandlerContext.t) (result : JValue)
  (statusCode : option Z) : WrapperResult :=
  if IHandlerContext.isApiGatewayRequest handlerContext then
    ApiGatewayResponse
      (match statusCode with
       | Some c => if truthy (JNum c) then c
                   else if truthy result then HttpStatusCodes.Success
                        else HttpStatusCodes.NoContent
       | None => if truthy result then HttpStatusCodes.Success
                 else HttpStatusCodes.NoContent
       end)
      getResponseHeaders
      (if truthy result
       then match result with JStr s => s | _ => JSON_stringify result end
       else "")
  else Result result.

Definition afterHandler (handlerContext : IHandlerContext.t) (result : JValue)
  (statusCode : option Z) : Eff World WrapperResult :=
  continueSequence result ;;;
  startNewSequence result ;;;
  notifyTracker ;;;
  ret (returnValues handlerContext result statusCode).

(** The assignments to a [ServerlessError] before it is thrown again. *)
Definition enrich (context : IAWSLambaContext) (handlerContext : IHandlerContext.t)
  (found : ServerlessError.t) : ServerlessError.t :=
  ServerlessError.mk
    (ServerlessError.name found)
    (ServerlessError.httpStatus found)
    (ServerlessError.message found)
    (String_replace (ServerlessError.classification found) "aws-orchestrate/"
       (ctx_functionName context +:+ "/"))
    (Some (ctx_functionName context))
    (Some (IHandlerContext.correlationId handlerContext))
    (Some (IHandlerContext.awsRequestId handlerContext)).

(** [return convertToApiGatewayError(err)] for a gateway request, [throw
    err] otherwise. *)
Definition surface (isApiGatewayRequest : bool) (err : JsError)
  : Eff World WrapperResult :=
  if isApiGatewayRequest then ret (ApiGatewayError err) else throw err.

(** The inner [try] of the [catch] block. *)
Definition errorHandling (context : IAWSLambaContext)
  (handlerContext : IHandlerContext.t) (errorMeta : ErrorMeta.t)
  (isApiGatewayRequest : bool) (result : JValue) (e : JsError)
  : Eff World WrapperResult :=
  match e with
  | Serverless found => throw (Serverless (enrich context handlerContext found))
  | _ =>
      match ErrorMeta.findError e errorMeta with
      | Some found =>
          match ErrorMeta.handling found with
          | None => surface isApiGatewayRequest (HandledError (ErrorMeta.code found) e)
          | Some handling =>
              let! unresolved :=
                match ErrorMeta.callback handling with
                | Some callback =>
                    let! resolvedLocally := lift (callback e) in
                    ret (negb (truthy resolvedLocally))
                | None => ret false
                end in
              if (unresolved : bool) then
                surface isApiGatewayRequest (HandledError (ErrorMeta.code found) e)
              else
                match ErrorMeta.forwardTo handling with
                | Some arn =>
                    when (truthy (JStr arn))
                      (invokeLambda arn (ErrorPayload e) ;;; ret tt)
                | None => ret tt
                end ;;;
                ret (Result JUndefined)
          end
      | None =>
          match ErrorMeta.defaultHandling errorMeta with
          | ErrorMeta.handler_fn defaultHandlerFn =>
              match defaultHandlerFn e with
              | Returns passed =>
                  if strict_eq passed (JBool true) then
                    if isApiGatewayRequest then
                      ret (ApiGatewayResponse
                             (if truthy result then HttpStatusCodes.Accepted
                              else HttpStatusCodes.NoContent)
                             getResponseHeaders
                             (if truthy result then JSON_stringify result else ""))
                    else ret (Result result)
                  else ret (Result JUndefined)
              | Throws e2 =>
                  surface isApiGatewayRequest
                    (UnhandledError (ErrorMeta.defaultErrorCode errorMeta) e)
              end
          | ErrorMeta.error_forwarding arn =>
              invokeLambda arn (ErrorPayload e) ;;; ret (Result JUndefined)
          | ErrorMeta.default_error message =>
              surface isApiGatewayRequest (DefaultError message e)
          | ErrorMeta.default =>
              surface isApiGatewayRequest
                (UnhandledError (ErrorMeta.defaultErrorCode errorMeta) e)
          end
      end
  end.

(** [sequence.activeFn && sequence.activeFn.onError && KIND(sequence.
    activeFn.onError) ? sequence.activeFn.onError : false], one reading of
    the getter for each mention. *)
Definition conductorPolicy (kind : OnError -> bool)
  : Eff LambdaSequence (option OnError) :=
  let! a1 := Seq.activeFn in
  match a1 with
  | None => ret None
  | Some _ =>
      let! a2 := Seq.activeFn in
      let! onError2 := Seq.member "onError" a2 Step.onError in
      match onError2 with
      | None => ret None
      | Some _ =>
          let! a3 := Seq.activeFn in
          let! onError3 := Seq.member "onError" a3 Step.onError in
          if match onError3 with Some p => kind p | None => false end then
            let! a4 := Seq.activeFn in
            Seq.member "onError" a4 Step.onError
          else ret None
      end
  end.

Definition isFunction (p : OnError) : bool :=
  match p with OrchestratedErrorHandler _ => true | _ => false end.

Definition Array_isArray (p : OnError) : bool :=
  match p with OrchestratedErrorForwarder _ _ => true | _ => false end.

(** The [catch (errorOfError)] block.  [resolvedByConductor] is a closure
    over [conductorErrorHandler] which the block defines and never calls. *)
Definition conductorHandling (e errorOfError : JsError) : Eff World WrapperResult :=
  match errorOfError with
  | Serverless _ => throw errorOfError
  | _ =>
      let! conductorErrorHandler := on_sequence (conductorPolicy isFunction) in
      let resolvedByConductor (_ : unit) : bool :=
        match conductorErrorHandler with
        | Some (OrchestratedErrorHandler handler) => handler e
        | _ => false
        end in
      let! forwardedByConductor := on_sequence (conductorPolicy Array_isArray) in
      match forwardedByConductor with
      | Some (OrchestratedErrorForwarder arn params) =>
          invokeLambda arn (ParamsPayload params) ;;; ret (Result JUndefined)
      | _ =>
          if match error_type errorOfError with
             | Some ty => bool_decide (ty = "unhandled-error")
                          || bool_decide (ty = "handled-error")
                          || bool_decide (ty = "default-error")
             | None => false
             end
          then throw (RethrowError errorOfError)
          else throw (ErrorWithinError e errorOfError)
      end
  end.

(** The [catch (e)] block. *)
Definition catch_ (event : UnboxedEvent) (context : IAWSLambaContext)
  (handlerContext : IHandlerContext.t) (errorMeta : ErrorMeta.t)
  (result : JValue) (e : JsError) : Eff World WrapperResult :=
  fun w =>
    match errorHandling context handlerContext errorMeta
            (ev_apiGatewayIsLambdaProxyRequest event) result e w with
    | (Returns r, w') => (Returns r, w')
    | (Throws errorOfError, w') => conductorHandling e errorOfError w'
    end.

(** The object assigned to [handlerContext] in the PREP region. *)
Definition buildHandlerContext (event : UnboxedEvent) (context : IAWSLambaContext)
  (w : World) : IHandlerContext.t :=
  IHandlerContext.mk (ctx_functionName context) (ctx_awsRequestId context)
    getCorrelationId (w_sequence w)
    (Seq.isSequence (w_sequence w)) (Seq.isDone (w_sequence w))
    (ev_isLambdaProxyRequest event).

(** The handler [wrapper(fn, options)] applied to an event and a platform
    context.  The steps before the user function (logging, secrets,
    claims) are taken not to throw. *)
Definition wrapper (event : UnboxedEvent) (context : IAWSLambaContext)
  : Eff World WrapperResult :=
  fun w =>
    let handlerContext := buildHandlerContext event context w in
    let run := fn (ev_request event) handlerContext in
    let w1 := registerSequence (run_registered run) w in
    match run_outcome run with
    | Throws e =>
        catch_ event context handlerContext (run_errorMgmt run) JUndefined e w1
    | Returns result =>
        match afterHandler handlerContext result (run_statusCode run) w1 with
        | (Returns r, w2) => (Returns r, w2)
        | (Throws e, w2) =>
            catch_ event context handlerContext (run_errorMgmt run) result e w2
        end
    end.

End wrapper.
End Wrapper.

(** ** Unboxing an event: [LambdaSequence.from] *)

(** [delete o[k]] *)
Definition obj_delete (k : string) (o : IDictionary) : IDictionary :=
  filter (fun kv => kv.1 <> k) o.

(** Modelled from the spec: [isLambdaProxyRequest] (common-types),
    [isOrchestratedRequest] and [isBareRequest] ([./private]) are not among
    the sources; spec 4.1 names the three shapes they tell apart, and an
    event comes here as one of them.  A proxy event is given by its own
    properties and by its body as [getBodyFromPossibleLambdaProxyRequest]
    parses it; an orchestrated event by its three fields after [decompress];
    a bare event is the value itself. *)
Inductive IOrchestrationRequestTypes : Type :=
| LambdaProxyRequest (event : IDictionary) (body : JValue)
| OrchestratedRequest (headers body : JValue) (sequence : ISerializedSequence)
| BareRequest (event : JValue).

(** What [from] returns. *)
Record ILambaSequenceFromResponse : Type := mkFrom {
  from_request : JValue;
  from_apiGateway : option IDictionary;
  from_sequence : LambdaSequence;
  from_headers : JValue
}.

Module From.
Section from.

(** The steps held by [event._sequence], read as [ILambdaSequenceStep[]]
    (after [JSON.parse], for a string), and the array that holds given
    step objects, as a value. *)
Variable asSteps : JValue -> list ILambdaSequenceStep.
Variable ofSteps : list ILambdaSequenceStep -> JValue.

(** [typeof event === object && event._sequence]; reading a property of
    [null] throws. *)
Definition carriesSequence (event : JValue) : Eff LambdaSequence bool :=
  if bool_decide (js_typeof event = "object") then
    match event with
    | JNull => throw (TypeError "_sequence")
    | _ => ret (truthy (prop_get event "_sequence"))
    end
  else ret false.

(** The [reduce] that copies every property of the event but
    [_sequence]. *)
Definition withoutSequence (event : JValue) : IDictionary :=
  fold_left (fun props prop =>
               if bool_decide (prop <> "_sequence")
               then obj_set prop (prop_get event prop) props
               else props)
    (Object_keys (own_props event)) [].

(** The event as [ingestSteps(event, event._sequence)] reads it.  A
    string is parsed into steps of its own.  An array is installed as it
    is: its step objects are the steps of the sequence, so the status that
    [activeFn] writes into one of them, before the event is spread into
    the params, is written into the array of the event. *)
Definition shared (event : JValue) (this : LambdaSequence) : JValue :=
  match prop_get event "_sequence" with
  | JStr _ => event
  | sequence =>
      JObj (obj_set "_sequence"
              (ofSteps (_steps (Seq.activeFn
                                  (Seq.set_steps (asSteps sequence) this)).2))
              (own_props event))
  end.

(** The instance method.  The sequence it returns is a new object in the
    first two branches and [this] itself ([None] below) after
    [ingestSteps]. *)
Definition from (event : IOrchestrationRequestTypes)
  : Eff LambdaSequence ILambaSequenceFromResponse :=
  let! unboxed :=
    match event with
    | LambdaProxyRequest event body =>
        let apiGateway := spread (spread [] []) event in
        ret (Some (obj_delete "body" (obj_delete "headers" apiGateway)),
             prop_get (JObj apiGateway) "headers",
             Some Seq.notASequence, body)
    | OrchestratedRequest headers body sequence =>
        ret (None, headers, Some (Seq.deserialize sequence), body)
    | BareRequest event =>
        let! carries := carriesSequence event in
        if (carries : bool) then
          let! event' := read (shared event) in
          Seq.ingestSteps event' (asSteps (prop_get event "_sequence")) ;;;
          ret (None, JObj [], None, JObj (withoutSequence event'))
        else ret (None, JObj [], Some Seq.notASequence, event)
    end in
  let! a := Seq.activeFn in
  let! activeFn :=
    match a with
    | Some _ =>
        let! a' := Seq.activeFn in
        Seq.member "params" a' Step.params ;;;
        let! a'' := Seq.activeFn in
        Seq.member "params" a'' Step.params
    | None => ret []
    end in
  let request :=
    if bool_decide (js_typeof unboxed.2 = "object")
    then JObj (spread activeFn (own_props unboxed.2))
    else unboxed.2 in
  let! this := read id in
  ret (mkFrom request unboxed.1.1.1 (default this unboxed.1.2) unboxed.1.1.2).

(** The static [LambdaSequence.from]: the method of a new object. *)
Definition from_new (event : IOrchestrationRequestTypes)
  : Outcome ILambaSequenceFromResponse :=
  (from event Seq.new).1.

End from.
End From.

(** ** The handler of [SequenceTracker] *)

Module SequenceTracker.

(** [ISequenceTrackerStatus]: the fields of the base interface and the
  three variants that extend it. *)
Inductive Progress : Type :=
| success (data : string)
| error (error : JsError)
| running.

Record ISequenceTrackerStatus : Type := mkStatus {
correlationId : string;
total : Z;
current : Z;
currentFn : string;
originFn : option string;
progress : Progress
}.

Record ISequenceTrackerRequest : Type := mkTrackerRequest {
status : ISequenceTrackerStatus;
firebaseSecretLocation : option string
}.

(** What the handler asks of the outside, in the order it asks. *)
Inductive Call : Type :=
| GetSecrets (modules : list string)
| Database (config : JValue)
| DbSet (path : string) (value : ISequenceTrackerStatus).

(** [new Error(...)] of the handler; the source puts the word stage in
  double quotes. *)
Definition StageUnknown : JsError :=
Error_ (Message "The stage could not be determined; set the AWS_STAGE or NODE_ENV environment variables!").

(** [a || b] on strings that may be [undefined] *)
Definition or_else (a b : option string) : option string :=
match a with
| Some s => if truthy (JStr s) then Some s else b
| None => b
end.

Section handler.

(** The collaborators outside the sources: [getSecrets] (./private), the
    [database] of the handler context with the [set] of the handle it
    gives, and the two environment variables. *)
Variable getSecrets : list string -> Outcome JValue.
Variable database : JValue -> Outcome unit.
Variable db_set : string -> ISequenceTrackerStatus -> Outcome unit.
Variable AWS_STAGE NODE_ENV : option string.

Definition call {A} (c : Call) (o : Outcome A) : Eff (list Call) A :=
  fun log => (o, (log ++ [c])%list).

(** [v.p]; reading a property of [undefined] or [null] throws. *)
Definition property (v : JValue) (p : string) : Eff (list Call) JValue :=
  match v with
  | JUndefined | JNull => throw (TypeError p)
  | _ => ret (prop_get v p)
  end.

Definition fn (event : ISequenceTrackerRequest)
  : Eff (list Call) ISequenceTrackerStatus :=
  let firebaseModule :=
    default "firebase/SERVICE_ACCOUNT"
      (or_else (firebaseSecretLocation event) None) in
  let! secrets := call (GetSecrets [firebaseModule]) (getSecrets [firebaseModule]) in
  let! firebase := property secrets "firebase" in
  let! account := property firebase "SERVICE_ACCOUNT" in
  call (Database account) (database account) ;;;
  let stage := or_else AWS_STAGE NODE_ENV in
  match stage with
  | Some stage =>
      if negb (truthy (JStr stage)) then throw StageUnknown
      else
        let databasePath :=
          "aws-orchestrate/" +:+ stage +:+ "/" +:+ correlationId (status event) in
        call (DbSet databasePath (status event)) (db_set databasePath (status event)) ;;;
        ret (status event)
  | None => throw StageUnknown
  end.

End handler.
End SequenceTracker.
(** ** Vocabulary of the statements *)

(** The first step of a list with a given status, and its position. *)
Definition first_with (st : Status.t) (l : list ILambdaSequenceStep)
  : option Seq.StepRef :=
  list_find (fun s => Step.status s = st) l.

(** What a parameter resolves to: itself, or for a dynamic reference what
    [get] makes of its lookup. *)
Definition resolved_value (responses : gmap string JValue) (value : JValue)
  : Outcome JValue :=
  if Seq.isDynamic value then get responses (Seq.lookup_of value) JUndefined
  else Returns value.

(** Every parameter resolves: no lookup meets a [null] on its way. *)
Definition resolvable (responses : gmap string JValue) (params : IDictionary) : bool :=
  forallb (fun key =>
             match resolved_value responses (default JUndefined (obj_get key params)) with
             | Returns _ => true
             | Throws _ => false
             end)
    (Object_keys params).

(** [a], between [l1] and [l2], is the step [activeFn] yields: the first
    active step, or the first assigned step when no step is active. *)
Definition is_current (l1 : list ILambdaSequenceStep) (a : ILambdaSequenceStep)
  (l2 : list ILambdaSequenceStep) : Prop :=
  Forall (fun s => Step.status s <> Status.active) l1 /\
  (Step.status a = Status.active \/
   (Step.status a = Status.assigned /\
    Forall (fun s => Step.status s <> Status.assigned) l1 /\
    Forall (fun s => Step.status s <> Status.active) l2)).

(** Steps used in the examples. *)
Module Examples.
Definition A_active : ILambdaSequenceStep :=
  Step.mk "A" [] task Status.active None None.
Definition A_completed : ILambdaSequenceStep :=
  Step.mk "A" [] task Status.completed None None.
Definition B_assigned : ILambdaSequenceStep :=
  Step.mk "B" [] task Status.assigned None None.
(** [{ foo: dynamic(A, data) }], waiting for its turn *)
Definition B_waiting : ILambdaSequenceStep :=
  Step.mk "B" [("foo", JObj [("lookup", JStr "A.data")])] task Status.assigned
    None None.
(** [{ foo: dynamic(A, data) }] *)
Definition B_dynamic : ILambdaSequenceStep :=
  Step.mk "B" [("foo", JObj [("lookup", JStr "A.data")])] task Status.active None None.
(** [{ bar: :A.data }], the legacy form *)
Definition B_legacy : ILambdaSequenceStep :=
  Step.mk "B" [("bar", JStr ":A.data")] task Status.active None None.
End Examples.

(** The operations that change a sequence, with their arguments. *)
Inductive Op : Type :=
| OpAdd (arn : string) (params : IDictionary) (type : ILambdaFunctionType)
| OpOnCondition (fn : OrchestratedCondition) (arn : string) (params : IDictionary)
| OpIngestSteps (request : JValue) (steps : list ILambdaSequenceStep)
| OpNext (currentFnResponse : JValue)
| OpFinishStep (results : JValue)
| OpActiveFn.

(** The sequence an operation leaves, whether it returns or throws. *)
Definition exec (op : Op) (this : LambdaSequence) : LambdaSequence :=
  match op with
  | OpAdd arn params type => Seq.add arn params type this
  | OpOnCondition fn arn params => Seq.onCondition fn arn params this
  | OpIngestSteps request steps => (Seq.ingestSteps request steps this).2
  | OpNext currentFnResponse => (Seq.next currentFnResponse this).2
  | OpFinishStep results => (Seq.finishStep results this).2
  | OpActiveFn => (Seq.activeFn this).2
  end.

(** The sequences reached from a new one, [ingestSteps] being given the
    step lists that [ingestible] admits. *)
Inductive reachable (ingestible : list ILambdaSequenceStep -> Prop)
  : LambdaSequence -> Prop :=
| reachable_new : reachable ingestible Seq.new
| reachable_exec op this :
    reachable ingestible this ->
    match op with OpIngestSteps _ steps => ingestible steps | _ => True end ->
    reachable ingestible (exec op this).

Definition count (st : Status.t) (l : list ILambdaSequenceStep) : nat :=
  length (filter (fun s => Step.status s = st) l).

Definition at_most_one_active (l : list ILambdaSequenceStep) : Prop :=
  count Status.active l <= 1.

(** Every step of [l] is still there in [l'], at the same place, with a
    status that is the same or further on. *)
Definition advances (l l' : list ILambdaSequenceStep) : Prop :=
  forall i s, l !! i = Some s ->
    exists s', l' !! i = Some s' /\
               Status.rank (Step.status s) <= Status.rank (Step.status s').

(** No dollar sign in a string: the characters of a Lambda function name
    are letters, digits, hyphens and underscores. *)
Fixpoint dollar_free (s : string) : bool :=
  match s with
  | EmptyString => true
  | String a tl => negb (bool_decide (a = "$"%char)) && dollar_free tl
  end.

(** Invocations used in the examples. *)
Module WrapperExamples.
Definition down : JsError := Error_ (Message "tracker down").
Definition boom : JsError := Error_ (Message "boom").

(** A platform on which every function answers but the tracker. *)
Definition platform (arn : string) (payload : Payload) : Outcome JValue :=
  if bool_decide (arn = "tracker") then Throws down else Returns JUndefined.

(** No result of these examples is an object sent through a gateway. *)
Definition JSON_stringify (v : JValue) : string :=
  match v with JStr s => s | _ => "" end.

Definition headers : IDictionary :=
  [("Access-Control-Allow-Origin", JStr "*");
   ("Access-Control-Allow-Credentials", JBool true)].

Definition sequenceStatus (correlationId : string) (s : LambdaSequence) : JValue :=
  JObj [("correlationId", JStr correlationId);
        ("total", JNum (Z.of_nat (length (_steps s))))].

Definition event : UnboxedEvent := mkEvent (JObj []) false false.
Definition context : IAWSLambaContext := mkContext "myHandlerFunction" "1234".
Definition ok : JValue := JObj [("ok", JBool true)].

Definition defaultPolicy : ErrorMeta.t := ErrorMeta.mk [] ErrorMeta.default 500.

Definition returns (result : JValue) (errorMeta : ErrorMeta.t)
  (request : JValue) (ctx : IHandlerContext.t) : HandlerRun :=
  mkRun (Returns result) None errorMeta None.

Definition throws (e : JsError) (errorMeta : ErrorMeta.t)
  (request : JValue) (ctx : IHandlerContext.t) : HandlerRun :=
  mkRun (Throws e) None errorMeta None.

(** The last step of a sequence is running. *)
Definition lastStep : World := mkWorld (mkSequence [Examples.A_active] ∅) None [].

(** The running step carries an [onError] function that resolves every
    error. *)
Definition A_onError : ILambdaSequenceStep :=
  Step.mk "A" [] task Status.active None
    (Some (OrchestratedErrorHandler (fun _ => true))).
Definition guarded : World := mkWorld (mkSequence [A_onError] ∅) None [].

(** [new ServerlessError(403, nope, auth)] *)
Definition nope : ServerlessError.t :=
  ServerlessError.mk "ServerlessError" 403 "nope" "aws-orchestrate/auth"
    None None None.

Definition untracked : IWrapperOptions := mkOptions None.
End WrapperExamples.

(** ** Tactics *)

(** Unfold the monad's plumbing until the next call whose result has to be
    supplied by a rewrite. *)
Ltac eff :=
  repeat progress
    (unfold bind, ret, read, modify, lift, throw, Seq.member,
       Seq.validateCallDepth, Seq.buildOrchestratedRequest, Seq.next;
     cbn beta iota zeta delta [fst snd id]).

(** Unfold the wrapper down to its calls. *)
Ltac wrap :=
  unfold Wrapper.wrapper, Wrapper.catch_, Wrapper.errorHandling,
    Wrapper.conductorHandling, Wrapper.afterHandler, Wrapper.surface,
    Wrapper.on_sequence, Wrapper.invokeLambda, Wrapper.when;
  eff.

(** ** Further vocabulary *)

Local Open Scope list_scope.

(** A step that [activeFn] can yield: active, or assigned. *)
Definition live (s : ILambdaSequenceStep) : Prop :=
  Step.status s = Status.active \/ Step.status s = Status.assigned.

(** The sequences a conductor builds: [add] and [onCondition] on a new one. *)
Inductive built : LambdaSequence -> Prop :=
| built_new : built Seq.new
| built_add arn params type this :
    built this -> built (Seq.add arn params type this)
| built_onCondition fn arn params this :
    built this -> built (Seq.onCondition fn arn params this).

(** Every response is filed under the arn of a completed step. *)
Definition answered (this : LambdaSequence) : Prop :=
  forall k, is_Some (_responses this !! k) ->
    exists s, s ∈ _steps this /\ Step.arn s = k /\ Step.status s = Status.completed.

(** No dot in a string: it is one segment of a lookup path. *)
Fixpoint dot_free (s : string) : bool :=
  match s with
  | EmptyString => true
  | String a tl => negb (bool_decide (a = "."%char)) && dot_free tl
  end.

(** The params [ingestSteps] writes into the current step [a], and what it
    does to each step. *)
Definition merged_params (request : JValue) (a : ILambdaSequenceStep) : IDictionary :=
  if bool_decide (js_typeof request = "object")
  then spread (Step.params a) (own_props request)
  else spread (Step.params a) [("request", request)].

Definition merge_into (request : JValue) (a s : ILambdaSequenceStep)
  : ILambdaSequenceStep :=
  if bool_decide (Step.arn s = Step.arn a)
  then Step.set_params (merged_params request a) s else s.

(** No step of the list carries an [onError]. *)
Definition plain (l : list ILambdaSequenceStep) : Prop :=
  Forall (fun s => Step.onError s = None) l.

(** A sequence whose conductor has no say in error handling: it has no
    steps, or its current step carries no [onError]. *)
Definition unattended (this : LambdaSequence) : Prop :=
  _steps this = [] \/
  exists l1 a l2,
    _steps this = l1 ++ a :: l2 /\ is_current l1 a l2 /\ Step.onError a = None.

(** The types of error that the last [catch] wraps in a [RethrowError]. *)
Definition rethrown (err : JsError) : bool :=
  match error_type err with
  | Some ty => bool_decide (ty = "unhandled-error")
               || bool_decide (ty = "handled-error")
               || bool_decide (ty = "default-error")
  | None => false
  end.

(** A call that writes to the database. *)
Definition is_write (c : SequenceTracker.Call) : bool :=
  match c with SequenceTracker.DbSet _ _ => true | _ => false end.

(** The properties of a bare event as they read once its steps are
    ingested as [l]: a [_sequence] given as a string is what it was, one
    given as an array is the array of the step objects [l]. *)
Definition seen (ofSteps : list ILambdaSequenceStep -> JValue) (ev : IDictionary)
  (l : list ILambdaSequenceStep) : IDictionary :=
  match prop_get (JObj ev) "_sequence" with
  | JStr _ => ev
  | _ => obj_set "_sequence" (ofSteps l) ev
  end.

(** Step objects as values, for the examples: an array of objects with the
    properties [add] writes, and its reading as steps. *)
Module FromExamples.
Definition statusName (st : Status.t) : string :=
  match st with
  | Status.assigned => "assigned"
  | Status.active => "active"
  | Status.completed => "completed"
  | Status.skipped => "skipped"
  end.

Definition ofStep (s : ILambdaSequenceStep) : JValue :=
  JObj [("arn", JStr (Step.arn s)); ("params", JObj (Step.params s));
        ("type", JStr "task"); ("status", JStr (statusName (Step.status s)))].

Definition ofSteps (l : list ILambdaSequenceStep) : JValue := JArr (ofStep <$> l).

Definition asStep (v : JValue) : ILambdaSequenceStep :=
  Step.mk (match prop_get v "arn" with JStr arn => arn | _ => "" end)
    (own_props (prop_get v "params")) task
    (match prop_get v "status" with
     | JStr st =>
         if decide (st = "active") then Status.active
         else if decide (st = "completed") then Status.completed
         else if decide (st = "skipped") then Status.skipped
         else Status.assigned
     | _ => Status.assigned
     end)
    None None.

Definition asSteps (v : JValue) : list ILambdaSequenceStep :=
  match v with JArr items => asStep <$> items | _ => [] end.
End FromExamples.

(** * Lemmas *)

Local Open Scope list_scope.
(** ** Finding steps by status *)

Section refs.
Implicit Types (l : list ILambdaSequenceStep) (st : Status.t).

Lemma find_imap st l (f : nat -> nat) :
  List.find (fun r => bool_decide (Seq.has_status st r)) (imap (fun i s => (f i, s)) l)
  = prod_map f id <$> first_with st l.
Proof.
  revert f. induction l as [|x l IH]; intros f; [done|].
  rewrite imap_cons. cbn [List.find]. unfold first_with. cbn [list_find].
  unfold Seq.has_status at 1. cbn [snd].
  destruct (decide (Step.status x = st)) as [Hx|Hx].
  - rewrite bool_decide_eq_true_2 by done. done.
  - rewrite bool_decide_eq_false_2 by done.
    change (imap ((fun i s => (f i, s)) ∘ S) l) with (imap (fun i s => ((f ∘ S) i, s)) l).
    rewrite IH. unfold first_with.
    destruct (list_find _ l) as [[i y]|]; done.
Qed.

Lemma filter_imap_head st l (f : nat -> nat) :
  filter (Seq.has_status st) (imap (fun i s => (f i, s)) l) !! 0
  = prod_map f id <$> first_with st l.
Proof.
  revert f. induction l as [|x l IH]; intros f; [done|].
  rewrite imap_cons, filter_cons. unfold first_with. cbn [list_find].
  unfold Seq.has_status at 1. cbn [snd].
  destruct (decide (Step.status x = st)) as [Hx|Hx]; [done|].
  change (imap ((fun i s => (f i, s)) ∘ S) l) with (imap (fun i s => ((f ∘ S) i, s)) l).
  rewrite IH. unfold first_with.
  destruct (list_find _ l) as [[i y]|]; done.
Qed.

Lemma find_refs st this :
  List.find (fun r => bool_decide (Seq.has_status st r)) (Seq.refs this)
  = first_with st (_steps this).
Proof.
  unfold Seq.refs. rewrite (find_imap st _ id).
  destruct (first_with _ _) as [[i y]|]; done.
Qed.

Lemma filter_refs_head st this :
  filter (Seq.has_status st) (Seq.refs this) !! 0 = first_with st (_steps this).
Proof.
  unfold Seq.refs. rewrite (filter_imap_head st _ id).
  destruct (first_with _ _) as [[i y]|]; done.
Qed.

Lemma filter_refs_empty st this :
  length (filter (Seq.has_status st) (Seq.refs this)) = 0
  <-> first_with st (_steps this) = None.
Proof.
  rewrite <- filter_refs_head.
  destruct (filter _ _) as [|r rs]; cbn; split; (done || lia).
Qed.

Lemma first_with_middle st l1 a l2 :
  Forall (fun s => Step.status s <> st) l1 -> Step.status a = st ->
  first_with st (l1 ++ a :: l2) = Some (length l1, a).
Proof.
  intros H1 Ha. unfold first_with.
  rewrite list_find_app_r by (by apply list_find_None).
  cbn [list_find]. rewrite decide_True by done. done.
Qed.

Lemma first_with_None st l :
  first_with st l = None <-> Forall (fun s => Step.status s <> st) l.
Proof. apply list_find_None. Qed.

Lemma alter_middle (f : ILambdaSequenceStep -> ILambdaSequenceStep) l1 a l2 :
  alter f (length l1) (l1 ++ a :: l2) = l1 ++ f a :: l2.
Proof.
  replace (length l1) with (length l1 + 0) by lia.
  by rewrite alter_app_r.
Qed.

Lemma first_with_split st l i a :
  first_with st l = Some (i, a) ->
  exists l1 l2, l = l1 ++ a :: l2 /\ length l1 = i /\
                Forall (fun s => Step.status s <> st) l1 /\ Step.status a = st.
Proof.
  unfold first_with. intros (Hi & Ha & Hlt)%list_find_Some.
  exists (take i l), (drop (S i) l). split_and!.
  - by rewrite take_drop_middle.
  - apply length_take_le. apply lookup_lt_Some in Hi. lia.
  - apply Forall_lookup. intros j y Hj.
    pose proof (lookup_lt_Some _ _ _ Hj) as Hlen. rewrite length_take in Hlen.
    rewrite lookup_take_lt in Hj by lia. apply (Hlt j); [done|lia].
  - done.
Qed.
End refs.
Section activeFn.
Implicit Types (this : LambdaSequence) (l : list ILambdaSequenceStep).

Lemma activeFn_rec_empty d this :
  _steps this = [] -> Seq.activeFn_rec (S d) this = (Returns None, this).
Proof. intros H. cbn. by rewrite H. Qed.

Lemma activeFn_rec_active d this r :
  first_with Status.active (_steps this) = Some r ->
  Seq.activeFn_rec (S d) this = (Returns (Some r), this).
Proof.
  intros H. cbn [Seq.activeFn_rec].
  rewrite bool_decide_eq_false_2.
  2:{ intros Hl. apply nil_length_inv in Hl. by rewrite Hl in H. }
  rewrite bool_decide_eq_false_2.
  2:{ rewrite filter_refs_empty. by rewrite H. }
  by rewrite filter_refs_head, H.
Qed.

Lemma first_with_promoted l i a :
  first_with Status.active l = None ->
  first_with Status.assigned l = Some (i, a) ->
  first_with Status.active (alter (Step.set_status Status.active) i l)
  = Some (i, Step.set_status Status.active a).
Proof.
  intros Hnone (l1 & l2 & -> & <- & _ & _)%first_with_split.
  rewrite alter_middle. apply first_with_middle; [|done].
  apply first_with_None in Hnone. by apply Forall_app in Hnone as [? _].
Qed.

Lemma activeFn_rec_promote d this i a :
  first_with Status.active (_steps this) = None ->
  first_with Status.assigned (_steps this) = Some (i, a) ->
  Seq.activeFn_rec (S (S d)) this
  = (Returns (Some (i, Step.set_status Status.active a)),
     Seq.assign_status (i, a) Status.active this).
Proof.
  intros Hact Hasg. cbn [Seq.activeFn_rec].
  rewrite bool_decide_eq_false_2.
  2:{ intros Hl. apply nil_length_inv in Hl. by rewrite Hl in Hasg. }
  rewrite bool_decide_eq_true_2 by (by apply filter_refs_empty).
  rewrite find_refs, Hasg.
  change (Seq.activeFn_rec (S d) (Seq.assign_status (i, a) Status.active this)
          = (Returns (Some (i, Step.set_status Status.active a)),
             Seq.assign_status (i, a) Status.active this)).
  apply activeFn_rec_active. cbn. by apply first_with_promoted.
Qed.

Lemma activeFn_rec_stuck d this :
  _steps this <> [] ->
  first_with Status.active (_steps this) = None ->
  first_with Status.assigned (_steps this) = None ->
  Seq.activeFn_rec (S d) this = (Throws (Error_ NoAssignedStep), this).
Proof.
  intros Hne Hact Hasg. cbn [Seq.activeFn_rec].
  rewrite bool_decide_eq_false_2.
  2:{ intros Hl. by apply nil_length_inv in Hl. }
  rewrite bool_decide_eq_true_2 by (by apply filter_refs_empty).
  by rewrite find_refs, Hasg.
Qed.

(** The getter never goes deeper than its one re-entry. *)
Lemma activeFn_depth d this : Seq.activeFn_rec (2 + d) this = Seq.activeFn this.
Proof.
  unfold Seq.activeFn. change (2 + d) with (S (S d)).
  destruct (_steps this) as [|s0 l0] eqn:Hl.
  { by rewrite !activeFn_rec_empty by done. }
  destruct (first_with Status.active (_steps this)) as [r|] eqn:Hact.
  { by rewrite !(activeFn_rec_active _ _ r) by done. }
  destruct (first_with Status.assigned (_steps this)) as [[i a]|] eqn:Hasg.
  { by rewrite !(activeFn_rec_promote _ _ i a) by done. }
  rewrite !activeFn_rec_stuck; try done; by rewrite Hl.
Qed.

Lemma activeFn_empty this :
  _steps this = [] -> Seq.activeFn this = (Returns None, this).
Proof. apply activeFn_rec_empty. Qed.

Lemma activeFn_active this r :
  first_with Status.active (_steps this) = Some r ->
  Seq.activeFn this = (Returns (Some r), this).
Proof. apply activeFn_rec_active. Qed.

Lemma activeFn_promote this i a :
  first_with Status.active (_steps this) = None ->
  first_with Status.assigned (_steps this) = Some (i, a) ->
  Seq.activeFn this
  = (Returns (Some (i, Step.set_status Status.active a)),
     Seq.assign_status (i, a) Status.active this).
Proof. apply activeFn_rec_promote. Qed.

Lemma activeFn_stuck this :
  _steps this <> [] ->
  first_with Status.active (_steps this) = None ->
  first_with Status.assigned (_steps this) = None ->
  Seq.activeFn this = (Throws (Error_ NoAssignedStep), this).
Proof. apply activeFn_rec_stuck. Qed.
End activeFn.

(** ** Running the monad *)

Section eff.
Context {St A B : Type}.

Lemma bind_returns (m : Eff St A) (k : A -> Eff St B) s a s' :
  m s = (Returns a, s') -> bind m k s = k a s'.
Proof. unfold bind. by intros ->. Qed.

Lemma bind_throws (m : Eff St A) (k : A -> Eff St B) s e s' :
  m s = (Throws e, s') -> bind m k s = (Throws e, s').
Proof. unfold bind. by intros ->. Qed.
End eff.

(** ** Objects *)

Section objects.
Implicit Types (o : IDictionary) (k : string) (v : JValue).

Lemma obj_get_set k k' v o :
  obj_get k (obj_set k' v o) = if decide (k = k') then Some v else obj_get k o.
Proof.
  induction o as [|[k0 v0] o IH]; cbn.
  - repeat case_decide; done.
  - destruct (decide (k' = k0)) as [->|Hne]; cbn.
    + repeat case_decide; done.
    + rewrite IH. repeat case_decide; congruence.
Qed.

Lemma obj_get_None k o : obj_get k o = None <-> k ∉ Object_keys o.
Proof.
  unfold Object_keys. induction o as [|[k0 v0] o IH]; cbn.
  - split; [intros _; apply not_elem_of_nil|done].
  - rewrite not_elem_of_cons. case_decide; [|tauto]. split; [done|tauto].
Qed.
End objects.

(** ** Parameter resolution *)

Section resolve.
Implicit Types (this : LambdaSequence) (fn : ILambdaSequenceStep).

Lemma typeof_never_undefined v : strict_eq (JStr (js_typeof v)) JUndefined = false.
Proof. done. Qed.

(** [get] throws nothing but the [TypeError] of a [null] on the path. *)
Lemma get_segment_throws ps e : fold_left get_segment ps (Throws e) = Throws e.
Proof. by induction ps. Qed.

Lemma get_segments_throw ps value e :
  fold_left get_segment ps value = Throws e -> value = Throws e \/ e = NullOnPath.
Proof.
  revert value. induction ps as [|p ps IH]; intros value; cbn [fold_left]; [by left|].
  intros [Hstep| ->]%IH; [|by right].
  destruct value as [v|e']; [|by left]. right.
  unfold get_segment in Hstep. destruct (bool_decide _); [|done].
  destruct v; try done. by injection Hstep as <-.
Qed.

Lemma get_throws root dotPath defaultValue e :
  get root dotPath defaultValue = Throws e -> e = NullOnPath.
Proof.
  unfold get. destruct (split_on "." dotPath) as [|p ps]; [done|].
  destruct (fold_left _ _ _) as [v|e'] eqn:Hwalk; [done|]. intros [= ->].
  by destruct (get_segments_throw _ _ _ Hwalk).
Qed.

Lemma resolved_value_throws responses value e :
  resolved_value responses value = Throws e -> e = NullOnPath.
Proof. unfold resolved_value. destruct (Seq.isDynamic _); [apply get_throws|done]. Qed.

Lemma resolve_key_eq this fn props key :
  Seq.resolve_key this fn props key
  = match resolved_value (_responses this)
            (default JUndefined (obj_get key (Step.params fn))) with
    | Returns v => Returns (obj_set key v props)
    | Throws e => Throws e
    end.
Proof.
  unfold Seq.resolve_key, resolved_value.
  destruct (Seq.isDynamic _); [|done].
  destruct (get _ _ _); [|done]. by rewrite typeof_never_undefined.
Qed.

Lemma reduce_throws {A B} (f : B -> A -> Outcome B) l e :
  fold_left (fun acc x => match acc with
                          | Returns b => f b x
                          | Throws e => Throws e
                          end) l (Throws e) = Throws e.
Proof. by induction l. Qed.

(** The value a key is set to, where its parameter resolves. *)
Lemma reduce_resolve this fn keys init :
  let value key :=
    match resolved_value (_responses this)
            (default JUndefined (obj_get key (Step.params fn))) with
    | Returns v => v
    | Throws _ => JUndefined
    end in
  Seq.reduce (Seq.resolve_key this fn) keys init
  = if forallb (fun key =>
                  match resolved_value (_responses this)
                          (default JUndefined (obj_get key (Step.params fn))) with
                  | Returns _ => true
                  | Throws _ => false
                  end) keys
    then Returns (fold_left (fun props key => obj_set key (value key) props) keys init)
    else Throws NullOnPath.
Proof.
  intros value. unfold Seq.reduce. revert init.
  induction keys as [|k ks IH]; intros init; [done|].
  cbn [fold_left forallb]. rewrite resolve_key_eq.
  destruct (resolved_value _ _) as [v|e] eqn:Hk; cbn [andb].
  - assert (value k = v) as -> by (unfold value; by rewrite Hk). apply IH.
  - rewrite reduce_throws. by rewrite (resolved_value_throws _ _ _ Hk).
Qed.

Lemma obj_get_fold_set (f : string -> JValue) keys init k :
  obj_get k (fold_left (fun props key => obj_set key (f key) props) keys init)
  = if decide (k ∈ keys) then Some (f k) else obj_get k init.
Proof.
  revert init. induction keys as [|k0 ks IH]; intros init; cbn [fold_left].
  - rewrite decide_False; [done|apply not_elem_of_nil].
  - rewrite IH, obj_get_set.
    destruct (decide (k ∈ ks)) as [Hin|Hnin].
    + rewrite decide_True; [done|by right].
    + destruct (decide (k = k0)) as [->|Hne].
      * rewrite decide_True; [done|by left].
      * rewrite decide_False; [done|]. by intros [?|?]%elem_of_cons.
Qed.

(** Where every parameter resolves, resolution returns: each key of the
    step's params is set to its value, or to what [get] gives for a
    dynamic reference. *)
Lemma resolveRequestProperties_returns fn this :
  resolvable (_responses this) (Step.params fn) = true ->
  exists body,
    Seq.resolveRequestProperties fn this = (Returns body, this) /\
    forall k, Returns <$> obj_get k body
              = resolved_value (_responses this) <$> obj_get k (Step.params fn).
Proof.
  intros Hres. unfold Seq.resolveRequestProperties. rewrite reduce_resolve.
  unfold resolvable in Hres. rewrite Hres.
  eexists. split; [done|]. intros k.
  rewrite (obj_get_fold_set
             (fun key => match resolved_value (_responses this)
                                 (default JUndefined (obj_get key (Step.params fn))) with
                         | Returns v => v
                         | Throws _ => JUndefined
                         end)).
  destruct (obj_get k (Step.params fn)) as [v|] eqn:Hk; cbn.
  - rewrite decide_True.
    2:{ destruct (decide (k ∈ Object_keys (Step.params fn))) as [|Hn]; [done|].
        apply obj_get_None in Hn. congruence. }
    cbn. f_equal.
    assert (k ∈ Object_keys (Step.params fn)) as Hin.
    { destruct (decide (k ∈ Object_keys (Step.params fn))) as [|Hn]; [done|].
      apply obj_get_None in Hn. congruence. }
    rewrite forallb_forall in Hres. specialize (Hres k).
    rewrite Hk in Hres. cbn in Hres.
    destruct (resolved_value _ v); [done|].
    discriminate Hres. by apply list_elem_of_In.
  - rewrite decide_False; [done|]. by apply obj_get_None.
Qed.

(** Where a parameter does not resolve, resolution throws the error of
    [get]. *)
Lemma resolveRequestProperties_throws fn this :
  resolvable (_responses this) (Step.params fn) = false ->
  Seq.resolveRequestProperties fn this = (Throws NullOnPath, this).
Proof.
  intros Hres. unfold Seq.resolveRequestProperties. rewrite reduce_resolve.
  unfold resolvable in Hres. by rewrite Hres.
Qed.

Lemma fmap_Returns_inv (o : option JValue) v :
  Returns <$> o = Some (Returns v) -> o = Some v.
Proof. destruct o as [v'|]; [|done]. by intros [= ->]. Qed.
End resolve.

(** ** finishStep, toObject, getInvocationParameters *)

Section methods.
Implicit Types (this : LambdaSequence) (l : list ILambdaSequenceStep).

Lemma set_status_same (a : ILambdaSequenceStep) :
  Step.set_status (Step.status a) a = a.
Proof. by destruct a. Qed.

Lemma isSequence_true this : _steps this <> [] -> Seq.isSequence this = true.
Proof.
  intros H. unfold Seq.isSequence. apply bool_decide_eq_true_2.
  destruct (_steps this); [done|cbn; lia].
Qed.

(** What [activeFn] yields on a list split at the current step. *)
Lemma activeFn_current this l1 a l2 :
  _steps this = l1 ++ a :: l2 ->
  is_current l1 a l2 ->
  Seq.activeFn this
  = (Returns (Some (length l1, Step.set_status Status.active a)),
     Seq.set_steps (l1 ++ Step.set_status Status.active a :: l2) this).
Proof.
  intros Hl [Hl1 [Ha|(Ha & Hasg & Hl2)]].
  - rewrite (activeFn_active this (length l1, a)).
    2:{ rewrite Hl. by apply first_with_middle. }
    rewrite <- Ha, set_status_same, <- Hl. by destruct this.
  - rewrite (activeFn_promote this (length l1) a).
    + unfold Seq.assign_status. cbn [fst]. by rewrite Hl, alter_middle.
    + rewrite Hl. apply first_with_None, Forall_app. split; [done|].
      constructor; [congruence|done].
    + rewrite Hl. by apply first_with_middle.
Qed.

Lemma finishStep_current this results l1 a l2 :
  _steps this = l1 ++ a :: l2 ->
  is_current l1 a l2 ->
  Seq.finishStep results this
  = (Returns tt,
     mkSequence (l1 ++ Step.set_status Status.completed a :: l2)
                (<[Step.arn a := results]> (_responses this))).
Proof.
  intros Hl Hcur. unfold Seq.finishStep. eff.
  rewrite (activeFn_current _ _ _ _ Hl Hcur). eff.
  rewrite (activeFn_active _ (length l1, Step.set_status Status.active a)).
  2:{ cbn. apply first_with_middle; [apply Hcur|done]. }
  eff. unfold Seq.assign_status, Seq.set_responses, Seq.set_steps.
  cbn [_steps _responses fst snd]. by rewrite alter_middle.
Qed.

Lemma toObject_active this r :
  first_with Status.active (_steps this) = Some r ->
  Seq.toObject this
  = (Returns (mkSerialized true
                (Some (length (_steps this)))
                (Some (length (Seq.completed this)))
                (Some (Step.arn r.2))
                (Some (Step.arn <$> Seq.completed this))
                (Some (Step.arn <$> Seq.remaining this))
                (Some (_steps this))
                (Some (_responses this))),
     this).
Proof.
  intros Hact. unfold Seq.toObject. eff.
  rewrite isSequence_true.
  2:{ intros Hnil. by rewrite Hnil in Hact. }
  eff. rewrite (activeFn_active _ _ Hact). eff.
  rewrite (activeFn_active _ _ Hact). by eff.
Qed.

Lemma getInvocationParameters_active this r :
  first_with Status.active (_steps this) = Some r ->
  exists s,
    Seq.toObject this = (Returns s, this) /\
    if resolvable (_responses this) (Step.params r.2) then
      exists body,
        Seq.getInvocationParameters this
        = (Returns (Step.arn r.2, mkRequest (JObj body) (Some s)), this) /\
        forall k, Returns <$> obj_get k body
                  = resolved_value (_responses this) <$> obj_get k (Step.params r.2)
    else Seq.getInvocationParameters this = (Throws NullOnPath, this).
Proof.
  intros Hact. eexists. split; [by apply toObject_active|].
  destruct (resolvable _ _) eqn:Hres.
  - destruct (resolveRequestProperties_returns r.2 this Hres) as (body & Hbody & Hkeys).
    exists body. split; [|done].
    unfold Seq.getInvocationParameters. eff.
    rewrite (activeFn_active _ _ Hact). eff.
    rewrite Hbody. eff.
    rewrite (activeFn_active _ _ Hact). eff.
    by rewrite (toObject_active _ _ Hact).
  - unfold Seq.getInvocationParameters. eff.
    rewrite (activeFn_active _ _ Hact). eff.
    by rewrite (resolveRequestProperties_throws r.2 this Hres).
Qed.
End methods.

Section next.
Implicit Types (this : LambdaSequence) (l : list ILambdaSequenceStep).

Lemma getInvocationParameters_current this m1 b m2 :
  _steps this = m1 ++ b :: m2 ->
  is_current m1 b m2 ->
  let this' := Seq.set_steps (m1 ++ Step.set_status Status.active b :: m2) this in
  exists s,
    Seq.deserialize s = this' /\
    if resolvable (_responses this) (Step.params b) then
      exists body,
        Seq.getInvocationParameters this
        = (Returns (Step.arn b, mkRequest (JObj body) (Some s)), this') /\
        forall k, Returns <$> obj_get k body
                  = resolved_value (_responses this) <$> obj_get k (Step.params b)
    else Seq.getInvocationParameters this = (Throws NullOnPath, this').
Proof.
  intros Hl Hcur this'.
  assert (first_with Status.active (_steps this')
          = Some (length m1, Step.set_status Status.active b)) as Hact.
  { cbn. apply first_with_middle; [apply Hcur|done]. }
  assert (Seq.getInvocationParameters this = Seq.getInvocationParameters this')
    as ->.
  { unfold Seq.getInvocationParameters. eff.
    rewrite (activeFn_current _ _ _ _ Hl Hcur). fold this'.
    by rewrite (activeFn_active _ _ Hact). }
  destruct (getInvocationParameters_active _ _ Hact) as (s & Hs & Hget).
  exists s. split; [|exact Hget].
  rewrite (toObject_active _ _ Hact) in Hs. injection Hs as <-.
  by destruct this.
Qed.

End next.

Section next_lemmas.
Implicit Types (this : LambdaSequence) (l : list ILambdaSequenceStep).

Lemma next_promotes this currentFnResponse l1 a l2 m1 b m2 :
  _steps this = l1 ++ a :: l2 ->
  is_current l1 a l2 ->
  Forall (fun s => Step.status s <> Status.active) l2 ->
  l1 ++ Step.set_status Status.completed a :: l2 = m1 ++ b :: m2 ->
  Forall (fun s => Step.status s <> Status.assigned) m1 ->
  Step.status b = Status.assigned ->
  let responses :=
    <[Step.arn a := Seq.orDefault currentFnResponse (JObj [])]> (_responses this) in
  let this' := mkSequence (m1 ++ Step.set_status Status.active b :: m2) responses in
  exists s,
    Seq.deserialize s = this' /\
    if resolvable responses (Step.params b) then
      exists body,
        Seq.next currentFnResponse this
        = (Returns (Step.arn b, mkRequest (JObj body) (Some s)), this') /\
        forall k, Returns <$> obj_get k body
                  = resolved_value responses <$> obj_get k (Step.params b)
    else Seq.next currentFnResponse this = (Throws NullOnPath, this').
Proof.
  intros Hl Hcur Hl2 Hfin Hm1 Hb responses this'.
  assert (Forall (fun s => Step.status s <> Status.active) (m1 ++ b :: m2))
    as [Hm1' Hm2']%Forall_app.
  { rewrite <- Hfin. apply Forall_app. split; [apply Hcur|]. by constructor. }
  destruct (getInvocationParameters_current
              (mkSequence (m1 ++ b :: m2) responses) m1 b m2)
    as (s & Hs & Hget).
  { done. }
  { split; [done|]. right. split_and!; [done..|]. by inversion Hm2'. }
  exists s. split; [done|].
  assert (Seq.next currentFnResponse this
          = Seq.getInvocationParameters (mkSequence (m1 ++ b :: m2) responses))
    as ->; [|exact Hget].
  unfold Seq.next, bind.
  by rewrite (finishStep_current _ _ _ _ _ Hl Hcur), Hfin.
Qed.

End next_lemmas.

Section round_trip.
Implicit Types (this : LambdaSequence).

Lemma toObject_notASequence this :
  _steps this = [] ->
  Seq.toObject this
  = (Returns (mkSerialized false None None None None None None None), this).
Proof.
  intros Hnil. unfold Seq.toObject. eff.
  unfold Seq.isSequence. by rewrite Hnil.
Qed.

Lemma toObject_promotes this l1 a l2 :
  _steps this = l1 ++ a :: l2 ->
  is_current l1 a l2 ->
  let this' := Seq.set_steps (l1 ++ Step.set_status Status.active a :: l2) this in
  Seq.toObject this = Seq.toObject this' /\
  first_with Status.active (_steps this')
  = Some (length l1, Step.set_status Status.active a).
Proof.
  intros Hl Hcur this'.
  assert (first_with Status.active (_steps this')
          = Some (length l1, Step.set_status Status.active a)) as Hact.
  { cbn. apply first_with_middle; [apply Hcur|done]. }
  split; [|done]. unfold Seq.toObject. eff.
  rewrite !isSequence_true by (cbn; rewrite ?Hl; by destruct l1).
  rewrite (activeFn_current _ _ _ _ Hl Hcur). fold this'.
  rewrite !(activeFn_active _ _ Hact).
  unfold Seq.completed, Seq.steps. cbn [_steps this' Seq.set_steps].
  rewrite Hl, !filter_app, !filter_cons.
  destruct Hcur as [_ [Ha|[Ha _]]]; cbn [Step.status Step.set_status]; rewrite Ha;
    rewrite !length_app; repeat case_decide; try done.
Qed.

Lemma toObject_current this l1 a l2 :
  _steps this = l1 ++ a :: l2 ->
  is_current l1 a l2 ->
  let this' := Seq.set_steps (l1 ++ Step.set_status Status.active a :: l2) this in
  exists s,
    Seq.toObject this = (Returns s, this') /\ Seq.deserialize s = this' /\
    Seq.activeFn this = (Returns (Some (length l1, Step.set_status Status.active a)),
                         this').
Proof.
  intros Hl Hcur this'.
  destruct (toObject_promotes _ _ _ _ Hl Hcur) as [Heq Hact].
  rewrite Heq, (toObject_active _ _ Hact).
  eexists. split; [done|]. split; [by destruct this|by apply activeFn_current].
Qed.

(** A sequence with an active or an assigned step splits at the step
    [activeFn] yields. *)
Lemma live_current this :
  Exists (fun s => Step.status s = Status.active \/ Step.status s = Status.assigned)
    (_steps this) ->
  exists l1 a l2, _steps this = l1 ++ a :: l2 /\ is_current l1 a l2.
Proof.
  intros Hlive.
  destruct (first_with Status.active (_steps this)) as [[i a]|] eqn:Hact.
  - apply first_with_split in Hact as (l1 & l2 & Hl & _ & Hl1 & Ha).
    exists l1, a, l2. split; [done|]. split; [done|by left].
  - destruct (first_with Status.assigned (_steps this)) as [[i a]|] eqn:Hasg.
    + apply first_with_split in Hasg as (l1 & l2 & Hl & _ & Hl1 & Ha).
      apply first_with_None in Hact. rewrite Hl in Hact.
      apply Forall_app in Hact as [H1 H2]. inversion H2; subst.
      exists l1, a, l2. split; [done|]. split; [done|]. by right.
    + apply first_with_None in Hact, Hasg.
      apply Exists_exists in Hlive as (s & Hin & [Hs|Hs]).
      * by eapply Forall_forall in Hact.
      * by eapply Forall_forall in Hasg.
Qed.
End round_trip.

(** ** The states an operation can leave *)

Section transitions.
Implicit Types (this : LambdaSequence) (l : list ILambdaSequenceStep).

Lemma not_live_None this :
  ~ Exists (fun s => Step.status s = Status.active \/ Step.status s = Status.assigned)
      (_steps this) ->
  first_with Status.active (_steps this) = None /\
  first_with Status.assigned (_steps this) = None.
Proof.
  intros Hnot. split; apply first_with_None, Forall_forall; intros s Hin Hs;
    apply Hnot, Exists_exists; exists s; tauto.
Qed.

(** The three ways [activeFn] can go. *)
Lemma activeFn_cases this :
  (_steps this = [] /\ Seq.activeFn this = (Returns None, this)) \/
  (_steps this <> [] /\ Seq.activeFn this = (Throws (Error_ NoAssignedStep), this)) \/
  exists l1 a l2,
    _steps this = l1 ++ a :: l2 /\ is_current l1 a l2 /\
    Seq.activeFn this
    = (Returns (Some (length l1, Step.set_status Status.active a)),
       Seq.set_steps (l1 ++ Step.set_status Status.active a :: l2) this).
Proof.
  destruct (decide (Exists (fun s => Step.status s = Status.active \/
                                     Step.status s = Status.assigned) (_steps this)))
    as [Hlive|Hnot].
  - right. right. destruct (live_current _ Hlive) as (l1 & a & l2 & Hl & Hcur).
    exists l1, a, l2. split_and!; [done..|]. by apply activeFn_current.
  - destruct (not_live_None _ Hnot) as [Hact Hasg].
    destruct (_steps this) as [|s0 l0] eqn:Hl.
    + left. split; [done|]. by apply activeFn_empty.
    + right. left. split; [done|]. by apply activeFn_stuck; rewrite ?Hl.
Qed.

(** The getter returns or throws its own error: the bound on its
    re-entry is never met. *)
Lemma activeFn_total this : (Seq.activeFn this).1 <> Throws RangeError.
Proof.
  by destruct (activeFn_cases this) as [[_ ->]|[[_ ->]|(l1 & a & l2 & _ & _ & ->)]].
Qed.

(** Once [activeFn] has returned a step, it returns it again and changes
    nothing. *)
Lemma activeFn_again this l1 a l2 :
  is_current l1 a l2 ->
  let this' := Seq.set_steps (l1 ++ Step.set_status Status.active a :: l2) this in
  Seq.activeFn this'
  = (Returns (Some (length l1, Step.set_status Status.active a)), this').
Proof.
  intros Hcur this'. apply activeFn_active. cbn.
  apply first_with_middle; [apply Hcur|done].
Qed.

Lemma finishStep_cases this results :
  (Seq.finishStep results this).2 = this \/
  exists l1 a l2,
    _steps this = l1 ++ a :: l2 /\ is_current l1 a l2 /\
    Seq.finishStep results this
    = (Returns tt,
       mkSequence (l1 ++ Step.set_status Status.completed a :: l2)
         (<[Step.arn a := results]> (_responses this))).
Proof.
  destruct (activeFn_cases this) as [[_ Hact]|[[_ Hact]|(l1 & a & l2 & Hl & Hcur & _)]].
  - left. unfold Seq.finishStep. eff. by rewrite Hact.
  - left. unfold Seq.finishStep. eff. by rewrite Hact.
  - right. exists l1, a, l2. split_and!; [done..|]. by apply finishStep_current.
Qed.

Lemma getInvocationParameters_state this :
  (Seq.getInvocationParameters this).2 = (Seq.activeFn this).2.
Proof.
  destruct (activeFn_cases this) as [[_ Hact]|[[_ Hact]|(l1 & a & l2 & Hl & Hcur & Hact)]].
  - unfold Seq.getInvocationParameters. eff. by rewrite Hact.
  - unfold Seq.getInvocationParameters. eff. by rewrite Hact.
  - destruct (getInvocationParameters_current _ _ _ _ Hl Hcur) as (s & _ & Hget).
    destruct (resolvable _ _); [destruct Hget as (body & -> & _)|rewrite Hget];
      by rewrite Hact.
Qed.

Lemma mapM_eff_pure {St A B} (f : A -> Eff St B) (g : A -> B) (s : St) (xs : list A) :
  (forall x, f x s = (Returns (g x), s)) ->
  mapM_eff f xs s = (Returns (g <$> xs), s).
Proof.
  intros Hf. induction xs as [|x xs IH]; [done|].
  cbn [mapM_eff]. unfold bind. rewrite Hf, IH. done.
Qed.

(** [ingestSteps] leaves the sequence as it is (it had steps), or with
    the given steps (none of them active or assigned, or no step at all),
    or with the given steps, the current one made active and the params
    of some replaced. *)
Lemma ingestSteps_cases this request steps :
  (Seq.ingestSteps request steps this).2 = this \/
  (_steps this = [] /\
   ((Seq.ingestSteps request steps this).2 = Seq.set_steps steps this \/
    exists l1 a l2 (g : ILambdaSequenceStep -> ILambdaSequenceStep),
      steps = l1 ++ a :: l2 /\ is_current l1 a l2 /\
      (forall s, Step.status (g s) = Step.status s) /\
      (Seq.ingestSteps request steps this).2
      = Seq.set_steps (g <$> (l1 ++ Step.set_status Status.active a :: l2)) this)).
Proof.
  unfold Seq.ingestSteps. eff.
  destruct (_steps this) as [|s0 l0] eqn:Hthis;
    [|left; by rewrite bool_decide_eq_true_2 by (cbn; lia)].
  right. split; [done|]. cbn [length]. rewrite bool_decide_eq_false_2 by lia.
  destruct (activeFn_cases (Seq.set_steps steps this))
    as [[Hnil Hact]|[[_ Hact]|(l1 & a & l2 & Hl & Hcur & Hact)]].
  - left. rewrite Hact. cbn in Hnil. subst steps. cbn.
    by destruct this.
  - left. by rewrite Hact.
  - right. cbn in Hl. rewrite Hact.
    set (this' := Seq.set_steps (l1 ++ Step.set_status Status.active a :: l2)
                    (Seq.set_steps steps this)).
    pose proof (activeFn_again (Seq.set_steps steps this) _ _ _ Hcur) as Hagain.
    fold this' in Hagain. rewrite !Hagain.
    set (T := if bool_decide (js_typeof request = "object") then _ else _).
    set (g := fun s : ILambdaSequenceStep =>
                if bool_decide (Step.arn s = Step.arn a)
                then Step.set_params T s else s).
    rewrite (mapM_eff_pure _ g).
    2:{ intros x. by rewrite !Hagain. }
    exists l1, a, l2, g. split_and!; [done..| |done].
    intros s. unfold g. by case_bool_decide.
Qed.
End transitions.

(** ** Counting statuses; statuses only advance *)

Section invariants.
Implicit Types (this : LambdaSequence) (l : list ILambdaSequenceStep) (st : Status.t).

Lemma count_app st l1 l2 : count st (l1 ++ l2) = count st l1 + count st l2.
Proof. unfold count. by rewrite filter_app, length_app. Qed.

Lemma count_cons st a l :
  count st (a :: l) = (if decide (Step.status a = st) then 1 else 0) + count st l.
Proof. unfold count. rewrite filter_cons. by case_decide. Qed.

Lemma count_zero st l :
  count st l = 0 <-> Forall (fun s => Step.status s <> st) l.
Proof.
  induction l as [|a l IH]; [by split; [constructor|]|].
  rewrite count_cons, Forall_cons. case_decide; split.
  - lia.
  - intros [? _]. done.
  - intros H0. split; [done|]. apply IH. lia.
  - intros [_ ?]. cbn. by apply IH.
Qed.

Lemma count_fmap st (g : ILambdaSequenceStep -> ILambdaSequenceStep) l :
  (forall s, Step.status (g s) = Step.status s) ->
  count st (g <$> l) = count st l.
Proof.
  intros Hg. induction l as [|a l IH]; [done|].
  rewrite fmap_cons, !count_cons, Hg, IH. done.
Qed.

(** Every step has one of the four statuses. *)
Lemma count_total l :
  count Status.completed l + count Status.active l
  + count Status.assigned l + count Status.skipped l = length l.
Proof.
  induction l as [|a l IH]; [done|].
  rewrite !count_cons. cbn [length]. rewrite <- IH.
  destruct (Step.status a); repeat case_decide; try done; lia.
Qed.

Lemma promote_at_most_one l1 a l2 :
  is_current l1 a l2 ->
  at_most_one_active (l1 ++ a :: l2) ->
  at_most_one_active (l1 ++ Step.set_status Status.active a :: l2).
Proof.
  unfold at_most_one_active. intros [Hl1 [Ha|(Ha & _ & Hl2)]].
  - by rewrite !count_app, !count_cons, Ha.
  - intros _. apply count_zero in Hl1, Hl2.
    rewrite count_app, count_cons, Hl1, Hl2. cbn. by case_decide.
Qed.

Lemma complete_at_most_one l1 a l2 :
  at_most_one_active (l1 ++ a :: l2) ->
  at_most_one_active (l1 ++ Step.set_status Status.completed a :: l2).
Proof.
  unfold at_most_one_active. rewrite !count_app, !count_cons. cbn.
  repeat case_decide; try done; lia.
Qed.

Lemma advances_refl l : advances l l.
Proof. intros i s Hi. by exists s. Qed.

Lemma advances_trans l1 l2 l3 : advances l1 l2 -> advances l2 l3 -> advances l1 l3.
Proof.
  intros H12 H23 i s Hi.
  destruct (H12 i s Hi) as (s2 & Hi2 & Hle2).
  destruct (H23 i s2 Hi2) as (s3 & Hi3 & Hle3).
  exists s3. split; [done|lia].
Qed.

Lemma advances_middle l1 a a' l2 :
  Status.rank (Step.status a) <= Status.rank (Step.status a') ->
  advances (l1 ++ a :: l2) (l1 ++ a' :: l2).
Proof.
  intros Hle i s Hi.
  destruct (decide (i = length l1)) as [->|Hne].
  - rewrite list_lookup_middle in Hi by done. injection Hi as <-.
    exists a'. by rewrite list_lookup_middle.
  - exists s. split; [|done].
    destruct (decide (i < length l1)).
    + rewrite lookup_app_l in Hi |- * by done. done.
    + rewrite lookup_app_r in Hi |- * by lia.
      destruct (i - length l1) as [|k] eqn:Hk; [lia|done].
Qed.

Lemma advances_app l l' : advances l (l ++ l').
Proof.
  intros i s Hi. exists s. split; [|done]. by apply lookup_app_l_Some.
Qed.

Lemma advances_fmap (g : ILambdaSequenceStep -> ILambdaSequenceStep) l :
  (forall s, Step.status (g s) = Step.status s) -> advances l (g <$> l).
Proof.
  intros Hg i s Hi. exists (g s). rewrite list_lookup_fmap, Hi, Hg. done.
Qed.

Lemma current_rank l1 a l2 st :
  is_current l1 a l2 -> 1 <= Status.rank st ->
  Status.rank (Step.status a) <= Status.rank st.
Proof. intros [_ [Ha|[Ha _]]] Hst; rewrite Ha; cbn; lia. Qed.

(** What each operation does to the invariant and to the statuses. *)
Lemma activeFn_keeps this :
  (at_most_one_active (_steps this) ->
   at_most_one_active (_steps (Seq.activeFn this).2)) /\
  advances (_steps this) (_steps (Seq.activeFn this).2).
Proof.
  destruct (activeFn_cases this) as [[_ ->]|[[_ ->]|(l1 & a & l2 & Hl & Hcur & ->)]];
    [by split; [|apply advances_refl]..|].
  cbn. rewrite Hl. split.
  - by apply promote_at_most_one.
  - apply advances_middle. by eapply current_rank.
Qed.

Lemma finishStep_keeps this results :
  (at_most_one_active (_steps this) ->
   at_most_one_active (_steps (Seq.finishStep results this).2)) /\
  advances (_steps this) (_steps (Seq.finishStep results this).2).
Proof.
  destruct (finishStep_cases this results) as [->|(l1 & a & l2 & Hl & Hcur & ->)];
    [by split; [|apply advances_refl]|].
  cbn. rewrite Hl. split.
  - by apply complete_at_most_one.
  - apply advances_middle. eapply current_rank; [done|cbn; lia].
Qed.

Lemma next_keeps this currentFnResponse :
  (at_most_one_active (_steps this) ->
   at_most_one_active (_steps (Seq.next currentFnResponse this).2)) /\
  advances (_steps this) (_steps (Seq.next currentFnResponse this).2).
Proof.
  set (results := Seq.orDefault currentFnResponse (JObj [])).
  assert ((Seq.next currentFnResponse this).2
          = (Seq.finishStep results this).2
            \/ (Seq.next currentFnResponse this).2
               = (Seq.activeFn (Seq.finishStep results this).2).2)
    as [->| ->].
  { unfold Seq.next, bind. fold results.
    destruct (Seq.finishStep results this) as [[[]|e] this1]; [right|by left].
    apply getInvocationParameters_state. }
  - apply finishStep_keeps.
  - destruct (finishStep_keeps this results) as [H1 H2].
    destruct (activeFn_keeps (Seq.finishStep results this).2) as [H3 H4].
    split; [tauto|by eapply advances_trans].
Qed.

Lemma ingestSteps_keeps this request steps :
  (at_most_one_active steps ->
   at_most_one_active (_steps this) ->
   at_most_one_active (_steps (Seq.ingestSteps request steps this).2)) /\
  advances (_steps this) (_steps (Seq.ingestSteps request steps this).2).
Proof.
  destruct (ingestSteps_cases this request steps)
    as [->|[Hnil [->|(l1 & a & l2 & g & Hl & Hcur & Hg & ->)]]].
  - by split; [|apply advances_refl].
  - split; [done|]. rewrite Hnil. by intros i s Hi.
  - split; [|rewrite Hnil; by intros i s Hi].
    intros Hsteps _. cbn. unfold at_most_one_active. rewrite count_fmap by done.
    apply promote_at_most_one; [done|by rewrite <- Hl].
Qed.

Lemma exec_advances op this : advances (_steps this) (_steps (exec op this)).
Proof.
  destruct op; cbn [exec].
  - apply advances_app.
  - apply advances_app.
  - apply ingestSteps_keeps.
  - apply next_keeps.
  - apply finishStep_keeps.
  - apply activeFn_keeps.
Qed.

Lemma append_assigned_at_most_one l a :
  Step.status a = Status.assigned ->
  at_most_one_active l -> at_most_one_active (l ++ [a]).
Proof.
  unfold at_most_one_active. intros Ha. rewrite count_app, count_cons, Ha. cbn.
  rewrite decide_False by done. lia.
Qed.

Lemma reachable_at_most_one this :
  reachable at_most_one_active this -> at_most_one_active (_steps this).
Proof.
  induction 1 as [|op this Hreach IH Hop].
  - unfold at_most_one_active. vm_compute. lia.
  - destruct op; cbn [exec].
    + by apply append_assigned_at_most_one.
    + by apply append_assigned_at_most_one.
    + by apply ingestSteps_keeps.
    + by apply next_keeps.
    + by apply finishStep_keeps.
    + by apply activeFn_keeps.
Qed.
End invariants.

Section one_active.
End one_active.

(** ** The wrapper *)

Section strings.
Lemma substring_all s : String.substring 0 (String.length s) s = s.
Proof. induction s as [|a s IH]; [done|]. cbn. by rewrite IH. Qed.

Lemma substring_none s : String.substring 0 0 s = "".
Proof. by destruct s. Qed.

Lemma substring_after p rest n :
  String.substring (String.length p) n (p +:+ rest) = String.substring 0 n rest.
Proof.
  induction p as [|a p IH]; [done|].
  change (String a p +:+ rest) with (String a (p +:+ rest)).
  cbn [String.length String.substring]. apply IH.
Qed.

Lemma length_append p rest :
  String.length (p +:+ rest) = String.length p + String.length rest.
Proof.
  induction p as [|a p IH]; [done|].
  change (String a p +:+ rest) with (String a (p +:+ rest)).
  cbn [String.length]. by rewrite IH.
Qed.

Lemma prefix_append p rest : String.prefix p (p +:+ rest) = true.
Proof.
  induction p as [|a p IH]; [by destruct rest|].
  change (String a p +:+ rest) with (String a (p +:+ rest)).
  cbn [String.prefix]. by destruct (Ascii.ascii_dec a a).
Qed.

Lemma index_prefix a p rest :
  String.index 0 (String a p) (String a p +:+ rest) = Some 0.
Proof.
  change (String a p +:+ rest) with (String a (p +:+ rest)).
  cbn [String.index].
  change (String a (p +:+ rest)) with (String a p +:+ rest).
  by rewrite prefix_append.
Qed.

Lemma String_replace_prefix a p rest replacement :
  String_replace (String a p +:+ rest) (String a p) replacement
  = GetSubstitution (String a p) "" rest replacement +:+ rest.
Proof.
  unfold String_replace. rewrite index_prefix.
  rewrite substring_none. cbn [Nat.add].
  rewrite substring_after, length_append.
  replace (String.length (String a p) + String.length rest
           - String.length (String a p)) with (String.length rest) by lia.
  by rewrite substring_all.
Qed.

Lemma GetSubstitution_dollar_free matched before after replacement :
  dollar_free replacement = true ->
  GetSubstitution matched before after replacement = replacement.
Proof.
  induction replacement as [|a tl IH]; [done|].
  cbn [dollar_free GetSubstitution]. intros [Ha Htl]%andb_true_iff.
  apply negb_true_iff, bool_decide_eq_false in Ha.
  rewrite decide_False by done. by rewrite IH.
Qed.

Lemma dollar_free_app s t :
  dollar_free s = true -> dollar_free t = true -> dollar_free (s +:+ t) = true.
Proof.
  intros Hs Ht. induction s as [|a s IH]; [done|].
  cbn [dollar_free] in Hs. apply andb_true_iff in Hs as [Ha Hs].
  change (String a s +:+ t) with (String a (s +:+ t)).
  cbn [dollar_free]. rewrite Ha. by apply IH.
Qed.

(** Replacing the prefix [aws-orchestrate/] by a function name. *)
Lemma replace_classification_prefix rest functionName :
  dollar_free functionName = true ->
  String_replace ("aws-orchestrate/" +:+ rest) "aws-orchestrate/" (functionName +:+ "/")
  = (functionName +:+ "/") +:+ rest.
Proof.
  intros Hfree. rewrite String_replace_prefix.
  by rewrite GetSubstitution_dollar_free by (by apply dollar_free_app).
Qed.
End strings.

Section conductor.
Implicit Types (this : LambdaSequence).

(** The conductor's policy is read off the current step; reading it makes
    that step active. *)
Lemma conductorPolicy_current kind this l1 a l2 :
  _steps this = l1 ++ a :: l2 ->
  is_current l1 a l2 ->
  Wrapper.conductorPolicy kind this
  = (Returns (match Step.onError a with
              | Some p => if kind p then Some p else None
              | None => None
              end),
     Seq.set_steps (l1 ++ Step.set_status Status.active a :: l2) this).
Proof.
  intros Hl Hcur. unfold Wrapper.conductorPolicy. eff.
  rewrite (activeFn_current _ _ _ _ Hl Hcur).
  rewrite (activeFn_again _ _ _ _ Hcur). cbn [snd Step.onError Step.set_status].
  destruct (Step.onError a) as [p|] eqn:Hon; [|done].
  rewrite (activeFn_again _ _ _ _ Hcur). cbn [snd Step.onError Step.set_status].
  rewrite Hon. destruct (kind p); [|done].
  rewrite (activeFn_again _ _ _ _ Hcur). cbn [snd Step.onError Step.set_status].
  by rewrite Hon.
Qed.
End conductor.

(** * Further properties of the wrapper *)

Section wrapper_lemmas.
Context (platform : string -> Payload -> Outcome JValue)
        (JSON_stringify : JValue -> string)
        (getResponseHeaders : IDictionary)
        (sequenceStatus : string -> LambdaSequence -> JValue)
        (getCorrelationId : string)
        (fn : JValue -> IHandlerContext.t -> HandlerRun)
        (options : IWrapperOptions).

Local Abbreviation wrapper :=
  (Wrapper.wrapper platform JSON_stringify getResponseHeaders sequenceStatus
     getCorrelationId fn options).

(** The wrapper, after a handler that returns. *)
Lemma wrapper_returns event context w result :
  let handlerContext := Wrapper.buildHandlerContext getCorrelationId event context w in
  let run := fn (ev_request event) handlerContext in
  run_outcome run = Returns result ->
  wrapper event context w
  = match Wrapper.afterHandler platform JSON_stringify getResponseHeaders
            sequenceStatus getCorrelationId options handlerContext result
            (run_statusCode run) (Wrapper.registerSequence (run_registered run) w) with
    | (Returns r, w2) => (Returns r, w2)
    | (Throws e, w2) =>
        Wrapper.catch_ platform JSON_stringify getResponseHeaders event context
          handlerContext (run_errorMgmt run) result e w2
    end.
Proof.
  intros handlerContext run Hrun. unfold Wrapper.wrapper.
  fold handlerContext. fold run. by rewrite Hrun.
Qed.

(** The wrapper, after a handler that throws. *)
Lemma wrapper_throws event context w e :
  let handlerContext := Wrapper.buildHandlerContext getCorrelationId event context w in
  let run := fn (ev_request event) handlerContext in
  run_outcome run = Throws e ->
  wrapper event context w
  = Wrapper.catch_ platform JSON_stringify getResponseHeaders event context
      handlerContext (run_errorMgmt run) JUndefined e
      (Wrapper.registerSequence (run_registered run) w).
Proof.
  intros handlerContext run Hrun. unfold Wrapper.wrapper.
  fold handlerContext. fold run. by rewrite Hrun.
Qed.

Lemma continueSequence_idle result w :
  Seq.isSequence (w_sequence w) = false \/ Seq.isDone (w_sequence w) = true ->
  Wrapper.continueSequence platform result w = (Returns tt, w).
Proof.
  intros Hidle. unfold Wrapper.continueSequence, Wrapper.when. eff.
  by destruct Hidle as [-> | ->]; rewrite ?andb_false_r.
Qed.

Lemma continueSequence_next result w p this' :
  Seq.isSequence (w_sequence w) = true ->
  Seq.isDone (w_sequence w) = false ->
  Seq.next result (w_sequence w) = (Returns p, this') ->
  Wrapper.continueSequence platform result w
  = (match platform p.1 (Orchestrated p.2) with
     | Returns _ => Returns tt
     | Throws e => Throws e
     end,
     mkWorld this' (w_newSequence w) (w_invoked w ++ [(p.1, Orchestrated p.2)])).
Proof.
  intros Hseq Hdone Hnext.
  unfold Wrapper.continueSequence, Wrapper.when, Wrapper.on_sequence,
    Wrapper.invokeLambda, bind, read, ret.
  cbn beta iota zeta. rewrite Hseq, Hdone. cbn [andb negb].
  rewrite Hnext. cbn [fst snd w_newSequence w_invoked].
  by destruct (platform _ _).
Qed.

Lemma continueSequence_throws result w e this' :
  Seq.isSequence (w_sequence w) = true ->
  Seq.isDone (w_sequence w) = false ->
  Seq.next result (w_sequence w) = (Throws e, this') ->
  Wrapper.continueSequence platform result w
  = (Throws e, mkWorld this' (w_newSequence w) (w_invoked w)).
Proof.
  intros Hseq Hdone Hnext.
  unfold Wrapper.continueSequence, Wrapper.when, Wrapper.on_sequence, bind, read, ret.
  cbn beta iota zeta. rewrite Hseq, Hdone. cbn [andb negb].
  by rewrite Hnext.
Qed.

Lemma startNewSequence_idle result w :
  Seq.isSequence (Wrapper.getNewSequence w) = false ->
  Wrapper.startNewSequence platform result w = (Returns tt, w).
Proof.
  intros Hidle. unfold Wrapper.startNewSequence, Wrapper.when. eff.
  by rewrite Hidle.
Qed.

Lemma notifyTracker_idle w :
  Seq.isSequence (w_sequence w) = false \/ sequenceTracker options = None ->
  Wrapper.notifyTracker platform sequenceStatus getCorrelationId options w
  = (Returns tt, w).
Proof.
  intros Hidle. unfold Wrapper.notifyTracker, Wrapper.when. eff.
  destruct Hidle as [-> | ->]; [|done].
  destruct (sequenceTracker options); by rewrite ?andb_false_r.
Qed.

(** [start] on the new sequence: its current step is invoked, unless a
    parameter of it does not resolve. *)
Lemma startNewSequence_current result w ns l1 a l2 :
  w_newSequence w = Some ns ->
  _steps ns = l1 ++ a :: l2 ->
  is_current l1 a l2 ->
  let ns' := Seq.set_steps (l1 ++ Step.set_status Status.active a :: l2) ns in
  exists s,
    Seq.deserialize s = ns' /\
    if resolvable (_responses ns) (Step.params a) then
      exists body,
        (forall k, Returns <$> obj_get k body
                   = resolved_value (_responses ns) <$> obj_get k (Step.params a)) /\
        Wrapper.startNewSequence platform result w
        = (match platform (Step.arn a)
                   (Orchestrated (mkRequest (JObj body) (Some s))) with
           | Returns _ => Returns tt
           | Throws e => Throws e
           end,
           mkWorld (w_sequence w) (Some ns')
             (w_invoked w
              ++ [(Step.arn a, Orchestrated (mkRequest (JObj body) (Some s)))]))
    else
      Wrapper.startNewSequence platform result w
      = (Throws NullOnPath, mkWorld (w_sequence w) (Some ns') (w_invoked w)).
Proof.
  intros Hns Hl Hcur ns'.
  destruct (getInvocationParameters_current ns l1 a l2 Hl Hcur) as (s & Hs & Hget).
  exists s. split; [done|].
  assert (Seq.isSequence (Wrapper.getNewSequence w) = true) as Hseq.
  { unfold Wrapper.getNewSequence. rewrite Hns. cbn.
    apply isSequence_true. rewrite Hl. by destruct l1. }
  destruct (resolvable _ _).
  - destruct Hget as (body & Hget & Hkeys). exists body. split; [done|].
    unfold Wrapper.startNewSequence, Wrapper.when, Wrapper.invokeNewSequence,
      Wrapper.invokeLambda. eff.
    rewrite Hseq, Hns, Hget. cbn. by destruct (platform _ _).
  - unfold Wrapper.startNewSequence, Wrapper.when, Wrapper.invokeNewSequence. eff.
    by rewrite Hseq, Hns, Hget.
Qed.

(** ** The last [catch] *)

Lemma decide_serverless (e : JsError) :
  (exists s, e = Serverless s) \/ (forall s, e <> Serverless s).
Proof. destruct e; try (right; done). left. by eexists. Qed.

Lemma conductorPolicy_unattended kind this :
  unattended this ->
  Wrapper.conductorPolicy kind this = (Returns None, (Seq.activeFn this).2) /\
  unattended (Seq.activeFn this).2 /\
  (Seq.activeFn (Seq.activeFn this).2).2 = (Seq.activeFn this).2.
Proof.
  intros [Hnil|(l1 & a & l2 & Hl & Hcur & Hon)].
  - rewrite (activeFn_empty _ Hnil). cbn [snd]. split_and!.
    + unfold Wrapper.conductorPolicy. eff. by rewrite (activeFn_empty _ Hnil).
    + by left.
    + by rewrite (activeFn_empty _ Hnil).
  - rewrite (activeFn_current _ _ _ _ Hl Hcur). cbn [snd].
    rewrite (conductorPolicy_current _ _ _ _ _ Hl Hcur), Hon. split_and!.
    + done.
    + right. exists l1, (Step.set_status Status.active a), l2. split_and!.
      * done.
      * split; [apply Hcur|by left].
      * done.
    + by rewrite (activeFn_again _ _ _ _ Hcur).
Qed.

Lemma conductorPolicy_outcome kind this :
  (exists this', Wrapper.conductorPolicy kind this = (Returns None, this')) \/
  (exists p this',
      Wrapper.conductorPolicy kind this = (Returns (Some p), this') /\
      kind p = true) \/
  Wrapper.conductorPolicy kind this = (Throws (Error_ NoAssignedStep), this).
Proof.
  destruct (activeFn_cases this)
    as [[Hnil Hact]|[[_ Hact]|(l1 & a & l2 & Hl & Hcur & Hact)]].
  - left. exists this. unfold Wrapper.conductorPolicy. eff. by rewrite Hact.
  - right. right. unfold Wrapper.conductorPolicy. eff. by rewrite Hact.
  - rewrite (conductorPolicy_current _ _ _ _ _ Hl Hcur).
    destruct (Step.onError a) as [p|]; [|left; by eexists].
    destruct (kind p) eqn:Hkind; [|left; by eexists].
    right. left. by eexists _, _.
Qed.

Lemma conductorHandling_unattended e errorOfError w :
  unattended (w_sequence w) ->
  (forall s, errorOfError <> Serverless s) ->
  Wrapper.conductorHandling platform e errorOfError w
  = (Throws (if rethrown errorOfError then RethrowError errorOfError
             else ErrorWithinError e errorOfError),
     mkWorld (Seq.activeFn (w_sequence w)).2 (w_newSequence w) (w_invoked w)).
Proof.
  intros Hun Hnot.
  destruct (conductorPolicy_unattended Wrapper.isFunction _ Hun) as (H1 & Hun' & Hagain).
  destruct (conductorPolicy_unattended Wrapper.Array_isArray _ Hun') as (H2 & _ & _).
  rewrite Hagain in H2.
  unfold Wrapper.conductorHandling, Wrapper.on_sequence.
  destruct errorOfError; try (exfalso; by eapply Hnot); eff;
    rewrite H1; cbn [fst snd w_sequence w_newSequence w_invoked];
    rewrite H2; cbn [fst snd w_sequence w_newSequence w_invoked];
    unfold rethrown; cbn [error_type];
    try done; by destruct (match error_type _ with Some _ => _ | None => _ end).
Qed.

Lemma conductorHandling_serverless e s w :
  Wrapper.conductorHandling platform e (Serverless s) w = (Throws (Serverless s), w).
Proof. done. Qed.

(** What the last [catch] can throw. *)
Lemma conductorHandling_throws e errorOfError w err w' :
  Wrapper.conductorHandling platform e errorOfError w = (Throws err, w') ->
  (exists s, err = Serverless s) \/
  (exists x, err = RethrowError x /\ rethrown x = true) \/
  (exists x, err = ErrorWithinError e x) \/
  err = Error_ NoAssignedStep \/
  (exists arn params, platform arn (ParamsPayload params) = Throws err).
Proof using platform.
  destruct (decide_serverless errorOfError) as [[s ->]|Hnot'].
  { rewrite conductorHandling_serverless. intros [= <- _]. left. by exists s. }
  intros Hthrows.
  assert (Wrapper.conductorHandling platform e errorOfError w
          = (let! conductorErrorHandler :=
               Wrapper.on_sequence (Wrapper.conductorPolicy Wrapper.isFunction) in
             let! forwardedByConductor :=
               Wrapper.on_sequence (Wrapper.conductorPolicy Wrapper.Array_isArray) in
             match forwardedByConductor with
             | Some (OrchestratedErrorForwarder arn params) =>
                 Wrapper.invokeLambda platform arn (ParamsPayload params) ;;;
                 ret (Result JUndefined)
             | _ =>
                 if rethrown errorOfError then throw (RethrowError errorOfError)
                 else throw (ErrorWithinError e errorOfError)
             end) w) as Heq.
  { unfold Wrapper.conductorHandling. by destruct errorOfError; try (exfalso; by eapply Hnot'). }
  rewrite Heq in Hthrows. clear Heq. revert Hthrows.
  unfold Wrapper.on_sequence, Wrapper.invokeLambda. eff.
  destruct (conductorPolicy_outcome Wrapper.isFunction (w_sequence w))
    as [[this1 H1]|[(p1 & this1 & H1 & _)|H1]]; rewrite H1;
    cbn [fst snd w_sequence w_newSequence w_invoked];
    try (intros [= <- _]; do 3 right; by left).
  all: destruct (conductorPolicy_outcome Wrapper.Array_isArray this1)
      as [[this2 H2]|[(p2 & this2 & H2 & Hkind)|H2]]; rewrite H2;
      cbn [fst snd w_sequence w_newSequence w_invoked];
      try (intros [= <- _]; do 3 right; by left).
  all: try (destruct (rethrown errorOfError) eqn:Hre; intros [= <- _];
            [right; left; by eexists|right; right; left; by eexists]).
  all: destruct p2 as [handler|arn params]; [done|].
  all: destruct (platform arn (ParamsPayload params)) eqn:Hplatform; [done|].
  all: intros [= <- _]; do 4 right; by eexists _, _.
Qed.
End wrapper_lemmas.

(** * The claims *)




(** C2, as the code has it.  For a sequence with an active or an assigned
    step, and for the new sequence, [toObject] returns, and deserializing
    what it returns gives the sequence as serialization leaves it: the same
    step list, the same responses, the same [isSequence], [isDone],
    [remaining] and [completed].  Serialization reads [activeFn], so what it
    leaves is the sequence with its first assigned step promoted when no
    step was active, and the sequence itself otherwise. *)
Theorem deserialize_toObject this :
  Exists (fun s => Step.status s = Status.active \/ Step.status s = Status.assigned)
    (_steps this) \/ this = Seq.new ->
  exists s this',
    Seq.toObject this = (Returns s, this') /\
    this' = (Seq.activeFn this).2 /\
    _steps (Seq.deserialize s) = _steps this' /\
    _responses (Seq.deserialize s) = _responses this' /\
    Seq.isSequence (Seq.deserialize s) = Seq.isSequence this' /\
    Seq.isDone (Seq.deserialize s) = Seq.isDone this' /\
    Seq.remaining (Seq.deserialize s) = Seq.remaining this' /\
    Seq.completed (Seq.deserialize s) = Seq.completed this' /\
    (Exists (fun s => Step.status s = Status.active) (_steps this) \/ this = Seq.new ->
     this' = this).
Proof.
  intros [Hlive| ->].
  - destruct (live_current _ Hlive) as (l1 & a & l2 & Hl & Hcur).
    destruct (toObject_current _ _ _ _ Hl Hcur) as (s & Hto & Hde & Hact).
    eexists s, _. split; [exact Hto|]. rewrite Hde, Hact.
    split_and!; try done.
    intros [Hex|Hnew]; [|subst this; by destruct l1].
    destruct (first_with Status.active (_steps this)) as [r|] eqn:Hfirst.
    + rewrite (activeFn_active _ _ Hfirst) in Hact. by injection Hact.
    + apply first_with_None in Hfirst. apply Exists_exists in Hex as (x & Hin & Hx).
      by eapply Forall_forall in Hfirst.
  - eexists _, _. split; [by apply toObject_notASequence|done].
Qed.

Lemma deserialize_toObject_witness :
  let A := Step.mk "A" [] task Status.completed None None in
  let B := Step.mk "B" [] task Status.assigned None None in
  let this := mkSequence [A; B] (<["A" := JNum 1]> ∅) in
  exists s,
    Seq.toObject this
    = (Returns s, mkSequence [A; Step.set_status Status.active B] (<["A" := JNum 1]> ∅))
    /\ Seq.deserialize s
       = mkSequence [A; Step.set_status Status.active B] (<["A" := JNum 1]> ∅).
Proof.
  intros A B this.
  destruct (deserialize_toObject this) as (s & this' & Hto & Hthis' & Hsteps & Hresp & _).
  - left. apply Exists_cons_tl, Exists_cons_hd. right. reflexivity.
  - exists s. assert (this' = mkSequence [A; Step.set_status Status.active B]
                                (<["A" := JNum 1]> ∅)) as Heq.
    { rewrite Hthis'. reflexivity. }
    rewrite <- Heq. split; [exact Hto|].
    destruct (Seq.deserialize s), this'. cbn in Hsteps, Hresp. by subst.
Defined.

(** C2 as stated fails on a sequence whose steps are all completed:
    [toObject] throws, so there is no serialized form; and the first
    serialization of a freshly built sequence changes [isDone]. *)
Lemma toObject_throws_when_all_completed :
  let A := Step.mk "A" [] task Status.completed None None in
  let fresh := Seq.add "A" [] task Seq.new in
  Seq.toObject (mkSequence [A] (<["A" := JNum 1]> ∅))
  = (Throws (Error_ NoAssignedStep), mkSequence [A] (<["A" := JNum 1]> ∅))
  /\ Seq.isDone fresh = false
  /\ exists s, (Seq.toObject fresh).1 = Returns s /\
               Seq.isDone (Seq.deserialize s) = true.
Proof. cbv zeta. split; [reflexivity|]. split; [reflexivity|]. eexists. split; reflexivity. Qed.

(** C3 fails on the code.  The guard of [resolveRequestProperties] compares
    [typeof value], a string, with the value [undefined]; it is never true,
    so a dynamic reference whose lookup finds nothing resolves to
    [undefined] and the error written out in the code is never thrown.
    (Resolution throws only the [TypeError] of [get], when a lookup of the
    step's params meets a [null] on its way.) *)
Theorem missing_reference_resolves_to_undefined this fn key value :
  obj_get key (Step.params fn) = Some value ->
  Seq.isDynamic value = true ->
  get (_responses this) (Seq.lookup_of value) JUndefined = Returns JUndefined ->
  (resolvable (_responses this) (Step.params fn) = true ->
   exists body,
     Seq.resolveRequestProperties fn this = (Returns body, this) /\
     obj_get key body = Some JUndefined) /\
  (resolvable (_responses this) (Step.params fn) = false ->
   Seq.resolveRequestProperties fn this = (Throws NullOnPath, this)) /\
  forall k v,
    Seq.resolveRequestProperties fn this <> (Throws (Error_ (DynamicNotFound k v)), this).
Proof.
  intros Hkey Hdyn Hmiss.
  assert (resolvable (_responses this) (Step.params fn) = true ->
          exists body,
            Seq.resolveRequestProperties fn this = (Returns body, this) /\
            obj_get key body = Some JUndefined) as Hreturns.
  { intros Hres.
    destruct (resolveRequestProperties_returns fn this Hres) as (body & Hbody & Hkeys).
    exists body. split; [done|]. apply fmap_Returns_inv.
    rewrite Hkeys, Hkey. cbn. unfold resolved_value. by rewrite Hdyn, Hmiss. }
  split_and!; [done|apply resolveRequestProperties_throws|].
  intros k v. destruct (resolvable (_responses this) (Step.params fn)) eqn:Hres.
  - destruct (Hreturns eq_refl) as (body & -> & _). done.
  - by rewrite (resolveRequestProperties_throws fn this Hres).
Qed.

Lemma missing_reference_resolves_to_undefined_witness :
  (exists body,
      Seq.resolveRequestProperties Examples.B_dynamic (mkSequence [Examples.B_dynamic] ∅)
      = (Returns body, mkSequence [Examples.B_dynamic] ∅) /\
      obj_get "foo" body = Some JUndefined) /\
  exists request,
    (Seq.next (JObj [])
       (mkSequence [Examples.A_active; Examples.B_waiting] ∅)).1
    = Returns ("B", request) /\
    req_body request = JObj [("foo", JUndefined)].
Proof.
  split.
  - destruct (missing_reference_resolves_to_undefined
                (mkSequence [Examples.B_dynamic] ∅) Examples.B_dynamic "foo"
                (JObj [("lookup", JStr "A.data")])) as [Hreturns _];
      [reflexivity..|].
    exact (Hreturns eq_refl).
  - eexists. split; reflexivity.
Defined.

(** C7 fails on the code.  Nothing reads [onCondition]: in the sequence
    built by [add(A)], [onCondition(fn, B, params)], [add(C)] and started,
    [next] makes B active and returns B for invocation whatever [fn] is,
    also when [fn] answers [false] on every responses map.  ([next] returns
    when the params of B resolve, as params without a dynamic reference do;
    when a lookup meets a [null] it throws the [TypeError] of [get], with B
    active all the same.) *)
Theorem conditional_step_is_activated_unconditionally
    (fn : OrchestratedCondition) arnA arnB arnC paramsB response :
  let built :=
    Seq.add arnC [] task (Seq.onCondition fn arnB paramsB (Seq.add arnA [] task Seq.new)) in
  let started := (Seq.getInvocationParameters built).2 in
  let responses : gmap string JValue :=
    <[arnA := Seq.orDefault response (JObj [])]> ∅ in
  Step.status <$> _steps (Seq.next response started).2
  = [Status.completed; Status.active; Status.assigned] /\
  (resolvable responses paramsB = true ->
   exists request, (Seq.next response started).1 = Returns (arnB, request)) /\
  (resolvable responses paramsB = false ->
   (Seq.next response started).1 = Throws NullOnPath) /\
  (Forall (fun kv => Seq.isDynamic kv.2 = false) paramsB ->
   resolvable responses paramsB = true).
Proof.
  intros built started responses.
  set (A := Step.mk arnA [] task Status.assigned None None).
  set (B := Step.mk arnB paramsB task Status.assigned (Some fn) None).
  set (C := Step.mk arnC [] task Status.assigned None None).
  assert (started = mkSequence [Step.set_status Status.active A; B; C] ∅) as ->.
  { unfold started. rewrite getInvocationParameters_state.
    rewrite (activeFn_current built [] A [B; C]); [done..|].
    split; [constructor|]. right. split_and!; [done|constructor|].
    repeat constructor; discriminate. }
  destruct (next_promotes (mkSequence [Step.set_status Status.active A; B; C] ∅)
              response [] (Step.set_status Status.active A) [B; C]
              [Step.set_status Status.completed A] B [C])
    as (s & _ & Hnext); try done.
  - split; [constructor|by left].
  - repeat constructor; discriminate.
  - repeat constructor; discriminate.
  - cbn [_responses Step.arn Step.set_status A Step.params B] in Hnext.
    fold responses in Hnext. split_and!.
    + destruct (resolvable responses paramsB);
        [destruct Hnext as (body & -> & _)|rewrite Hnext]; done.
    + intros Hres. rewrite Hres in Hnext. destruct Hnext as (body & -> & _).
      by eexists.
    + intros Hres. rewrite Hres in Hnext. by rewrite Hnext.
    + intros Hplain. unfold resolvable. apply forallb_forall.
      intros k Hk%list_elem_of_In.
      destruct (obj_get k paramsB) as [v|] eqn:Hget; cbn; [|done].
      unfold resolved_value.
      assert (Seq.isDynamic v = false) as ->; [|done].
      clear -Hget Hplain. induction paramsB as [|[k0 v0] ps IH]; [done|].
      cbn in Hget. apply Forall_cons in Hplain as [H0 Hps].
      case_decide; [by injection Hget as <-|by apply IH].
Qed.

(** C9 fails on the code.  [resolveRequestProperties] only resolves values
    for which [isDynamic] holds; a string that begins with a colon is set
    into the request as it is, whatever the responses hold.  (Resolution
    returns unless a lookup of another parameter, a dynamic one, meets a
    [null] on its way.) *)
Theorem colon_string_is_not_resolved this fn key path :
  obj_get key (Step.params fn) = Some (JStr (String ":" path)) ->
  (resolvable (_responses this) (Step.params fn) = true ->
   exists body,
     Seq.resolveRequestProperties fn this = (Returns body, this) /\
     obj_get key body = Some (JStr (String ":" path))) /\
  (resolvable (_responses this) (Step.params fn) = false ->
   Seq.resolveRequestProperties fn this = (Throws NullOnPath, this)) /\
  forall body,
    Seq.resolveRequestProperties fn this = (Returns body, this) ->
    obj_get key body = Some (JStr (String ":" path)).
Proof.
  intros Hkey.
  assert (resolvable (_responses this) (Step.params fn) = true ->
          exists body,
            Seq.resolveRequestProperties fn this = (Returns body, this) /\
            obj_get key body = Some (JStr (String ":" path))) as Hreturns.
  { intros Hres.
    destruct (resolveRequestProperties_returns fn this Hres) as (body & Hbody & Hkeys).
    exists body. split; [done|]. apply fmap_Returns_inv. by rewrite Hkeys, Hkey. }
  split_and!; [done|apply resolveRequestProperties_throws|].
  intros body Hbody. destruct (resolvable (_responses this) (Step.params fn)) eqn:Hres.
  - destruct (Hreturns eq_refl) as (body' & Hbody' & Hkey'). congruence.
  - rewrite (resolveRequestProperties_throws fn this Hres) in Hbody. done.
Qed.

Lemma colon_string_is_not_resolved_witness :
  let this := mkSequence [Examples.B_legacy] (<["A" := JObj [("data", JNum 7)]]> ∅) in
  get (_responses this) "A.data" JUndefined = Returns (JNum 7) /\
  (Seq.dynamicProperties this).1 = Returns [("bar", "A.data")] /\
  exists body,
    Seq.resolveRequestProperties Examples.B_legacy this = (Returns body, this) /\
    obj_get "bar" body = Some (JStr ":A.data").
Proof.
  split; [reflexivity|]. split; [reflexivity|].
  destruct (colon_string_is_not_resolved
              (mkSequence [Examples.B_legacy] (<["A" := JObj [("data", JNum 7)]]> ∅))
              Examples.B_legacy "bar" "A.data") as [Hreturns _]; [reflexivity|].
  exact (Hreturns eq_refl).
Defined.

(** C10.  On a sequence without steps [activeFn] returns [undefined] and
    leaves the sequence as it is, so [finishStep] and [next] stop on a
    [TypeError] when they read [arn] of it; a sequence that has steps, none
    of them active or assigned, gets the error of [activeFn] instead. *)
Theorem zero_steps_give_TypeError this results :
  _steps this = [] ->
  Seq.activeFn this = (Returns None, this) /\
  Seq.finishStep results this = (Throws (TypeError "arn"), this) /\
  Seq.next results this = (Throws (TypeError "arn"), this) /\
  forall other,
    _steps other <> [] ->
    Forall (fun s => Step.status s <> Status.active) (_steps other) ->
    Forall (fun s => Step.status s <> Status.assigned) (_steps other) ->
    Seq.finishStep results other = (Throws (Error_ NoAssignedStep), other) /\
    Seq.next results other = (Throws (Error_ NoAssignedStep), other).
Proof.
  intros Hnil.
  assert (forall r, Seq.finishStep r this = (Throws (TypeError "arn"), this)) as Hfin.
  { intros r. unfold Seq.finishStep. eff. by rewrite (activeFn_empty _ Hnil). }
  split_and!; [by apply activeFn_empty|done|by unfold Seq.next, bind; rewrite Hfin|].
  intros other Hne Hact Hasg.
  assert (forall r, Seq.finishStep r other = (Throws (Error_ NoAssignedStep), other))
    as Hfin'.
  { intros r. unfold Seq.finishStep. eff.
    by rewrite activeFn_stuck by (done || by apply first_with_None). }
  split; [done|]. unfold Seq.next, bind. by rewrite Hfin'.
Qed.

Lemma zero_steps_give_TypeError_witness :
  Seq.activeFn Seq.new = (Returns None, Seq.new) /\
  Seq.finishStep (JNum 1) Seq.new = (Throws (TypeError "arn"), Seq.new) /\
  Seq.next (JNum 1) Seq.new = (Throws (TypeError "arn"), Seq.new) /\
  Seq.next (JNum 1) (mkSequence [Examples.A_completed] ∅)
  = (Throws (Error_ NoAssignedStep), mkSequence [Examples.A_completed] ∅).
Proof.
  destruct (zero_steps_give_TypeError Seq.new (JNum 1) eq_refl)
    as (Hactive & Hfinish & Hnext & Hother).
  split_and!; [exact Hactive|exact Hfinish|exact Hnext|].
  apply (Hother (mkSequence [Examples.A_completed] ∅)).
  - discriminate.
  - repeat constructor; discriminate.
  - repeat constructor; discriminate.
Defined.

(** C4, as the code has it.  In every sequence reached from a new one by
    [add], [onCondition], [next], [finishStep], reading [activeFn], and
    [ingestSteps] of step lists that themselves have at most one active
    step, at most one step is active and the four status counts add up to
    the number of steps; and whatever operation comes next, every step
    stays in place with a status that is the same or further on. *)
Theorem reachable_sequence_invariants this :
  reachable at_most_one_active this ->
  count Status.active (_steps this) <= 1 /\
  count Status.completed (_steps this) + count Status.active (_steps this)
  + count Status.assigned (_steps this) + count Status.skipped (_steps this)
  = length (_steps this) /\
  forall op, advances (_steps this) (_steps (exec op this)).
Proof.
  intros Hreach. split_and!.
  - by apply reachable_at_most_one.
  - apply count_total.
  - intros op. apply exec_advances.
Qed.

Lemma reachable_sequence_invariants_witness :
  let this :=
    exec (OpNext (JNum 1))
      (exec OpActiveFn
         (exec (OpIngestSteps JNull [Examples.A_completed; Examples.B_assigned])
            Seq.new)) in
  Step.status <$> _steps this = [Status.completed; Status.completed] /\
  count Status.active (_steps this) <= 1.
Proof.
  intros this. split; [reflexivity|].
  apply (reachable_sequence_invariants this).
  repeat apply reachable_exec; try exact I.
  - apply reachable_new.
  - unfold at_most_one_active. vm_compute. lia.
Defined.

(** C4 as stated fails: [ingestSteps] takes the steps it is given, and a
    list with two active steps leaves a sequence with two active steps. *)
Lemma ingestSteps_two_active :
  ~ (forall this,
        reachable (fun _ => True) this -> count Status.active (_steps this) <= 1).
Proof.
  intros H.
  specialize (H (exec (OpIngestSteps JNull [Examples.A_active; Examples.B_dynamic])
                   Seq.new)).
  assert (count Status.active
            (_steps (exec (OpIngestSteps JNull [Examples.A_active; Examples.B_dynamic])
                       Seq.new)) = 2) as Hcount by reflexivity.
  rewrite Hcount in H.
  enough (2 <= 1) by lia. apply H.
  apply reachable_exec; [apply reachable_new|exact I].
Qed.

Section wrapper_claims.
Context (platform : string -> Payload -> Outcome JValue)
        (JSON_stringify : JValue -> string)
        (getResponseHeaders : IDictionary)
        (sequenceStatus : string -> LambdaSequence -> JValue)
        (getCorrelationId : string)
        (fn : JValue -> IHandlerContext.t -> HandlerRun)
        (options : IWrapperOptions).

Local Abbreviation wrapper :=
  (Wrapper.wrapper platform JSON_stringify getResponseHeaders sequenceStatus
     getCorrelationId fn options).

(** C6.  When the user function throws a [ServerlessError], the wrapper
    throws a [ServerlessError] again, the same but for four fields:
    [functionName] is the platform context's, [correlationId] and
    [awsRequestId] are the handler context's, and in [classification]
    [aws-orchestrate/] is replaced by the function name and a slash (for a
    classification that begins with it, and a function name free of
    dollar signs, the prefix is what changes).  This holds whatever the
    error expectations and the default policy are; nothing is invoked, the
    sequence is not touched, and the error is not wrapped. *)
Theorem serverless_error_is_enriched_and_rethrown event context w found :
  let handlerContext := Wrapper.buildHandlerContext getCorrelationId event context w in
  let run := fn (ev_request event) handlerContext in
  run_outcome run = Throws (Serverless found) ->
  exists thrown w',
    wrapper event context w = (Throws (Serverless thrown), w') /\
    w_invoked w' = w_invoked w /\ w_sequence w' = w_sequence w /\
    ServerlessError.functionName thrown = Some (ctx_functionName context) /\
    ServerlessError.correlationId thrown
    = Some (IHandlerContext.correlationId handlerContext) /\
    ServerlessError.awsRequestId thrown
    = Some (IHandlerContext.awsRequestId handlerContext) /\
    ServerlessError.classification thrown
    = String_replace (ServerlessError.classification found) "aws-orchestrate/"
        (ctx_functionName context +:+ "/") /\
    (forall rest,
        ServerlessError.classification found = "aws-orchestrate/" +:+ rest ->
        dollar_free (ctx_functionName context) = true ->
        ServerlessError.classification thrown
        = (ctx_functionName context +:+ "/") +:+ rest) /\
    ServerlessError.name thrown = ServerlessError.name found /\
    ServerlessError.httpStatus thrown = ServerlessError.httpStatus found /\
    ServerlessError.message thrown = ServerlessError.message found.
Proof.
  intros handlerContext run Hthrows.
  exists (Wrapper.enrich context handlerContext found),
         (Wrapper.registerSequence (run_registered run) w).
  split_and!; try done.
  - wrap. fold handlerContext. fold run. by rewrite Hthrows.
  - unfold Wrapper.registerSequence. by destruct (run_registered run).
  - unfold Wrapper.registerSequence. by destruct (run_registered run).
  - intros rest Hcls Hfree. cbn. rewrite Hcls.
    by apply replace_classification_prefix.
Qed.

(** C8 fails on the code.  Take an invocation outside the gateway whose
    user function throws an error that no expectation matches, under the
    [default] policy, in a sequence whose current step carries [onError].
    If [onError] is a function, the function is never called: the wrapper
    throws a [RethrowError] of the [UnhandledError], whatever the function
    would answer.  If [onError] is the pair of an arn and params, that arn
    is invoked with the params of the pair, the error is not part of what
    is sent, and the wrapper returns [undefined]. *)
Theorem conductor_onError_is_not_given_the_error event context w e l1 a l2 :
  let handlerContext := Wrapper.buildHandlerContext getCorrelationId event context w in
  let run := fn (ev_request event) handlerContext in
  let errorMeta := run_errorMgmt run in
  let promoted :=
    Seq.set_steps (l1 ++ Step.set_status Status.active a :: l2) (w_sequence w) in
  run_outcome run = Throws e ->
  run_registered run = None ->
  (forall found, e <> Serverless found) ->
  ErrorMeta.findError e errorMeta = None ->
  ErrorMeta.defaultHandling errorMeta = ErrorMeta.default ->
  ev_apiGatewayIsLambdaProxyRequest event = false ->
  _steps (w_sequence w) = l1 ++ a :: l2 ->
  is_current l1 a l2 ->
  (forall handler,
      Step.onError a = Some (OrchestratedErrorHandler handler) ->
      wrapper event context w
      = (Throws (RethrowError (UnhandledError (ErrorMeta.defaultErrorCode errorMeta) e)),
         mkWorld promoted (w_newSequence w) (w_invoked w))) /\
  (forall arn params response,
      Step.onError a = Some (OrchestratedErrorForwarder arn params) ->
      platform arn (ParamsPayload params) = Returns response ->
      wrapper event context w
      = (Returns (Result JUndefined),
         mkWorld promoted (w_newSequence w)
           (w_invoked w ++ [(arn, ParamsPayload params)]))).
Proof.
  intros handlerContext run errorMeta promoted Hthrows Hreg Hnot Hfind Hdefault
    Hgateway Hl Hcur.
  assert (forall w1, Wrapper.errorHandling platform JSON_stringify getResponseHeaders
                       context handlerContext errorMeta false JUndefined e w1
                     = (Throws (UnhandledError (ErrorMeta.defaultErrorCode errorMeta) e),
                        w1)) as Hinner.
  { intros w1. unfold Wrapper.errorHandling.
    destruct e; try (by rewrite Hfind, Hdefault). by destruct (Hnot e). }
  assert (is_current l1 (Step.set_status Status.active a) l2) as Hcur'.
  { split; [apply Hcur|by left]. }
  assert (Wrapper.wrapper platform JSON_stringify getResponseHeaders sequenceStatus
            getCorrelationId fn options event context w
          = Wrapper.conductorHandling platform e
              (UnhandledError (ErrorMeta.defaultErrorCode errorMeta) e) w) as ->.
  { unfold Wrapper.wrapper, Wrapper.catch_. fold handlerContext. fold run.
    rewrite Hthrows, Hreg, Hgateway. cbn [Wrapper.registerSequence].
    fold errorMeta. by rewrite Hinner. }
  unfold Wrapper.conductorHandling, Wrapper.on_sequence, Wrapper.invokeLambda. eff.
  rewrite (conductorPolicy_current _ _ _ _ _ Hl Hcur). cbn [fst snd w_sequence].
  rewrite (conductorPolicy_current _ _ l1 (Step.set_status Status.active a) l2)
    by done.
  cbn [Step.onError Step.set_status].
  split.
  - intros handler ->. reflexivity.
  - intros arn params response -> Hplatform. cbn. by rewrite Hplatform.
Qed.

End wrapper_claims.

Lemma serverless_error_is_enriched_and_rethrown_witness :
  exists w',
    Wrapper.wrapper WrapperExamples.platform WrapperExamples.JSON_stringify
      WrapperExamples.headers WrapperExamples.sequenceStatus "c-123"
      (WrapperExamples.throws (Serverless WrapperExamples.nope)
         WrapperExamples.defaultPolicy)
      WrapperExamples.untracked WrapperExamples.event WrapperExamples.context
      WrapperExamples.lastStep
    = (Throws (Serverless
                 (ServerlessError.mk "ServerlessError" 403 "nope"
                    "myHandlerFunction/auth" (Some "myHandlerFunction")
                    (Some "c-123") (Some "1234"))),
       w').
Proof.
  destruct (serverless_error_is_enriched_and_rethrown
              WrapperExamples.platform WrapperExamples.JSON_stringify
              WrapperExamples.headers WrapperExamples.sequenceStatus "c-123"
              (WrapperExamples.throws (Serverless WrapperExamples.nope)
                 WrapperExamples.defaultPolicy)
              WrapperExamples.untracked WrapperExamples.event WrapperExamples.context
              WrapperExamples.lastStep WrapperExamples.nope eq_refl)
    as (thrown & w' & Heq & _ & _ & Hfn & Hcid & Hrid & _ & Hcls & Hname & Hstatus & Hmsg).
  specialize (Hcls "auth" eq_refl eq_refl).
  exists w'. rewrite Heq. f_equal. f_equal.
  destruct thrown. cbn in *. by subst.
Defined.

Lemma conductor_onError_is_not_given_the_error_witness :
  Wrapper.wrapper WrapperExamples.platform WrapperExamples.JSON_stringify
    WrapperExamples.headers WrapperExamples.sequenceStatus "c-123"
    (WrapperExamples.throws WrapperExamples.boom WrapperExamples.defaultPolicy)
    WrapperExamples.untracked WrapperExamples.event WrapperExamples.context
    WrapperExamples.guarded
  = (Throws (RethrowError (UnhandledError 500 WrapperExamples.boom)),
     WrapperExamples.guarded).
Proof.
  destruct (conductor_onError_is_not_given_the_error
              WrapperExamples.platform WrapperExamples.JSON_stringify
              WrapperExamples.headers WrapperExamples.sequenceStatus "c-123"
              (WrapperExamples.throws WrapperExamples.boom WrapperExamples.defaultPolicy)
              WrapperExamples.untracked WrapperExamples.event WrapperExamples.context
              WrapperExamples.guarded WrapperExamples.boom
              [] WrapperExamples.A_onError []) as [Hfunction _].
  - reflexivity.
  - reflexivity.
  - discriminate.
  - reflexivity.
  - reflexivity.
  - reflexivity.
  - reflexivity.
  - split; [constructor|]. left. reflexivity.
  - exact (Hfunction (fun _ => true) eq_refl).
Defined.



(** * Further properties of the sequence *)

Section sequence_extras.
Implicit Types (this : LambdaSequence) (l : list ILambdaSequenceStep).

Lemma live_Exists this :
  Exists live (_steps this) ->
  exists l1 a l2, _steps this = l1 ++ a :: l2 /\ is_current l1 a l2.
Proof. apply live_current. Qed.

Lemma count_completed_finish l1 a l2 :
  is_current l1 a l2 ->
  count Status.completed (l1 ++ Step.set_status Status.completed a :: l2)
  = S (count Status.completed (l1 ++ a :: l2)).
Proof.
  intros [_ Ha]. rewrite !count_app, !count_cons. cbn [Step.status Step.set_status].
  rewrite decide_True by done.
  rewrite decide_False; [lia|]. destruct Ha as [->|[-> _]]; done.
Qed.
End sequence_extras.

(** X1.  Reading [activeFn] a second time gives what the first reading
    gave and changes nothing more: the promotion happens once. *)
Theorem activeFn_read_twice this :
  Seq.activeFn (Seq.activeFn this).2 = Seq.activeFn this.
Proof.
  destruct (activeFn_cases this) as [[_ Hact]|[[_ Hact]|(l1 & a & l2 & _ & Hcur & Hact)]];
    rewrite Hact; cbn [snd]; [done..|].
  by apply activeFn_again.
Qed.

(** X2.  In a sequence with an active or an assigned step, [finishStep]
    returns; it files the results under the arn of one step of the sequence,
    leaving every other response as it was, and it makes exactly one more
    step completed, without adding, removing or renaming a step. *)
Theorem finishStep_completes_one_step this results :
  Exists live (_steps this) ->
  exists a this',
    Seq.finishStep results this = (Returns tt, this') /\
    a ∈ _steps this /\
    _responses this' !! Step.arn a = Some results /\
    (forall k, k <> Step.arn a -> _responses this' !! k = _responses this !! k) /\
    count Status.completed (_steps this')
    = S (count Status.completed (_steps this)) /\
    Step.arn <$> _steps this' = Step.arn <$> _steps this.
Proof.
  intros Hlive. destruct (live_current _ Hlive) as (l1 & a & l2 & Hl & Hcur).
  exists a. eexists. split; [by apply (finishStep_current _ _ l1 a l2)|].
  cbn [_steps _responses]. split_and!.
  - rewrite Hl. apply elem_of_app. right. by left.
  - apply lookup_insert_eq.
  - intros k Hk. by apply lookup_insert_ne.
  - rewrite Hl. by apply count_completed_finish.
  - rewrite Hl, !fmap_app, !fmap_cons. done.
Qed.

Lemma finishStep_completes_one_step_witness :
  exists this',
    Seq.finishStep (JNum 7)
      (mkSequence [Examples.A_completed; Examples.B_assigned] (<["A" := JNum 1]> ∅))
    = (Returns tt, this') /\
    _responses this' !! "B" = Some (JNum 7) /\
    _responses this' !! "A" = Some (JNum 1).
Proof.
  destruct (finishStep_completes_one_step
              (mkSequence [Examples.A_completed; Examples.B_assigned]
                 (<["A" := JNum 1]> ∅)) (JNum 7))
    as (a & this' & Heq & Hin & Hnew & Hold & _).
  - apply Exists_cons_tl, Exists_cons_hd. right. reflexivity.
  - exists this'. split; [exact Heq|].
    assert (this' = mkSequence
                      [Examples.A_completed;
                       Step.set_status Status.completed Examples.B_assigned]
                      (<["B" := JNum 7]> (<["A" := JNum 1]> ∅))) as ->.
    { assert (Seq.finishStep (JNum 7)
                (mkSequence [Examples.A_completed; Examples.B_assigned]
                   (<["A" := JNum 1]> ∅))
              = (Returns tt,
                 mkSequence
                   [Examples.A_completed;
                    Step.set_status Status.completed Examples.B_assigned]
                   (<["B" := JNum 7]> (<["A" := JNum 1]> ∅)))) as Hrun by reflexivity.
      rewrite Hrun in Heq. by injection Heq. }
    split; reflexivity.
Defined.

Section answered.
Implicit Types (this : LambdaSequence) (l : list ILambdaSequenceStep).

Lemma answered_steps this l :
  (forall s, s ∈ _steps this -> Step.status s = Status.completed ->
             exists s', s' ∈ l /\ Step.arn s' = Step.arn s /\
                        Step.status s' = Status.completed) ->
  answered this -> answered (Seq.set_steps l this).
Proof.
  intros Hkeep Hans k Hk. destruct (Hans k Hk) as (s & Hin & Harn & Hst).
  destruct (Hkeep s Hin Hst) as (s' & Hin' & Harn' & Hst').
  exists s'. split_and!; [done|congruence|done].
Qed.

Lemma answered_empty this l :
  _steps this = [] -> answered this -> answered (Seq.set_steps l this).
Proof. intros Hnil. apply answered_steps. intros s Hs. rewrite Hnil in Hs. by inversion Hs. Qed.

Lemma completed_elsewhere l1 a l2 s :
  is_current l1 a l2 -> s ∈ l1 ++ a :: l2 -> Step.status s = Status.completed ->
  forall a', s ∈ l1 ++ a' :: l2.
Proof.
  intros [_ Ha] Hin Hst a'. rewrite !elem_of_app, !elem_of_cons in Hin |- *.
  destruct Hin as [?|[->|?]]; [tauto| |tauto].
  destruct Ha as [Ha|[Ha _]]; congruence.
Qed.

Lemma answered_activeFn this : answered this -> answered (Seq.activeFn this).2.
Proof.
  destruct (activeFn_cases this) as [[_ ->]|[[_ ->]|(l1 & a & l2 & Hl & Hcur & ->)]];
    [done..|].
  apply answered_steps. intros s Hin Hst. exists s. split; [|done].
  rewrite Hl in Hin. by eapply completed_elsewhere.
Qed.

Lemma answered_finishStep this results :
  answered this -> answered (Seq.finishStep results this).2.
Proof.
  destruct (finishStep_cases this results) as [->|(l1 & a & l2 & Hl & Hcur & ->)];
    [done|].
  intros Hans k Hk. cbn [snd _steps _responses] in *.
  destruct (decide (k = Step.arn a)) as [->|Hne].
  - exists (Step.set_status Status.completed a). split; [|done].
    apply elem_of_app. right. by left.
  - rewrite lookup_insert_ne in Hk by done.
    destruct (Hans k Hk) as (s & Hin & Harn & Hst).
    exists s. split; [|done]. rewrite Hl in Hin. by eapply completed_elsewhere.
Qed.

Lemma answered_next this currentFnResponse :
  answered this -> answered (Seq.next currentFnResponse this).2.
Proof.
  intros Hans. set (results := Seq.orDefault currentFnResponse (JObj [])).
  assert ((Seq.next currentFnResponse this).2 = (Seq.finishStep results this).2
          \/ (Seq.next currentFnResponse this).2
             = (Seq.activeFn (Seq.finishStep results this).2).2) as [->| ->].
  { unfold Seq.next, bind. fold results.
    destruct (Seq.finishStep results this) as [[[]|e] this1]; [right|by left].
    apply getInvocationParameters_state. }
  - by apply answered_finishStep.
  - by apply answered_activeFn, answered_finishStep.
Qed.

Lemma answered_ingestSteps this request steps :
  answered this -> answered (Seq.ingestSteps request steps this).2.
Proof.
  destruct (ingestSteps_cases this request steps)
    as [->|[Hnil [->|(l1 & a & l2 & g & Hl & Hcur & Hg & ->)]]];
    [done|by apply answered_empty..].
Qed.

Lemma answered_append this s :
  answered this -> answered (Seq.set_steps (_steps this ++ [s]) this).
Proof.
  apply answered_steps. intros s' Hin Hst. exists s'. split; [|done].
  apply elem_of_app. by left.
Qed.

Lemma answered_exec op this : answered this -> answered (exec op this).
Proof.
  destruct op; cbn [exec].
  - apply answered_append.
  - apply answered_append.
  - apply answered_ingestSteps.
  - apply answered_next.
  - apply answered_finishStep.
  - apply answered_activeFn.
Qed.
End answered.

(** X3.  In every sequence reached from a new one by [add], [onCondition],
    [ingestSteps] (of any step list), [next], [finishStep] and reading
    [activeFn], each key of the responses dictionary is the arn of a
    completed step: only completing a step writes a response. *)
Theorem responses_belong_to_completed_steps this :
  reachable (fun _ => True) this ->
  forall k, is_Some (_responses this !! k) ->
    exists s, s ∈ _steps this /\ Step.arn s = k /\ Step.status s = Status.completed.
Proof.
  induction 1 as [|op this Hreach IH Hop].
  - intros k [v Hk]. cbn in Hk. by rewrite lookup_empty in Hk.
  - by apply answered_exec.
Qed.

Lemma responses_belong_to_completed_steps_witness :
  let this :=
    exec (OpNext (JNum 1))
      (exec (OpIngestSteps JNull [Examples.A_active; Examples.B_assigned]) Seq.new) in
  _responses this !! "A" = Some (JNum 1) /\
  exists s, s ∈ _steps this /\ Step.arn s = "A" /\ Step.status s = Status.completed.
Proof.
  intros this. split; [reflexivity|].
  apply (responses_belong_to_completed_steps this).
  - repeat apply reachable_exec; try exact I. apply reachable_new.
  - exists (JNum 1). reflexivity.
Defined.

Section built_lemmas.
Implicit Types (this : LambdaSequence) (l : list ILambdaSequenceStep).

Lemma built_fresh this :
  built this ->
  Forall (fun s => Step.status s = Status.assigned) (_steps this) /\
  _responses this = ∅.
Proof.
  induction 1 as [|arn params type this _ [IH1 IH2]|fn arn params this _ [IH1 IH2]];
    cbn; (split; [|done]).
  - constructor.
  - apply Forall_app. split; [done|]. by repeat constructor.
  - apply Forall_app. split; [done|]. by repeat constructor.
Qed.

Lemma get_empty dotPath defaultValue :
  get ∅ dotPath defaultValue = Returns defaultValue.
Proof.
  unfold get. destruct (split_on "." dotPath) as [|p ps]; [done|].
  rewrite lookup_empty. cbn [default from_option].
  assert (fold_left get_segment ps (Returns JUndefined) = Returns JUndefined)
    as ->; [|done].
  induction ps as [|q ps IH]; [done|]. cbn [fold_left]. apply IH.
Qed.

Lemma resolvable_empty params : resolvable ∅ params = true.
Proof.
  unfold resolvable. apply forallb_forall. intros k _.
  unfold resolved_value. destruct (Seq.isDynamic _); [|done]. by rewrite get_empty.
Qed.

Lemma assigned_not_active l :
  Forall (fun s => Step.status s = Status.assigned) l ->
  Forall (fun s => Step.status s <> Status.active) l.
Proof. intros H. eapply Forall_impl; [exact H|]. by intros s ->. Qed.
End built_lemmas.

(** X4.  Starting a sequence the conductor has built with [add] and
    [onCondition]: [getInvocationParameters] (the body of [start]) returns
    the arn of the step added first and makes that step active, the others
    staying assigned and no response being recorded; in the request body
    every static parameter of that step is passed as it is, and every
    dynamic reference is [undefined], there being no response yet. *)
Theorem start_invokes_the_first_added_step this first rest :
  built this ->
  _steps this = first :: rest ->
  exists body s,
    Seq.getInvocationParameters this
    = (Returns (Step.arn first, mkRequest (JObj body) (Some s)),
       mkSequence (Step.set_status Status.active first :: rest) ∅) /\
    Forall (fun s => Step.status s = Status.assigned) rest /\
    forall k, obj_get k body
              = (fun v => if Seq.isDynamic v then JUndefined else v)
                  <$> obj_get k (Step.params first).
Proof.
  intros Hbuilt Hl. destruct (built_fresh _ Hbuilt) as [Hassigned Hresp].
  rewrite Hl in Hassigned. inversion Hassigned as [|? ? Hfirst Hrest]; subst.
  destruct (getInvocationParameters_current this [] first rest)
    as (s & _ & Hget).
  { done. }
  { split; [constructor|]. right. split_and!; [done|constructor|].
    by apply assigned_not_active. }
  rewrite Hresp, resolvable_empty in Hget. destruct Hget as (body & Hget & Hkeys).
  exists body, s. split_and!; [|done|].
  - rewrite Hget. cbn. unfold Seq.set_steps. by rewrite Hresp.
  - intros k. specialize (Hkeys k).
    destruct (obj_get k (Step.params first)) as [v|]; cbn in Hkeys |- *.
    + apply fmap_Returns_inv. rewrite Hkeys. unfold resolved_value.
      destruct (Seq.isDynamic v); [by rewrite get_empty|done].
    + by destruct (obj_get k body).
Qed.

Lemma start_invokes_the_first_added_step_witness :
  exists body s,
    Seq.getInvocationParameters
      (Seq.add "B" [("foo", JObj [("lookup", JStr "A.data")])] task
         (Seq.add "A" [("n", JNum 3)] task Seq.new))
    = (Returns ("A", mkRequest (JObj body) (Some s)),
       mkSequence
         [Step.mk "A" [("n", JNum 3)] task Status.active None None;
          Examples.B_waiting] ∅) /\
    obj_get "n" body = Some (JNum 3).
Proof.
  destruct (start_invokes_the_first_added_step
              (Seq.add "B" [("foo", JObj [("lookup", JStr "A.data")])] task
                 (Seq.add "A" [("n", JNum 3)] task Seq.new))
              (Step.mk "A" [("n", JNum 3)] task Status.assigned None None)
              [Examples.B_waiting]) as (body & s & Heq & _ & Hkeys).
  - apply built_add, built_add, built_new.
  - reflexivity.
  - exists body, s. split; [exact Heq|]. rewrite Hkeys. reflexivity.
Defined.

(** X5.  What [ingestSteps] refuses.  Into a sequence that has steps it
    throws and changes nothing.  Into an empty sequence, a step list with no
    active and no assigned step makes it throw the error of [activeFn], the
    list being installed all the same; the empty list is accepted and leaves
    a sequence without steps. *)
Theorem ingestSteps_refusals this request steps :
  (_steps this <> [] ->
   Seq.ingestSteps request steps this = (Throws (Error_ IngestIntoExisting), this)) /\
  (_steps this = [] -> steps <> [] -> ~ Exists live steps ->
   Seq.ingestSteps request steps this
   = (Throws (Error_ NoAssignedStep), Seq.set_steps steps this)) /\
  (_steps this = [] -> steps = [] ->
   Seq.ingestSteps request steps this = (Returns tt, this)).
Proof.
  split_and!.
  - intros Hne. unfold Seq.ingestSteps. eff.
    rewrite bool_decide_eq_true_2; [done|]. destruct (_steps this); [done|cbn; lia].
  - intros Hnil Hne Hdead. unfold Seq.ingestSteps. eff.
    rewrite Hnil. cbn [length]. rewrite bool_decide_eq_false_2 by lia.
    destruct (not_live_None (Seq.set_steps steps this) Hdead) as [Hact Hasg].
    by rewrite activeFn_stuck.
  - intros Hnil ->. unfold Seq.ingestSteps. eff.
    rewrite Hnil. cbn [length]. rewrite bool_decide_eq_false_2 by lia.
    rewrite activeFn_empty by done. cbn.
    destruct this as [l r]. cbn in Hnil. by subst.
Qed.

Lemma ingestSteps_refusals_witness :
  Seq.ingestSteps JNull [Examples.B_assigned] (mkSequence [Examples.A_active] ∅)
  = (Throws (Error_ IngestIntoExisting), mkSequence [Examples.A_active] ∅) /\
  Seq.ingestSteps JNull [Examples.A_completed] Seq.new
  = (Throws (Error_ NoAssignedStep), mkSequence [Examples.A_completed] ∅) /\
  Seq.ingestSteps JNull [] Seq.new = (Returns tt, Seq.new).
Proof.
  destruct (ingestSteps_refusals (mkSequence [Examples.A_active] ∅) JNull
              [Examples.B_assigned]) as [Hhas _].
  destruct (ingestSteps_refusals Seq.new JNull [Examples.A_completed]) as (_ & Hdead & _).
  destruct (ingestSteps_refusals Seq.new JNull []) as (_ & _ & Hnone).
  split_and!.
  - apply Hhas. discriminate.
  - apply Hdead; [reflexivity|discriminate|].
    intros Hex. apply Exists_cons in Hex as [[Hs|Hs]|Hex]; [discriminate..|].
    by apply Exists_nil in Hex.
  - by apply Hnone.
Defined.

(** * Unboxing *)

Section object_keys.
Implicit Types (o base src : IDictionary) (k : string).

Lemma Object_keys_set k v o :
  Object_keys (obj_set k v o)
  = if decide (k ∈ Object_keys o) then Object_keys o else Object_keys o ++ [k].
Proof.
  unfold Object_keys. induction o as [|[k0 v0] o IH]; cbn.
  - rewrite decide_False; [done|apply not_elem_of_nil].
  - destruct (decide (k = k0)) as [->|Hne]; cbn.
    + rewrite decide_True; [done|by left].
    + rewrite IH. destruct (decide (k ∈ o.*1)) as [Hin|Hnin].
      * rewrite decide_True; [done|by right].
      * rewrite decide_False; [done|]. by intros [?|?]%elem_of_cons.
Qed.

Lemma NoDup_set k v o : NoDup (Object_keys o) -> NoDup (Object_keys (obj_set k v o)).
Proof.
  intros Hnd. rewrite Object_keys_set. case_decide; [done|].
  apply NoDup_app. split_and!; [done| |apply NoDup_singleton].
  intros x Hx Hk%list_elem_of_singleton. by subst.
Qed.

Lemma obj_set_fresh k v o : k ∉ Object_keys o -> obj_set k v o = o ++ [(k, v)].
Proof.
  unfold Object_keys. induction o as [|[k0 v0] o IH]; [done|]. cbn.
  intros [Hne Hnin]%not_elem_of_cons. rewrite decide_False by done. by rewrite IH.
Qed.

(** Spreading an object into the empty object copies it. *)
Lemma spread_copy base src :
  NoDup (Object_keys base ++ Object_keys src) -> spread base src = base ++ src.
Proof.
  unfold spread. revert base. induction src as [|[k0 v0] src IH]; intros base Hnd.
  - by rewrite app_nil_r.
  - cbn [fold_left fst snd].
    unfold Object_keys in Hnd. cbn in Hnd.
    assert (k0 ∉ Object_keys base) as Hfresh.
    { apply NoDup_app in Hnd as (_ & Hdis & _). intros Hin.
      apply (Hdis k0 Hin). by left. }
    rewrite obj_set_fresh by done. rewrite IH.
    + by rewrite <- app_assoc.
    + unfold Object_keys. rewrite fmap_app. cbn. rewrite <- app_assoc. done.
Qed.

Lemma spread_empty src : NoDup (Object_keys src) -> spread [] src = src.
Proof. intros Hnd. by rewrite spread_copy. Qed.

Lemma NoDup_fold_set (f : string -> JValue) (c : string -> bool) keys init :
  NoDup (Object_keys init) ->
  NoDup (Object_keys
           (fold_left (fun props key => if c key then obj_set key (f key) props
                                        else props) keys init)).
Proof.
  revert init. induction keys as [|k ks IH]; intros init Hnd; [done|].
  cbn [fold_left]. apply IH. destruct (c k); [by apply NoDup_set|done].
Qed.

Lemma obj_get_fold_set_if (f : string -> JValue) (c : string -> bool) keys init k :
  obj_get k (fold_left (fun props key => if c key then obj_set key (f key) props
                                         else props) keys init)
  = if decide (k ∈ keys /\ c k = true) then Some (f k) else obj_get k init.
Proof.
  revert init. induction keys as [|k0 ks IH]; intros init; cbn [fold_left].
  - rewrite decide_False; [done|]. intros [Hin _]. by apply not_elem_of_nil in Hin.
  - rewrite IH. destruct (decide (k ∈ ks /\ c k = true)) as [[Hin Hc]|Hnot].
    + rewrite decide_True; [done|]. split; [by right|done].
    + destruct (decide (k = k0)) as [->|Hne].
      * destruct (c k0) eqn:Hc.
        -- rewrite obj_get_set, decide_True by done.
           rewrite decide_True; [done|]. split; [by left|done].
        -- rewrite decide_False; [done|]. intros [_ ?]. done.
      * assert (obj_get k (if c k0 then obj_set k0 (f k0) init else init)
                = obj_get k init) as ->.
        { destruct (c k0); [|done]. by rewrite obj_get_set, decide_False. }
        rewrite decide_False; [done|].
        intros [[?|?]%elem_of_cons Hc]; [done|]. apply Hnot. done.
Qed.

Lemma obj_get_delete k k' o :
  obj_get k (obj_delete k' o) = if decide (k = k') then None else obj_get k o.
Proof.
  unfold obj_delete. induction o as [|[k0 v0] o IH].
  - cbn. by case_decide.
  - rewrite filter_cons. cbn [fst]. destruct (decide (k0 <> k')) as [Hne|Heq].
    + cbn [obj_get]. rewrite IH. repeat case_decide; congruence.
    + apply dec_stable in Heq. subst k0. rewrite IH. cbn [obj_get].
      repeat case_decide; congruence.
Qed.

Lemma resolve_NoDup this fn body this' :
  Seq.resolveRequestProperties fn this = (Returns body, this') ->
  NoDup (Object_keys body).
Proof.
  unfold Seq.resolveRequestProperties. rewrite reduce_resolve.
  destruct (forallb _ _); [|done]. intros [= <- _].
  apply (NoDup_fold_set
           (fun key => match resolved_value (_responses this)
                               (default JUndefined (obj_get key (Step.params fn))) with
                       | Returns v => v
                       | Throws _ => JUndefined
                       end)
           (fun _ => true)).
  constructor.
Qed.
End object_keys.

Section spread_lemmas.
Implicit Types (o base src : IDictionary) (k : string).

Lemma obj_get_spread base src k :
  NoDup (Object_keys src) ->
  obj_get k (spread base src)
  = match obj_get k src with Some v => Some v | None => obj_get k base end.
Proof.
  unfold spread, Object_keys. revert base.
  induction src as [|[k0 v0] src IH]; intros base Hnd; [done|].
  cbn [fold_left fst snd fmap list_fmap] in *.
  apply NoDup_cons in Hnd as [Hk0 Hnd].
  rewrite IH by done. cbn [obj_get].
  destruct (decide (k = k0)) as [->|Hne].
  - apply obj_get_None in Hk0. rewrite Hk0, obj_get_set. by rewrite decide_True.
  - rewrite obj_get_set, decide_False by done. done.
Qed.
End spread_lemmas.

Section ingest.
Implicit Types (this : LambdaSequence) (l : list ILambdaSequenceStep).

Lemma ingestSteps_current this request l1 a l2 :
  _steps this = [] ->
  is_current l1 a l2 ->
  Seq.ingestSteps request (l1 ++ a :: l2) this
  = (Returns tt,
     mkSequence (merge_into request a
                   <$> (l1 ++ Step.set_status Status.active a :: l2))
       (_responses this)).
Proof.
  intros Hnil Hcur.
  unfold Seq.ingestSteps. eff.
  rewrite Hnil. cbn [length]. rewrite bool_decide_eq_false_2 by lia.
  rewrite (activeFn_current (Seq.set_steps (l1 ++ a :: l2) this) l1 a l2) by done.
  pose proof (activeFn_again (Seq.set_steps (l1 ++ a :: l2) this) _ _ _ Hcur) as Hagain.
  cbn zeta in Hagain. rewrite !Hagain.
  cbn [snd Step.params Step.set_status].
  rewrite (mapM_eff_pure _ (merge_into request a)).
  2:{ intros x. by rewrite !Hagain. }
  done.
Qed.

Lemma obj_get_merged request a k :
  NoDup (Object_keys (own_props request)) ->
  obj_get k (merged_params request a)
  = if bool_decide (js_typeof request = "object")
    then match obj_get k (own_props request) with
         | Some v => Some v
         | None => obj_get k (Step.params a)
         end
    else if bool_decide (k = "request") then Some request
         else obj_get k (Step.params a).
Proof.
  intros Hnd. unfold merged_params. case_bool_decide.
  - by apply obj_get_spread.
  - rewrite obj_get_spread by (repeat constructor; set_solver).
    cbn [obj_get]. by repeat case_decide; case_bool_decide.
Qed.
End ingest.

(** X6.  What [ingestSteps] installs in an empty sequence, given a request
    and a step list whose current step is [a]: the list itself, with [a]
    made active and, in [a] and in every other step that has the arn of
    [a], the params replaced by the params of [a] overlaid with the request
    (the request wins on a common key; a request that is not an object goes
    in under the key [request]).  Steps with another arn are untouched. *)
Theorem ingestSteps_merges_the_request this request l1 a l2 :
  _steps this = [] ->
  is_current l1 a l2 ->
  NoDup (Object_keys (own_props request)) ->
  exists merged,
    Seq.ingestSteps request (l1 ++ a :: l2) this
    = (Returns tt,
       mkSequence
         ((fun s => if bool_decide (Step.arn s = Step.arn a)
                    then Step.set_params merged s else s)
            <$> (l1 ++ Step.set_status Status.active a :: l2))
         (_responses this)) /\
    forall k,
      obj_get k merged
      = if bool_decide (js_typeof request = "object")
        then match obj_get k (own_props request) with
             | Some v => Some v
             | None => obj_get k (Step.params a)
             end
        else if bool_decide (k = "request") then Some request
             else obj_get k (Step.params a).
Proof.
  intros Hnil Hcur Hnd. exists (merged_params request a). split.
  - by apply ingestSteps_current.
  - intros k. by apply obj_get_merged.
Qed.

Lemma ingestSteps_merges_the_request_witness :
  exists merged,
    Seq.ingestSteps (JObj [("n", JNum 5); ("m", JNum 1)])
      [Step.mk "A" [("n", JNum 3); ("p", JNum 2)] task Status.assigned None None;
       Examples.B_assigned] Seq.new
    = (Returns tt,
       mkSequence
         [Step.mk "A" merged task Status.active None None; Examples.B_assigned] ∅) /\
    obj_get "n" merged = Some (JNum 5) /\
    obj_get "p" merged = Some (JNum 2) /\
    obj_get "m" merged = Some (JNum 1).
Proof.
  destruct (ingestSteps_merges_the_request Seq.new
              (JObj [("n", JNum 5); ("m", JNum 1)]) []
              (Step.mk "A" [("n", JNum 3); ("p", JNum 2)] task Status.assigned None None)
              [Examples.B_assigned]) as (merged & Heq & Hkeys).
  - reflexivity.
  - split; [constructor|]. right. split_and!; [done|constructor|].
    repeat constructor; discriminate.
  - apply (bool_decide_unpack _). reflexivity.
  - exists merged. split; [exact Heq|]. rewrite !Hkeys. split_and!; reflexivity.
Defined.

Section paths.
Lemma split_on_dot_free s : dot_free s = true -> split_on "." s = [s].
Proof.
  induction s as [|c s IH]; [done|]. cbn [dot_free split_on].
  intros [Hc Hs]%andb_true_iff. apply negb_true_iff, bool_decide_eq_false in Hc.
  rewrite decide_False by done. by rewrite IH.
Qed.

Lemma split_on_dot s t :
  dot_free s = true -> split_on "." (s +:+ "." +:+ t) = s :: split_on "." t.
Proof.
  induction s as [|c s IH].
  - intros _. change ("" +:+ "." +:+ t) with (String "." t). cbn [split_on].
    by rewrite decide_True.
  - cbn [dot_free]. intros [Hc Hs]%andb_true_iff.
    apply negb_true_iff, bool_decide_eq_false in Hc.
    change (String c s +:+ "." +:+ t) with (String c (s +:+ "." +:+ t)).
    cbn [split_on]. rewrite decide_False by done. by rewrite IH.
Qed.

Lemma get_response (responses : gmap string JValue) stepId response :
  dot_free stepId = true -> truthy response = true ->
  get (<[stepId := response]> responses) stepId JUndefined = Returns response.
Proof.
  intros Hfree Htruthy. unfold get. rewrite split_on_dot_free by done.
  rewrite lookup_insert_eq. cbn. by rewrite Htruthy.
Qed.

Lemma get_response_property (responses : gmap string JValue) stepId prop response v :
  dot_free stepId = true -> dot_free prop = true ->
  obj_get prop (own_props response) = Some v -> truthy v = true ->
  get (<[stepId := response]> responses) (stepId +:+ "." +:+ prop) JUndefined
  = Returns v.
Proof.
  intros Hs Hp Hv Htruthy. unfold get.
  rewrite split_on_dot, split_on_dot_free by done.
  rewrite lookup_insert_eq. cbn [default from_option fold_left id get_segment].
  assert (prop_get response prop = v) as Hprop.
  { unfold prop_get. by rewrite Hv. }
  destruct response; try done; cbn [js_typeof];
    rewrite (bool_decide_eq_true_2 _ eq_refl), Hprop; by rewrite Htruthy.
Qed.
End paths.

(** X7.  A response is found by the step that comes next.  When [next]
    completes step [a] with a response and promotes step [b], whose params
    all resolve, a parameter of [b] that is a dynamic reference to a
    property of [a] (lookup [arn.property], neither part holding a dot) is,
    in the request body, the value of that property in the response; a
    reference to [a] alone (lookup [arn]) is the response itself.  The
    values are taken truthy: [get] gives the default, [undefined], for every
    other value it finds. *)
Theorem next_resolves_references_to_the_response
    this response l1 a l2 m1 b m2 key value :
  _steps this = l1 ++ a :: l2 ->
  is_current l1 a l2 ->
  Forall (fun s => Step.status s <> Status.active) l2 ->
  l1 ++ Step.set_status Status.completed a :: l2 = m1 ++ b :: m2 ->
  Forall (fun s => Step.status s <> Status.assigned) m1 ->
  Step.status b = Status.assigned ->
  obj_get key (Step.params b) = Some value ->
  Seq.isDynamic value = true ->
  dot_free (Step.arn a) = true ->
  truthy response = true ->
  resolvable (<[Step.arn a := response]> (_responses this)) (Step.params b) = true ->
  exists body s this',
    Seq.next response this
    = (Returns (Step.arn b, mkRequest (JObj body) (Some s)), this') /\
    (Seq.lookup_of value = Step.arn a -> obj_get key body = Some response) /\
    (forall prop v,
        Seq.lookup_of value = Step.arn a +:+ "." +:+ prop ->
        dot_free prop = true ->
        obj_get prop (own_props response) = Some v -> truthy v = true ->
        obj_get key body = Some v).
Proof.
  intros Hl Hcur Hl2 Hfin Hm1 Hb Hkey Hdyn Hfree Htruthy Hres.
  destruct (next_promotes this response l1 a l2 m1 b m2 Hl Hcur Hl2 Hfin Hm1 Hb)
    as (s & _ & Hnext).
  assert (Seq.orDefault response (JObj []) = response) as Hsame by (by destruct response).
  rewrite Hsame, Hres in Hnext. destruct Hnext as (body & Heq & Hkeys).
  exists body, s. eexists. split; [exact Heq|]. split.
  - intros Hlookup. apply fmap_Returns_inv. rewrite Hkeys, Hkey. cbn.
    unfold resolved_value. rewrite Hdyn, Hlookup. by rewrite get_response.
  - intros prop v Hlookup Hprop Hv Hv'. apply fmap_Returns_inv.
    rewrite Hkeys, Hkey. cbn. unfold resolved_value.
    rewrite Hdyn, Hlookup. by erewrite get_response_property.
Qed.

Lemma next_resolves_references_to_the_response_witness :
  exists body s this',
    Seq.next (JObj [("data", JNum 7)])
      (mkSequence [Examples.A_active; Examples.B_waiting] ∅)
    = (Returns ("B", mkRequest (JObj body) (Some s)), this') /\
    obj_get "foo" body = Some (JNum 7).
Proof.
  destruct (next_resolves_references_to_the_response
              (mkSequence [Examples.A_active; Examples.B_waiting] ∅)
              (JObj [("data", JNum 7)]) [] Examples.A_active [Examples.B_waiting]
              [Examples.A_completed] Examples.B_waiting [] "foo"
              (JObj [("lookup", JStr "A.data")]))
    as (body & s & this' & Heq & _ & Hprop).
  - reflexivity.
  - split; [constructor|]. by left.
  - repeat constructor; discriminate.
  - reflexivity.
  - repeat constructor; discriminate.
  - reflexivity.
  - reflexivity.
  - reflexivity.
  - reflexivity.
  - reflexivity.
  - reflexivity.
  - exists body, s, this'. split; [exact Heq|].
    apply (Hprop "data" (JNum 7)); reflexivity.
Defined.

Section plain.
Implicit Types (this : LambdaSequence) (l : list ILambdaSequenceStep).

Lemma plain_middle l1 a a' l2 :
  Step.onError a' = Step.onError a -> plain (l1 ++ a :: l2) -> plain (l1 ++ a' :: l2).
Proof.
  unfold plain. rewrite !Forall_app, !Forall_cons. intros ->. tauto.
Qed.

Lemma plain_activeFn this : plain (_steps this) -> plain (_steps (Seq.activeFn this).2).
Proof.
  destruct (activeFn_cases this) as [[_ ->]|[[_ ->]|(l1 & a & l2 & Hl & Hcur & ->)]];
    [done..|].
  rewrite Hl. by apply plain_middle.
Qed.

Lemma plain_finishStep this results :
  plain (_steps this) -> plain (_steps (Seq.finishStep results this).2).
Proof.
  destruct (finishStep_cases this results) as [->|(l1 & a & l2 & Hl & Hcur & ->)];
    [done|].
  rewrite Hl. by apply plain_middle.
Qed.

Lemma plain_next this currentFnResponse :
  plain (_steps this) -> plain (_steps (Seq.next currentFnResponse this).2).
Proof.
  intros Hplain. set (results := Seq.orDefault currentFnResponse (JObj [])).
  assert ((Seq.next currentFnResponse this).2 = (Seq.finishStep results this).2
          \/ (Seq.next currentFnResponse this).2
             = (Seq.activeFn (Seq.finishStep results this).2).2) as [->| ->].
  { unfold Seq.next, bind. fold results.
    destruct (Seq.finishStep results this) as [[[]|e] this1]; [right|by left].
    apply getInvocationParameters_state. }
  - by apply plain_finishStep.
  - by apply plain_activeFn, plain_finishStep.
Qed.

Lemma plain_ingestSteps this request steps :
  plain steps -> plain (_steps this) ->
  plain (_steps (Seq.ingestSteps request steps this).2).
Proof.
  intros Hsteps Hthis.
  destruct (ingestSteps_cases this request steps)
    as [->|[Hnil [->|(l1 & a & l2 & g & Hl & Hcur & _ & _)]]]; [done| done|].
  subst steps. rewrite (ingestSteps_current _ _ _ _ _ Hnil Hcur). cbn [snd _steps].
  apply Forall_fmap. eapply Forall_impl.
  - eapply plain_middle; [|exact Hsteps]. done.
  - intros s Hs. unfold compose, merge_into. by case_bool_decide.
Qed.

Lemma plain_append l s : Step.onError s = None -> plain l -> plain (l ++ [s]).
Proof. intros Hs Hl. apply Forall_app. split; [done|]. by constructor. Qed.

Lemma plain_exec op this :
  match op with OpIngestSteps _ steps => plain steps | _ => True end ->
  plain (_steps this) -> plain (_steps (exec op this)).
Proof.
  destruct op; cbn [exec]; intros Hop.
  - by apply plain_append.
  - by apply plain_append.
  - by apply plain_ingestSteps.
  - apply plain_next.
  - apply plain_finishStep.
  - apply plain_activeFn.
Qed.

Lemma conductorPolicy_plain kind this :
  plain (_steps this) ->
  Wrapper.conductorPolicy kind this = (Returns None, (Seq.activeFn this).2) \/
  Wrapper.conductorPolicy kind this = (Throws (Error_ NoAssignedStep), this).
Proof.
  intros Hplain.
  destruct (activeFn_cases this)
    as [[Hnil Hact]|[[_ Hact]|(l1 & a & l2 & Hl & Hcur & Hact)]].
  - left. unfold Wrapper.conductorPolicy. eff. by rewrite Hact.
  - right. unfold Wrapper.conductorPolicy. eff. by rewrite Hact.
  - left. rewrite (conductorPolicy_current _ _ _ _ _ Hl Hcur), Hact.
    rewrite Hl in Hplain. apply Forall_app in Hplain as [_ Ha].
    apply Forall_cons in Ha as [-> _]. done.
Qed.
End plain.

(** X24.  No operation of the class attaches an [onError] to a step.  In
    every sequence reached from a new one by [add], [onCondition], [next],
    [finishStep], reading [activeFn], and [ingestSteps] of step lists that
    carry none, no step carries an [onError], also after [onError] has been
    called on it; so the conductor's policy that the wrapper reads off the
    sequence when an error is left over is never a handler and never a
    forwarding. *)
Theorem no_operation_attaches_onError this policy :
  reachable plain this ->
  plain (_steps (Seq.onError policy this)) /\
  forall kind,
    Wrapper.conductorPolicy kind (Seq.onError policy this)
    = (Returns None, (Seq.activeFn this).2) \/
    Wrapper.conductorPolicy kind (Seq.onError policy this)
    = (Throws (Error_ NoAssignedStep), this).
Proof.
  intros Hreach.
  assert (plain (_steps this)) as Hplain.
  { induction Hreach as [|op this Hreach IH Hop]; [constructor|].
    by apply plain_exec. }
  split; [done|]. intros kind. by apply conductorPolicy_plain.
Qed.

Lemma no_operation_attaches_onError_witness :
  plain (_steps (Seq.onError (OrchestratedErrorHandler (fun _ => true))
                   (exec (OpNext (JNum 1))
                      (exec (OpAdd "B" [] task)
                         (exec OpActiveFn (exec (OpAdd "A" [] task) Seq.new)))))) /\
  forall kind,
    Wrapper.conductorPolicy kind
      (Seq.onError (OrchestratedErrorHandler (fun _ => true))
         (exec (OpNext (JNum 1))
            (exec (OpAdd "B" [] task)
               (exec OpActiveFn (exec (OpAdd "A" [] task) Seq.new)))))
    = (Returns None,
       (Seq.activeFn
          (exec (OpNext (JNum 1))
             (exec (OpAdd "B" [] task)
                (exec OpActiveFn (exec (OpAdd "A" [] task) Seq.new))))).2) \/
    Wrapper.conductorPolicy kind
      (Seq.onError (OrchestratedErrorHandler (fun _ => true))
         (exec (OpNext (JNum 1))
            (exec (OpAdd "B" [] task)
               (exec OpActiveFn (exec (OpAdd "A" [] task) Seq.new)))))
    = (Throws (Error_ NoAssignedStep),
       exec (OpNext (JNum 1))
         (exec (OpAdd "B" [] task)
            (exec OpActiveFn (exec (OpAdd "A" [] task) Seq.new)))).
Proof.
  apply (no_operation_attaches_onError
           (exec (OpNext (JNum 1))
              (exec (OpAdd "B" [] task)
                 (exec OpActiveFn (exec (OpAdd "A" [] task) Seq.new))))
           (OrchestratedErrorHandler (fun _ => true))).
  repeat apply reachable_exec; try exact I. apply reachable_new.
Defined.

Section from_lemmas.
Context (asSteps : JValue -> list ILambdaSequenceStep)
        (ofSteps : list ILambdaSequenceStep -> JValue).
Implicit Types (this : LambdaSequence) (event headers : JValue).

(** What [getInvocationParameters] returns is an object without a
    repeated key and the serialized form of the state it leaves. *)
Lemma getInvocationParameters_sends this arn req this' :
  Seq.getInvocationParameters this = (Returns (arn, req), this') ->
  exists body s,
    req = mkRequest (JObj body) (Some s) /\
    NoDup (Object_keys body) /\
    Seq.deserialize s = this'.
Proof.
  intros Hget.
  destruct (activeFn_cases this)
    as [[Hnil Hact]|[[_ Hact]|(l1 & a & l2 & Hl & Hcur & Hact)]].
  - assert (Seq.getInvocationParameters this = (Throws (TypeError "params"), this))
      as Hthrows.
    { unfold Seq.getInvocationParameters. eff. rewrite Hact. by eff. }
    congruence.
  - assert (Seq.getInvocationParameters this = (Throws (Error_ NoAssignedStep), this))
      as Hthrows.
    { unfold Seq.getInvocationParameters. eff. rewrite Hact. by eff. }
    congruence.
  - set (this1 := Seq.set_steps (l1 ++ Step.set_status Status.active a :: l2) this)
      in *.
    assert (first_with Status.active (_steps this1)
            = Some (length l1, Step.set_status Status.active a)) as Hfirst.
    { cbn. apply first_with_middle; [apply Hcur|done]. }
    revert Hget. unfold Seq.getInvocationParameters. eff.
    rewrite Hact. eff.
    destruct (Seq.resolveRequestProperties _ this1) as [[body|e] this2] eqn:Hbody;
      [|done].
    assert (this2 = this1) as -> by (by injection Hbody).
    eff. rewrite (activeFn_active _ _ Hfirst). eff.
    rewrite (toObject_active _ _ Hfirst). eff.
    intros [= <- <- <-]. eexists body, _. split_and!; [done| |by destruct this].
    by eapply resolve_NoDup.
Qed.

Lemma next_sends this currentFnResponse arn req this' :
  Seq.next currentFnResponse this = (Returns (arn, req), this') ->
  exists body s,
    req = mkRequest (JObj body) (Some s) /\
    NoDup (Object_keys body) /\
    Seq.deserialize s = this'.
Proof.
  unfold Seq.next, bind.
  destruct (Seq.finishStep _ this) as [[[]|e] this1]; [|done].
  apply getInvocationParameters_sends.
Qed.

Lemma from_orchestrated headers (body : JValue) sequence :
  From.from_new asSteps ofSteps (OrchestratedRequest headers body sequence)
  = Returns (mkFrom (if bool_decide (js_typeof body = "object")
                     then JObj (spread [] (own_props body)) else body)
               None (Seq.deserialize sequence) headers).
Proof. reflexivity. Qed.
End from_lemmas.

Section from_bare.
Context (asSteps : JValue -> list ILambdaSequenceStep)
        (ofSteps : list ILambdaSequenceStep -> JValue).

Lemma obj_get_withoutSequence (ev : IDictionary) k :
  obj_get k (From.withoutSequence (JObj ev))
  = if decide (k = "_sequence") then None else obj_get k ev.
Proof.
  unfold From.withoutSequence.
  rewrite (obj_get_fold_set_if (prop_get (JObj ev))
             (fun prop => bool_decide (prop <> "_sequence"))).
  cbn [own_props obj_get].
  destruct (decide (k = "_sequence")) as [->|Hne].
  - rewrite decide_False; [done|]. intros [_ Hc]. by case_bool_decide.
  - destruct (obj_get k ev) as [v|] eqn:Hk.
    + rewrite decide_True.
      * unfold prop_get. cbn [own_props]. by rewrite Hk.
      * split; [|by apply bool_decide_eq_true_2].
        destruct (decide (k ∈ Object_keys ev)) as [|Hn]; [done|].
        apply obj_get_None in Hn. congruence.
    + rewrite decide_False; [done|]. intros [Hin _]. revert Hin.
      by apply obj_get_None.
Qed.

Lemma NoDup_withoutSequence event : NoDup (Object_keys (From.withoutSequence event)).
Proof.
  apply (NoDup_fold_set (prop_get event) (fun prop => bool_decide (prop <> "_sequence"))).
  constructor.
Qed.

(** The event as the code reads it once [ingestSteps] has made the
    current step of [l1 ++ a :: l2] active. *)
Lemma shared_current (ev : IDictionary) l1 a l2 :
  asSteps (prop_get (JObj ev) "_sequence") = l1 ++ a :: l2 ->
  is_current l1 a l2 ->
  From.shared asSteps ofSteps (JObj ev) Seq.new
  = JObj (seen ofSteps ev (l1 ++ Step.set_status Status.active a :: l2)).
Proof.
  intros Hsteps Hcur. unfold From.shared, seen.
  destruct (prop_get (JObj ev) "_sequence"); [..|done| |];
    rewrite Hsteps,
      (activeFn_current (Seq.set_steps (l1 ++ a :: l2) Seq.new) l1 a l2) by done;
    done.
Qed.

Lemma NoDup_seen (ev : IDictionary) l :
  NoDup (Object_keys ev) -> NoDup (Object_keys (seen ofSteps ev l)).
Proof. intros Hnd. unfold seen. destruct (prop_get _ _); by try apply NoDup_set. Qed.

Lemma from_ingests (ev : IDictionary) l1 a l2 :
  truthy (prop_get (JObj ev) "_sequence") = true ->
  asSteps (prop_get (JObj ev) "_sequence") = l1 ++ a :: l2 ->
  is_current l1 a l2 ->
  let event' :=
    JObj (seen ofSteps ev (l1 ++ Step.set_status Status.active a :: l2)) in
  From.from_new asSteps ofSteps (BareRequest (JObj ev))
  = Returns (mkFrom
               (JObj (spread (merged_params event' a) (From.withoutSequence event')))
               None
               (mkSequence (merge_into event' a
                              <$> (l1 ++ Step.set_status Status.active a :: l2)) ∅)
               (JObj [])).
Proof.
  intros Htruthy Hsteps Hcur event'.
  unfold From.from_new, From.from, From.carriesSequence. eff.
  cbn [js_typeof]. rewrite (bool_decide_eq_true_2 _ eq_refl). eff.
  rewrite Htruthy, Hsteps. eff.
  rewrite (shared_current ev l1 a l2 Hsteps Hcur). fold event'.
  rewrite (ingestSteps_current Seq.new event' l1 a l2 eq_refl Hcur). eff.
  set (this1 := mkSequence _ _).
  assert (Seq.activeFn this1
          = (Returns (Some (length l1,
                            merge_into event' a (Step.set_status Status.active a))),
             this1)) as Hact.
  { apply activeFn_active. unfold this1. cbn [_steps].
    rewrite fmap_app, fmap_cons.
    rewrite <- (length_fmap (merge_into event' a) l1).
    apply first_with_middle.
    - apply Forall_fmap. eapply Forall_impl; [apply Hcur|].
      intros s Hs. unfold merge_into. cbn. by case_bool_decide.
    - unfold merge_into. by case_bool_decide. }
  rewrite !Hact. eff.
  unfold merge_into at 1. cbn [Step.arn Step.set_status js_typeof own_props event'].
  rewrite !(bool_decide_eq_true_2 _ eq_refl).
  reflexivity.
Qed.
End from_bare.

(** X8.  What [next] sends, [from] receives.  Whenever [next] returns an arn
    and a request, the request carries a serialized sequence, and
    [LambdaSequence.from] applied to the orchestrated event made of that
    request (under any headers) gives back the body as the request, a
    sequence equal to the sender's sequence as [next] left it (steps and
    responses), the headers, and no API Gateway part. *)
Theorem from_receives_what_next_sends
    asSteps ofSteps this currentFnResponse headers arn req this' :
  Seq.next currentFnResponse this = (Returns (arn, req), this') ->
  exists s,
    req_sequence req = Some s /\
    From.from_new asSteps ofSteps (OrchestratedRequest headers (req_body req) s)
    = Returns (mkFrom (req_body req) None this' headers).
Proof.
  intros (body & s & -> & Hnd & Hs)%next_sends.
  exists s. split; [done|]. rewrite from_orchestrated. cbn [req_body js_typeof own_props].
  rewrite (bool_decide_eq_true_2 _ eq_refl), Hs. by rewrite spread_empty.
Qed.

Lemma from_receives_what_next_sends_witness :
  exists s,
    From.from_new FromExamples.asSteps FromExamples.ofSteps
      (OrchestratedRequest (JObj [("X-Correlation-Id", JStr "c1")])
         (JObj [("foo", JNum 7)]) s)
    = Returns (mkFrom (JObj [("foo", JNum 7)]) None
                 (mkSequence [Examples.A_completed;
                              Step.set_status Status.active Examples.B_waiting]
                    (<["A" := JObj [("data", JNum 7)]]> ∅))
                 (JObj [("X-Correlation-Id", JStr "c1")])).
Proof.
  destruct (from_receives_what_next_sends FromExamples.asSteps FromExamples.ofSteps
              (mkSequence [Examples.A_active; Examples.B_waiting] ∅)
              (JObj [("data", JNum 7)])
              (JObj [("X-Correlation-Id", JStr "c1")])
              "B"
              (mkRequest (JObj [("foo", JNum 7)])
                 (Some (mkSerialized true (Some 2) (Some 1) (Some "B")
                          (Some ["A"]) (Some [])
                          (Some [Examples.A_completed;
                                 Step.set_status Status.active Examples.B_waiting])
                          (Some (<["A" := JObj [("data", JNum 7)]]> ∅)))))
              (mkSequence [Examples.A_completed;
                           Step.set_status Status.active Examples.B_waiting]
                 (<["A" := JObj [("data", JNum 7)]]> ∅)))
    as (s & _ & Hfrom).
  - vm_compute. reflexivity.
  - exists s. exact Hfrom.
Defined.

(** X9.  An API Gateway (proxy) event never yields a sequence: [from] gives
    the not-a-sequence object, the event's [headers] property as headers,
    the parsed body as the request (copied into a plain object when it is an
    object or an array, as it is otherwise), and as [apiGateway] the event
    without its [headers] and [body] and with every other property kept. *)
Theorem from_proxy_event asSteps ofSteps (event : IDictionary) (body : JValue) :
  NoDup (Object_keys event) ->
  NoDup (Object_keys (own_props body)) ->
  exists gateway,
    From.from_new asSteps ofSteps (LambdaProxyRequest event body)
    = Returns (mkFrom (if bool_decide (js_typeof body = "object")
                       then JObj (own_props body) else body)
                 (Some gateway) Seq.notASequence (prop_get (JObj event) "headers")) /\
    Seq.isSequence Seq.notASequence = false /\
    forall k, obj_get k gateway
              = if bool_decide (k = "headers" \/ k = "body") then None
                else obj_get k event.
Proof.
  intros Hev Hbody.
  exists (obj_delete "body" (obj_delete "headers" event)). split_and!.
  - unfold From.from_new, From.from. eff.
    rewrite (activeFn_empty Seq.new eq_refl). eff.
    change (spread [] []) with (@nil (string * JValue)).
    rewrite !spread_empty by done. reflexivity.
  - reflexivity.
  - intros k. rewrite !obj_get_delete.
    destruct (decide (k = "body")) as [->|Hb]; [done|].
    destruct (decide (k = "headers")) as [->|Hh]; [done|].
    rewrite bool_decide_eq_false_2; [done|]. by intros [?|?].
Qed.

Lemma from_proxy_event_witness :
  exists gateway,
    From.from_new FromExamples.asSteps FromExamples.ofSteps
      (LambdaProxyRequest
         [("headers", JObj [("Accept", JStr "*/*")]); ("path", JStr "/orders");
          ("body", JStr "[1]")]
         (JArr [JNum 1]))
    = Returns (mkFrom (JObj [("0", JNum 1)]) (Some gateway) Seq.notASequence
                 (JObj [("Accept", JStr "*/*")])) /\
    obj_get "path" gateway = Some (JStr "/orders") /\
    obj_get "body" gateway = None.
Proof.
  destruct (from_proxy_event FromExamples.asSteps FromExamples.ofSteps
              [("headers", JObj [("Accept", JStr "*/*")]); ("path", JStr "/orders");
               ("body", JStr "[1]")]
              (JArr [JNum 1])) as (gateway & Heq & _ & Hkeys).
  - apply (bool_decide_unpack _). reflexivity.
  - apply (bool_decide_unpack _). reflexivity.
  - exists gateway. split; [exact Heq|]. rewrite !Hkeys. split; reflexivity.
Defined.

(** X10.  A bare event with a [_sequence] property is ingested by the new
    object: the sequence returned holds the steps of [_sequence] with the
    current one, [a], made active and given the event merged into its
    params.  The request returned reads, under every key, what the event
    has there once the steps are ingested, and what the params of [a] have
    where the event has nothing.  So the [_sequence] property, left out by
    the copy of the event, is back in the request through the params of the
    active step: as the string it was, or, for an array, as that array,
    which now shows [a] active, [ingestSteps] having installed the step
    objects of the event itself. *)
Theorem from_bare_event_with_sequence asSteps ofSteps (ev : IDictionary) l1 a l2 :
  NoDup (Object_keys ev) ->
  truthy (prop_get (JObj ev) "_sequence") = true ->
  asSteps (prop_get (JObj ev) "_sequence") = l1 ++ a :: l2 ->
  is_current l1 a l2 ->
  let ingested := l1 ++ Step.set_status Status.active a :: l2 in
  exists request,
    From.from_new asSteps ofSteps (BareRequest (JObj ev))
    = Returns (mkFrom (JObj request) None
                 (mkSequence (merge_into (JObj (seen ofSteps ev ingested)) a
                                <$> ingested) ∅)
                 (JObj [])) /\
    (forall k, k <> "_sequence" ->
       obj_get k request
       = match obj_get k ev with
         | Some v => Some v
         | None => obj_get k (Step.params a)
         end) /\
    obj_get "_sequence" request
    = Some (match prop_get (JObj ev) "_sequence" with
            | JStr text => JStr text
            | _ => ofSteps ingested
            end).
Proof.
  intros Hnd Htruthy Hsteps Hcur ingested.
  assert (forall k,
             obj_get k (seen ofSteps ev ingested)
             = if decide (k = "_sequence")
               then Some (match prop_get (JObj ev) "_sequence" with
                          | JStr text => JStr text
                          | _ => ofSteps ingested
                          end)
               else obj_get k ev) as Hseen.
  { intros k. unfold seen.
    assert (is_Some (obj_get "_sequence" ev)) as [v Hv].
    { unfold prop_get in Htruthy. cbn [own_props] in Htruthy.
      by destruct (obj_get "_sequence" ev). }
    assert (prop_get (JObj ev) "_sequence" = v) as Hprop.
    { unfold prop_get. cbn [own_props]. by rewrite Hv. }
    rewrite Hprop.
    destruct v; rewrite ?obj_get_set; case_decide; subst; try done. }
  eexists. split; [by apply from_ingests|].
  assert (forall k,
             obj_get k (spread (merged_params (JObj (seen ofSteps ev ingested)) a)
                          (From.withoutSequence (JObj (seen ofSteps ev ingested))))
             = match obj_get k (seen ofSteps ev ingested) with
               | Some v => Some v
               | None => obj_get k (Step.params a)
               end) as Hrequest.
  { intros k. rewrite obj_get_spread by apply NoDup_withoutSequence.
    rewrite obj_get_withoutSequence, obj_get_merged by (by apply NoDup_seen).
    cbn [js_typeof own_props]. rewrite (bool_decide_eq_true_2 _ eq_refl).
    case_decide; [done|]. by destruct (obj_get k (seen ofSteps ev ingested)). }
  split.
  - intros k Hk. rewrite Hrequest, Hseen. by rewrite decide_False.
  - rewrite Hrequest, Hseen. by rewrite decide_True.
Qed.

Lemma from_bare_event_with_sequence_witness :
  exists request,
    From.from_new FromExamples.asSteps FromExamples.ofSteps
      (BareRequest
         (JObj [("m", JNum 1);
                ("_sequence",
                 FromExamples.ofSteps
                   [Step.mk "A" [("n", JNum 3)] task Status.assigned None None;
                    Examples.B_assigned])]))
    = Returns (mkFrom (JObj request) None
                 (mkSequence
                    (merge_into
                       (JObj [("m", JNum 1);
                              ("_sequence",
                               FromExamples.ofSteps
                                 [Step.mk "A" [("n", JNum 3)] task Status.active None None;
                                  Examples.B_assigned])])
                       (Step.mk "A" [("n", JNum 3)] task Status.assigned None None)
                       <$> [Step.mk "A" [("n", JNum 3)] task Status.active None None;
                            Examples.B_assigned]) ∅)
                 (JObj [])) /\
    obj_get "m" request = Some (JNum 1) /\
    obj_get "n" request = Some (JNum 3) /\
    obj_get "_sequence" request
    = Some (FromExamples.ofSteps
              [Step.mk "A" [("n", JNum 3)] task Status.active None None;
               Examples.B_assigned]).
Proof.
  destruct (from_bare_event_with_sequence FromExamples.asSteps FromExamples.ofSteps
              [("m", JNum 1);
               ("_sequence",
                FromExamples.ofSteps
                  [Step.mk "A" [("n", JNum 3)] task Status.assigned None None;
                   Examples.B_assigned])]
              []
              (Step.mk "A" [("n", JNum 3)] task Status.assigned None None)
              [Examples.B_assigned]) as (request & Heq & Hkeys & Hsequence).
  - apply (bool_decide_unpack _). reflexivity.
  - reflexivity.
  - reflexivity.
  - split; [constructor|]. right. split_and!; [done|constructor|].
    repeat constructor; discriminate.
  - exists request. split; [exact Heq|].
    rewrite !Hkeys by discriminate. rewrite Hsequence. split_and!; reflexivity.
Defined.

(** X11.  A bare event without a (truthy) [_sequence] property is the
    request: a value that is not an object is passed on as it is, an object
    is copied; the sequence is the not-a-sequence object, the headers are
    empty and there is no API Gateway part. *)
Theorem from_bare_event_without_sequence asSteps ofSteps (event : JValue) :
  event <> JNull ->
  truthy (prop_get event "_sequence") = false ->
  NoDup (Object_keys (own_props event)) ->
  From.from_new asSteps ofSteps (BareRequest event)
  = Returns (mkFrom (if bool_decide (js_typeof event = "object")
                     then JObj (own_props event) else event)
               None Seq.notASequence (JObj [])).
Proof.
  intros Hnull Hfalsy Hnd.
  unfold From.from_new, From.from, From.carriesSequence. eff.
  destruct (bool_decide (js_typeof event = "object")) eqn:Hobj.
  - destruct event; try done; eff; rewrite Hfalsy; eff;
      rewrite (activeFn_empty Seq.new eq_refl); eff; cbn [js_typeof];
      rewrite (bool_decide_eq_true_2 _ eq_refl), spread_empty by done; reflexivity.
  - eff. rewrite (activeFn_empty Seq.new eq_refl). eff. by rewrite Hobj.
Qed.

Lemma from_bare_event_without_sequence_witness :
  From.from_new FromExamples.asSteps FromExamples.ofSteps (BareRequest (JStr "ping"))
  = Returns (mkFrom (JStr "ping") None Seq.notASequence (JObj [])) /\
  From.from_new FromExamples.asSteps FromExamples.ofSteps (BareRequest (JObj [("n", JNum 3)]))
  = Returns (mkFrom (JObj [("n", JNum 3)]) None Seq.notASequence (JObj [])).
Proof.
  split.
  - apply (from_bare_event_without_sequence FromExamples.asSteps FromExamples.ofSteps (JStr "ping"));
      [discriminate|reflexivity|constructor].
  - apply (from_bare_event_without_sequence FromExamples.asSteps FromExamples.ofSteps (JObj [("n", JNum 3)]));
      [discriminate|reflexivity|].
    apply (bool_decide_unpack _). reflexivity.
Defined.

(** ** The SequenceTracker handler *)

Section tracker.
Context (getSecrets : list string -> Outcome JValue)
        (database : JValue -> Outcome unit)
        (db_set : string -> SequenceTracker.ISequenceTrackerStatus -> Outcome unit)
        (AWS_STAGE NODE_ENV : option string).

Local Abbreviation fn :=
  (SequenceTracker.fn getSecrets database db_set AWS_STAGE NODE_ENV).

Lemma property_cases (v : JValue) (p : string) (log : list SequenceTracker.Call) :
  SequenceTracker.property v p log = (Returns (prop_get v p), log) \/
  SequenceTracker.property v p log = (Throws (TypeError p), log).
Proof. destruct v; by (left + right). Qed.

(** X12.  The write discipline of the tracker, whatever the secrets
    store, the database and the environment do.  The handler first asks
    for the secrets (of the module the event names, of
    [firebase/SERVICE_ACCOUNT] when it names none); it writes at most
    once, and what it writes is the status of the event, at
    [aws-orchestrate/STAGE/CORRELATION-ID] for the stage that [AWS_STAGE]
    or, failing that, [NODE_ENV] gives: with no stage there is no write.
    When it returns, it returns the status of the event, after the
    write. *)
Theorem tracker_write_discipline event log :
  exists calls,
    (fn event log).2
    = log ++ SequenceTracker.GetSecrets
               [default "firebase/SERVICE_ACCOUNT"
                  (SequenceTracker.or_else
                     (SequenceTracker.firebaseSecretLocation event) None)]
             :: calls /\
    length (filter (fun c => is_write c = true) calls) <= 1 /\
    (forall c, c ∈ calls -> is_write c = true ->
       exists stage,
         SequenceTracker.or_else AWS_STAGE NODE_ENV = Some stage /\ stage <> "" /\
         c = SequenceTracker.DbSet
               ("aws-orchestrate/" +:+ stage +:+ "/"
                +:+ SequenceTracker.correlationId (SequenceTracker.status event))
               (SequenceTracker.status event)) /\
    (forall v, (fn event log).1 = Returns v ->
       v = SequenceTracker.status event /\
       exists c, c ∈ calls /\ is_write c = true).
Proof.
  unfold SequenceTracker.fn, SequenceTracker.call. eff.
  assert (forall calls : list SequenceTracker.Call,
             Forall (fun c => is_write c = false) calls ->
             length (filter (fun c => is_write c = true) calls) <= 1 /\
             (forall c, c ∈ calls -> is_write c = true ->
                exists stage,
                  SequenceTracker.or_else AWS_STAGE NODE_ENV = Some stage /\
                  stage <> "" /\
                  c = SequenceTracker.DbSet
                        ("aws-orchestrate/" +:+ stage +:+ "/"
                         +:+ SequenceTracker.correlationId
                               (SequenceTracker.status event))
                        (SequenceTracker.status event))) as Hquiet.
  { intros calls Hcalls. split.
    - induction Hcalls as [|c calls Hc _ IH]; [cbn; lia|].
      rewrite filter_cons, decide_False by congruence. exact IH.
    - intros c Hin Hw. rewrite Forall_forall in Hcalls.
      specialize (Hcalls c Hin). congruence. }
  destruct (getSecrets _) as [secrets|e].
  2:{ exists []. split; [done|]. split; [apply Hquiet; constructor|].
      split; [apply Hquiet; constructor|done]. }
  destruct (property_cases secrets "firebase" (log ++ [SequenceTracker.GetSecrets
               [default "firebase/SERVICE_ACCOUNT"
                  (SequenceTracker.or_else
                     (SequenceTracker.firebaseSecretLocation event) None)]]))
    as [-> | ->].
  2:{ exists []. split; [done|]. split; [apply Hquiet; constructor|].
      split; [apply Hquiet; constructor|done]. }
  destruct (property_cases (prop_get secrets "firebase") "SERVICE_ACCOUNT"
              (log ++ [SequenceTracker.GetSecrets
               [default "firebase/SERVICE_ACCOUNT"
                  (SequenceTracker.or_else
                     (SequenceTracker.firebaseSecretLocation event) None)]]))
    as [-> | ->].
  2:{ exists []. split; [done|]. split; [apply Hquiet; constructor|].
      split; [apply Hquiet; constructor|done]. }
  set (acct := prop_get (prop_get secrets "firebase") "SERVICE_ACCOUNT").
  rewrite <- !app_assoc. cbn [app].
  assert (Forall (fun c => is_write c = false) [SequenceTracker.Database acct])
    as Hdb by (by repeat constructor).
  destruct (database acct) as [[]|e].
  2:{ exists [SequenceTracker.Database acct]. split; [done|].
      split; [by apply Hquiet|]. split; [by apply Hquiet|done]. }
  destruct (SequenceTracker.or_else AWS_STAGE NODE_ENV) as [stage|] eqn:Hstage.
  2:{ exists [SequenceTracker.Database acct]. split; [done|].
      split; [by apply Hquiet|]. split; [by apply Hquiet|done]. }
  destruct (truthy (JStr stage)) eqn:Htruthy; cbn [negb].
  2:{ exists [SequenceTracker.Database acct]. split; [done|].
      split; [by apply Hquiet|]. split; [by apply Hquiet|done]. }
  rewrite <- !app_assoc. cbn [app].
  eexists [SequenceTracker.Database acct; SequenceTracker.DbSet _ _].
  split; [by destruct (db_set _ _)|]. split.
  { rewrite filter_cons, decide_False by done.
    rewrite filter_cons, decide_True by done. cbn. lia. }
  split.
  - intros c [->|[->|[]%elem_of_nil]%elem_of_cons]%elem_of_cons Hw; [done|].
    exists stage. split_and!; [done| |done]. by intros ->.
  - intros v Hv. split.
    + destruct (db_set _ _) as [[]|e']; cbn in Hv; congruence.
    + eexists. split; [apply list_elem_of_further, list_elem_of_here|done].
Qed.

Lemma fn_writes event log (secrets firebase : IDictionary) stage :
  getSecrets [default "firebase/SERVICE_ACCOUNT"
                (SequenceTracker.or_else
                   (SequenceTracker.firebaseSecretLocation event) None)]
  = Returns (JObj secrets) ->
  obj_get "firebase" secrets = Some (JObj firebase) ->
  database (prop_get (JObj firebase) "SERVICE_ACCOUNT") = Returns tt ->
  SequenceTracker.or_else AWS_STAGE NODE_ENV = Some stage ->
  stage <> "" ->
  db_set ("aws-orchestrate/" +:+ stage +:+ "/"
          +:+ SequenceTracker.correlationId (SequenceTracker.status event))
    (SequenceTracker.status event) = Returns tt ->
  fn event log
  = (Returns (SequenceTracker.status event),
     log ++ [SequenceTracker.GetSecrets
               [default "firebase/SERVICE_ACCOUNT"
                  (SequenceTracker.or_else
                     (SequenceTracker.firebaseSecretLocation event) None)];
             SequenceTracker.Database (prop_get (JObj firebase) "SERVICE_ACCOUNT");
             SequenceTracker.DbSet
               ("aws-orchestrate/" +:+ stage +:+ "/"
                +:+ SequenceTracker.correlationId (SequenceTracker.status event))
               (SequenceTracker.status event)]).
Proof.
  intros Hsecrets Hfirebase Hdb Hstage Hne Hset.
  unfold SequenceTracker.fn, SequenceTracker.call, SequenceTracker.property. eff.
  rewrite Hsecrets.
  assert (prop_get (JObj secrets) "firebase" = JObj firebase) as ->.
  { unfold prop_get. cbn [own_props]. by rewrite Hfirebase. }
  rewrite Hdb, Hstage.
  assert (truthy (JStr stage) = true) as ->.
  { cbn. by rewrite bool_decide_eq_false_2. }
  cbn [negb]. rewrite Hset. by rewrite <- !app_assoc.
Qed.
End tracker.

(** X13.  With secrets that hold [firebase.SERVICE_ACCOUNT], a database
    that connects and takes the write, and a stage, the tracker returns the
    status of the event after three calls: the secrets of the module the
    event names, the database opened with [firebase.SERVICE_ACCOUNT] (also
    when the event names another module), and the write of the status at
    [aws-orchestrate/STAGE/CORRELATION-ID].  [AWS_STAGE] gives the stage when
    it is set and not empty; [NODE_ENV] is used only otherwise. *)
Theorem tracker_returns_the_status
    getSecrets database db_set AWS_STAGE NODE_ENV event log
    (secrets firebase : IDictionary) stage :
  let location :=
    default "firebase/SERVICE_ACCOUNT"
      (SequenceTracker.or_else (SequenceTracker.firebaseSecretLocation event) None) in
  let path :=
    "aws-orchestrate/" +:+ stage +:+ "/"
    +:+ SequenceTracker.correlationId (SequenceTracker.status event) in
  getSecrets [location] = Returns (JObj secrets) ->
  obj_get "firebase" secrets = Some (JObj firebase) ->
  database (prop_get (JObj firebase) "SERVICE_ACCOUNT") = Returns tt ->
  stage <> "" ->
  AWS_STAGE = Some stage \/
  ((AWS_STAGE = None \/ AWS_STAGE = Some "") /\ NODE_ENV = Some stage) ->
  db_set path (SequenceTracker.status event) = Returns tt ->
  SequenceTracker.fn getSecrets database db_set AWS_STAGE NODE_ENV event log
  = (Returns (SequenceTracker.status event),
     log ++ [SequenceTracker.GetSecrets [location];
             SequenceTracker.Database (prop_get (JObj firebase) "SERVICE_ACCOUNT");
             SequenceTracker.DbSet path (SequenceTracker.status event)]).
Proof.
  intros location path Hsecrets Hfirebase Hdb Hne Hstage Hset.
  apply (fn_writes _ _ _ _ _ _ _ secrets); try done.
  destruct Hstage as [->|[[->| ->] ->]]; cbn; [|done..].
  by rewrite bool_decide_eq_false_2.
Qed.

Lemma tracker_returns_the_status_witness :
  SequenceTracker.fn
    (fun _ => Returns (JObj [("firebase", JObj [("SERVICE_ACCOUNT", JStr "key")])]))
    (fun _ => Returns tt) (fun _ _ => Returns tt) (Some "") (Some "dev")
    (SequenceTracker.mkTrackerRequest
       (SequenceTracker.mkStatus "c-123" 3 1 "A" None SequenceTracker.running)
       (Some "vault/firebase")) []
  = (Returns (SequenceTracker.mkStatus "c-123" 3 1 "A" None SequenceTracker.running),
     [SequenceTracker.GetSecrets ["vault/firebase"];
      SequenceTracker.Database (JStr "key");
      SequenceTracker.DbSet "aws-orchestrate/dev/c-123"
        (SequenceTracker.mkStatus "c-123" 3 1 "A" None SequenceTracker.running)]).
Proof.
  apply (tracker_returns_the_status
           (fun _ => Returns (JObj [("firebase", JObj [("SERVICE_ACCOUNT", JStr "key")])]))
           (fun _ => Returns tt) (fun _ _ => Returns tt) (Some "") (Some "dev")
           (SequenceTracker.mkTrackerRequest
              (SequenceTracker.mkStatus "c-123" 3 1 "A" None SequenceTracker.running)
              (Some "vault/firebase")) []
           [("firebase", JObj [("SERVICE_ACCOUNT", JStr "key")])]
           [("SERVICE_ACCOUNT", JStr "key")] "dev").
  - reflexivity.
  - reflexivity.
  - reflexivity.
  - discriminate.
  - right. split; [by right|reflexivity].
  - reflexivity.
Defined.

Section wrapper_extras.
Context (platform : string -> Payload -> Outcome JValue)
        (JSON_stringify : JValue -> string)
        (getResponseHeaders : IDictionary)
        (sequenceStatus : string -> LambdaSequence -> JValue)
        (getCorrelationId : string)
        (fn : JValue -> IHandlerContext.t -> HandlerRun)
        (options : IWrapperOptions).

Local Abbreviation wrapper :=
  (Wrapper.wrapper platform JSON_stringify getResponseHeaders sequenceStatus
     getCorrelationId fn options).

(** X14.  Where there is nothing to continue, start or track, the wrapper
    invokes nothing.  When the user function returns, the event's sequence
    has no steps or (with no tracker configured) has no assigned step left,
    and no new sequence is pending, the wrapper returns the return values
    built from the handler's result and leaves the sequence as it is: the
    last step of a sequence stays active and its result is not recorded. *)
Theorem wrapper_invokes_nothing_outside_a_sequence event context w result :
  let handlerContext := Wrapper.buildHandlerContext getCorrelationId event context w in
  let run := fn (ev_request event) handlerContext in
  let w1 := Wrapper.registerSequence (run_registered run) w in
  run_outcome run = Returns result ->
  Seq.isSequence (w_sequence w) = false \/
  (Seq.isDone (w_sequence w) = true /\ sequenceTracker options = None) ->
  Seq.isSequence (Wrapper.getNewSequence w1) = false ->
  wrapper event context w
  = (Returns (Wrapper.returnValues JSON_stringify getResponseHeaders handlerContext
                result (run_statusCode run)), w1) /\
  w_invoked w1 = w_invoked w /\
  w_sequence w1 = w_sequence w.
Proof.
  intros handlerContext run w1 Hrun Hidle Hnew.
  assert (w_invoked w1 = w_invoked w /\ w_sequence w1 = w_sequence w) as [Hinv Hseq].
  { unfold w1, Wrapper.registerSequence. by destruct (run_registered run). }
  split; [|done].
  rewrite (wrapper_returns _ _ _ _ _ _ _ _ _ _ result Hrun).
  fold handlerContext. fold run. fold w1.
  unfold Wrapper.afterHandler. eff.
  rewrite continueSequence_idle by (rewrite Hseq; tauto).
  rewrite startNewSequence_idle by done.
  rewrite notifyTracker_idle by (rewrite Hseq; tauto).
  done.
Qed.

(** X15.  In the middle of a sequence the wrapper hands over to the next
    step.  With the steps before the running step [a] completed and the
    steps after it assigned, [b] first, a user function that returns
    [result] (no new sequence, no tracker) leaves [a] completed, with
    [result] filed under its arn, and [b] active.  When the params of [b]
    resolve against the responses, the wrapper invokes the arn of [b],
    once, with an orchestrated request: its body holds the params of [b],
    each dynamic one replaced by what [get] makes of its lookup, and its
    sequence deserializes to the state the wrapper leaves; if the
    invocation goes through, the wrapper returns the return values built
    from [result].  When a lookup meets a [null] on its way, nothing is
    invoked and the [TypeError] of [get] enters the wrapper's error
    handling. *)
Theorem wrapper_continues_the_sequence event context w result l1 a b l2 :
  let handlerContext := Wrapper.buildHandlerContext getCorrelationId event context w in
  let run := fn (ev_request event) handlerContext in
  let responses :=
    <[Step.arn a := Seq.orDefault result (JObj [])]> (_responses (w_sequence w)) in
  let this' :=
    mkSequence (l1 ++ Step.set_status Status.completed a
                   :: Step.set_status Status.active b :: l2) responses in
  run_outcome run = Returns result ->
  run_registered run = None ->
  w_newSequence w = None ->
  sequenceTracker options = None ->
  _steps (w_sequence w) = l1 ++ a :: b :: l2 ->
  Forall (fun s => Step.status s = Status.completed) l1 ->
  Step.status a = Status.active ->
  Step.status b = Status.assigned ->
  Forall (fun s => Step.status s = Status.assigned) l2 ->
  exists s,
    Seq.deserialize s = this' /\
    (resolvable responses (Step.params b) = true ->
     exists body,
       (forall k, Returns <$> obj_get k body
                  = resolved_value responses <$> obj_get k (Step.params b)) /\
       forall response,
         platform (Step.arn b) (Orchestrated (mkRequest (JObj body) (Some s)))
         = Returns response ->
         wrapper event context w
         = (Returns (Wrapper.returnValues JSON_stringify getResponseHeaders
                       handlerContext result (run_statusCode run)),
            mkWorld this' None
              (w_invoked w
               ++ [(Step.arn b, Orchestrated (mkRequest (JObj body) (Some s)))]))) /\
    (resolvable responses (Step.params b) = false ->
     wrapper event context w
     = Wrapper.catch_ platform JSON_stringify getResponseHeaders event context
         handlerContext (run_errorMgmt run) result NullOnPath
         (mkWorld this' None (w_invoked w))).
Proof.
  intros handlerContext run responses this' Hrun Hreg Hnew Htracker Hl Hl1 Ha Hb Hl2.
  assert (Forall (fun s => Step.status s <> Status.active) l1) as Hl1a.
  { eapply Forall_impl; [exact Hl1|]. intros s Hs. by rewrite Hs. }
  assert (Forall (fun s => Step.status s <> Status.assigned) l1) as Hl1b.
  { eapply Forall_impl; [exact Hl1|]. intros s Hs. by rewrite Hs. }
  assert (Forall (fun s => Step.status s <> Status.active) l2) as Hl2a.
  { eapply Forall_impl; [exact Hl2|]. intros s Hs. by rewrite Hs. }
  destruct (next_promotes (w_sequence w) result l1 a (b :: l2)
              (l1 ++ [Step.set_status Status.completed a]) b l2)
    as (s & Hs & Hnext).
  { done. }
  { split; [done|by left]. }
  { constructor; [by rewrite Hb|done]. }
  { by rewrite <- app_assoc. }
  { apply Forall_app. split; [done|]. by repeat constructor. }
  { done. }
  rewrite <- app_assoc in Hnext, Hs. cbn [app] in Hnext, Hs.
  fold responses in Hnext, Hs. fold this' in Hnext, Hs.
  assert (Seq.isDone (w_sequence w) = false) as Hdone.
  { unfold Seq.isDone, Seq.nextFn, Seq.remaining. rewrite Hl.
    rewrite filter_app, !filter_cons, Ha, Hb.
    rewrite (decide_False (P := Status.active = Status.assigned)) by done.
    rewrite decide_True by done.
    destruct (filter _ l1) as [|x xs]; cbn;
      (rewrite bool_decide_eq_true_2; [done|lia]). }
  assert (Seq.isSequence (w_sequence w) = true) as Hseq.
  { apply isSequence_true. rewrite Hl. by destruct l1. }
  exists s. split; [done|]. split.
  - intros Hres. rewrite Hres in Hnext. destruct Hnext as (body & Hnext & Hkeys).
    exists body. split; [done|]. intros response Hplatform.
    rewrite (wrapper_returns _ _ _ _ _ _ _ _ _ _ result Hrun).
    fold handlerContext. fold run. rewrite Hreg. cbn [Wrapper.registerSequence].
    unfold Wrapper.afterHandler. eff.
    rewrite (continueSequence_next _ _ _ _ _ Hseq Hdone Hnext).
    cbn [fst snd]. rewrite Hplatform.
    rewrite startNewSequence_idle by (unfold Wrapper.getNewSequence; by rewrite Hnew).
    rewrite notifyTracker_idle by tauto.
    by rewrite Hnew.
  - intros Hres. rewrite Hres in Hnext.
    rewrite (wrapper_returns _ _ _ _ _ _ _ _ _ _ result Hrun).
    fold handlerContext. fold run. rewrite Hreg. cbn [Wrapper.registerSequence].
    unfold Wrapper.afterHandler. eff.
    rewrite (continueSequence_throws _ _ _ _ _ Hseq Hdone Hnext).
    by rewrite Hnew.
Qed.

(** X16.  The wrapper starts the sequence held by the module variable
    [newSequence], be it the one the user function registered in this run
    or, when it registered none, the one an earlier run left there.  With
    the event outside a sequence and the params of the current step of
    that sequence resolving against its responses, the arn of that step is
    invoked with its params (each dynamic one replaced by what [get] makes
    of its lookup in the sequence's own responses; the handler's result
    plays no part) and the serialized sequence; the variable then holds
    the sequence with that step active, which is again a sequence the next
    run will start. *)
Theorem wrapper_starts_the_pending_sequence event context w result ns l1 a l2 :
  let handlerContext := Wrapper.buildHandlerContext getCorrelationId event context w in
  let run := fn (ev_request event) handlerContext in
  let ns' := Seq.set_steps (l1 ++ Step.set_status Status.active a :: l2) ns in
  run_outcome run = Returns result ->
  Seq.isSequence (w_sequence w) = false ->
  run_registered run = Some ns \/
  (run_registered run = None /\ w_newSequence w = Some ns) ->
  _steps ns = l1 ++ a :: l2 ->
  is_current l1 a l2 ->
  resolvable (_responses ns) (Step.params a) = true ->
  exists body s,
    (forall k, Returns <$> obj_get k body
               = resolved_value (_responses ns) <$> obj_get k (Step.params a)) /\
    Seq.deserialize s = ns' /\
    is_current l1 (Step.set_status Status.active a) l2 /\
    resolvable (_responses ns') (Step.params (Step.set_status Status.active a))
    = true /\
    forall response,
      platform (Step.arn a) (Orchestrated (mkRequest (JObj body) (Some s)))
      = Returns response ->
      wrapper event context w
      = (Returns (Wrapper.returnValues JSON_stringify getResponseHeaders
                    handlerContext result (run_statusCode run)),
         mkWorld (w_sequence w) (Some ns')
           (w_invoked w
            ++ [(Step.arn a, Orchestrated (mkRequest (JObj body) (Some s)))])).
Proof.
  intros handlerContext run ns' Hrun Hseq Hpending Hl Hcur Hres.
  set (w1 := Wrapper.registerSequence (run_registered run) w).
  assert (w_newSequence w1 = Some ns /\ w_invoked w1 = w_invoked w /\
          w_sequence w1 = w_sequence w) as (Hns & Hinv & Hseq1).
  { unfold w1. by destruct Hpending as [-> | [-> ?]]. }
  destruct (startNewSequence_current platform result w1 ns l1 a l2
              Hns Hl Hcur) as (s & Hs & Hstart).
  rewrite Hres in Hstart. destruct Hstart as (body & Hkeys & Hstart).
  exists body, s. split_and!; [done..| |done|].
  { split; [apply Hcur|by left]. }
  intros response Hplatform.
  rewrite (wrapper_returns _ _ _ _ _ _ _ _ _ _ result Hrun).
  fold handlerContext. fold run. fold w1.
  unfold Wrapper.afterHandler. eff.
  rewrite continueSequence_idle by (rewrite Hseq1; tauto).
  rewrite Hstart, Hplatform.
  rewrite notifyTracker_idle by (cbn [w_sequence]; rewrite Hseq1; tauto).
  by rewrite Hinv, Hseq1.
Qed.
End wrapper_extras.

Section wrapper_errors.
Context (platform : string -> Payload -> Outcome JValue)
        (JSON_stringify : JValue -> string)
        (getResponseHeaders : IDictionary)
        (sequenceStatus : string -> LambdaSequence -> JValue)
        (getCorrelationId : string)
        (fn : JValue -> IHandlerContext.t -> HandlerRun)
        (options : IWrapperOptions).

Local Abbreviation wrapper :=
  (Wrapper.wrapper platform JSON_stringify getResponseHeaders sequenceStatus
     getCorrelationId fn options).

Local Abbreviation catch_ :=
  (Wrapper.catch_ platform JSON_stringify getResponseHeaders).

Local Abbreviation errorHandling :=
  (Wrapper.errorHandling platform JSON_stringify getResponseHeaders).

Lemma registerSequence_keeps s w :
  w_sequence (Wrapper.registerSequence s w) = w_sequence w /\
  w_invoked (Wrapper.registerSequence s w) = w_invoked w.
Proof. by destruct s. Qed.

(** An error that surfaces: returned to the gateway, thrown in a
    [RethrowError] otherwise. *)
Lemma catch_surfaces event context handlerContext errorMeta result e err w :
  errorHandling context handlerContext errorMeta
    (ev_apiGatewayIsLambdaProxyRequest event) result e w
  = Wrapper.surface (ev_apiGatewayIsLambdaProxyRequest event) err w ->
  rethrown err = true ->
  unattended (w_sequence w) ->
  exists w',
    catch_ event context handlerContext errorMeta result e w
    = (if ev_apiGatewayIsLambdaProxyRequest event
       then Returns (ApiGatewayError err)
       else Throws (RethrowError err), w') /\
    w_invoked w' = w_invoked w.
Proof.
  intros Hinner Hre Hun. unfold Wrapper.catch_. rewrite Hinner.
  unfold Wrapper.surface. destruct (ev_apiGatewayIsLambdaProxyRequest event); eff.
  - by eexists.
  - rewrite conductorHandling_unattended; [|done|].
    + rewrite Hre. by eexists.
    + intros s ->. done.
Qed.

(** X17.  An expected error that is not resolved surfaces as a
    [HandledError] with the code of the expectation.  When the user
    function throws an error (not a [ServerlessError]) that matches an
    expectation with no handling, or one whose callback answers falsy, in
    a sequence whose conductor has no say, the wrapper returns the gateway
    form of the [HandledError] to an API Gateway caller and throws a
    [RethrowError] of it to any other; nothing is invoked, a [forwardTo]
    of the expectation included. *)
Theorem unresolved_expectation_surfaces event context w e found :
  let handlerContext := Wrapper.buildHandlerContext getCorrelationId event context w in
  let run := fn (ev_request event) handlerContext in
  run_outcome run = Throws e ->
  (forall s, e <> Serverless s) ->
  ErrorMeta.findError e (run_errorMgmt run) = Some found ->
  ErrorMeta.handling found = None \/
  (exists h cb v,
      ErrorMeta.handling found = Some h /\ ErrorMeta.callback h = Some cb /\
      cb e = Returns v /\ truthy v = false) ->
  unattended (w_sequence w) ->
  exists w',
    wrapper event context w
    = (if ev_apiGatewayIsLambdaProxyRequest event
       then Returns (ApiGatewayError (HandledError (ErrorMeta.code found) e))
       else Throws (RethrowError (HandledError (ErrorMeta.code found) e)), w') /\
    w_invoked w' = w_invoked w.
Proof.
  intros handlerContext run Hrun Hnot Hfind Hhandling Hun.
  rewrite (wrapper_throws _ _ _ _ _ _ _ _ _ _ e Hrun).
  fold handlerContext. fold run.
  destruct (registerSequence_keeps (run_registered run) w) as [Hseq Hinv].
  rewrite <- Hinv. apply catch_surfaces; [|done|by rewrite Hseq].
  unfold Wrapper.errorHandling.
  destruct e; try (exfalso; by eapply Hnot); rewrite Hfind;
    (destruct Hhandling as [-> |(h & cb & v & -> & -> & Hcb & Hv)];
     [done|eff; by rewrite Hcb, Hv]).
Qed.

(** X18.  An expected error that is resolved makes the wrapper return
    [undefined], to an API Gateway caller as to any other.  When the user
    function throws an error (not a [ServerlessError]) that matches an
    expectation with a handling whose callback, if there is one, answers
    truthy, the error is sent to the [forwardTo] function of the handling,
    if there is one, and to no one else; the sequence is left alone. *)
Theorem resolved_expectation_returns_undefined event context w e found h :
  let handlerContext := Wrapper.buildHandlerContext getCorrelationId event context w in
  let run := fn (ev_request event) handlerContext in
  let forwarded :=
    match ErrorMeta.forwardTo h with
    | Some arn => if truthy (JStr arn) then [(arn, ErrorPayload e)] else []
    | None => []
    end in
  run_outcome run = Throws e ->
  (forall s, e <> Serverless s) ->
  ErrorMeta.findError e (run_errorMgmt run) = Some found ->
  ErrorMeta.handling found = Some h ->
  ErrorMeta.callback h = None \/
  (exists cb v, ErrorMeta.callback h = Some cb /\ cb e = Returns v /\ truthy v = true) ->
  Forall (fun call => exists response, platform call.1 call.2 = Returns response)
    forwarded ->
  exists w',
    wrapper event context w = (Returns (Result JUndefined), w') /\
    w_invoked w' = w_invoked w ++ forwarded /\
    w_sequence w' = w_sequence w.
Proof.
  intros handlerContext run forwarded Hrun Hnot Hfind Hhandling Hcallback Hplatform.
  rewrite (wrapper_throws _ _ _ _ _ _ _ _ _ _ e Hrun).
  fold handlerContext. fold run.
  destruct (registerSequence_keeps (run_registered run) w) as [Hseq Hinv].
  rewrite <- Hinv, <- Hseq. unfold Wrapper.catch_.
  set (w1 := Wrapper.registerSequence (run_registered run) w).
  assert (exists w',
             errorHandling context handlerContext (run_errorMgmt run)
               (ev_apiGatewayIsLambdaProxyRequest event) JUndefined e w1
             = (Returns (Result JUndefined), w') /\
             w_invoked w' = w_invoked w1 ++ forwarded /\
             w_sequence w' = w_sequence w1) as (w' & -> & Hw').
  2:{ by exists w'. }
  unfold Wrapper.errorHandling.
  assert (forall unresolved : Eff World bool,
             unresolved w1 = (Returns false, w1) ->
             exists w',
               (let! unresolved := unresolved in
                if (unresolved : bool) then
                  Wrapper.surface (ev_apiGatewayIsLambdaProxyRequest event)
                    (HandledError (ErrorMeta.code found) e)
                else
                  match ErrorMeta.forwardTo h with
                  | Some arn =>
                      Wrapper.when (truthy (JStr arn))
                        (Wrapper.invokeLambda platform arn (ErrorPayload e) ;;; ret tt)
                  | None => ret tt
                  end ;;;
                  ret (Result JUndefined)) w1
               = (Returns (Result JUndefined), w') /\
               w_invoked w' = w_invoked w1 ++ forwarded /\
               w_sequence w' = w_sequence w1) as Hrest.
  { intros unresolved Hun. unfold bind at 1. rewrite Hun.
    unfold forwarded in *. unfold Wrapper.when, Wrapper.invokeLambda. eff.
    destruct (ErrorMeta.forwardTo h) as [arn|]; eff.
    2:{ exists w1. by rewrite app_nil_r. }
    destruct (truthy (JStr arn)); eff.
    2:{ exists w1. by rewrite app_nil_r. }
    apply Forall_cons in Hplatform as [[response Hplatform] _].
    cbn [fst snd] in Hplatform. rewrite Hplatform. by eexists. }
  destruct e; try (exfalso; by eapply Hnot); rewrite Hfind, Hhandling;
    apply Hrest;
    (destruct Hcallback as [-> |(cb & v & -> & Hcb & Hv)];
     [done|eff; by rewrite Hcb, Hv]).
Qed.


(** X20.  The [error-forwarding] policy, for an error thrown by the user
    function that is not a [ServerlessError] and that no expectation
    matches: the error is sent to the arn of the policy.  If that goes
    through, the wrapper returns [undefined].  If the invocation throws
    (not a [ServerlessError]), in a sequence whose conductor has no say,
    the wrapper throws an [ErrorWithinError] of the two errors, or a
    [RethrowError] of the second when its type is one of the three the
    last [catch] rethrows. *)
Theorem error_forwarding_policy event context w e arn :
  let handlerContext := Wrapper.buildHandlerContext getCorrelationId event context w in
  let run := fn (ev_request event) handlerContext in
  run_outcome run = Throws e ->
  (forall s, e <> Serverless s) ->
  ErrorMeta.findError e (run_errorMgmt run) = None ->
  ErrorMeta.defaultHandling (run_errorMgmt run) = ErrorMeta.error_forwarding arn ->
  (forall response,
      platform arn (ErrorPayload e) = Returns response ->
      exists w',
        wrapper event context w = (Returns (Result JUndefined), w') /\
        w_invoked w' = w_invoked w ++ [(arn, ErrorPayload e)] /\
        w_sequence w' = w_sequence w) /\
  (forall e2,
      platform arn (ErrorPayload e) = Throws e2 ->
      (forall s, e2 <> Serverless s) ->
      unattended (w_sequence w) ->
      exists w',
        wrapper event context w
        = (Throws (if rethrown e2 then RethrowError e2 else ErrorWithinError e e2),
           w') /\
        w_invoked w' = w_invoked w ++ [(arn, ErrorPayload e)]).
Proof.
  intros handlerContext run Hrun Hnot Hfind Hpolicy.
  rewrite (wrapper_throws _ _ _ _ _ _ _ _ _ _ e Hrun).
  fold handlerContext. fold run.
  destruct (registerSequence_keeps (run_registered run) w) as [Hseq Hinv].
  set (w1 := Wrapper.registerSequence (run_registered run) w) in *.
  assert (errorHandling context handlerContext (run_errorMgmt run)
            (ev_apiGatewayIsLambdaProxyRequest event) JUndefined e w1
          = (match platform arn (ErrorPayload e) with
             | Returns _ => Returns (Result JUndefined)
             | Throws e2 => Throws e2
             end,
             mkWorld (w_sequence w1) (w_newSequence w1)
               (w_invoked w1 ++ [(arn, ErrorPayload e)]))) as Hinner.
  { unfold Wrapper.errorHandling, Wrapper.invokeLambda.
    destruct e; try (exfalso; by eapply Hnot); rewrite Hfind, Hpolicy; eff;
      by destruct (platform _ _). }
  unfold Wrapper.catch_. rewrite Hinner. split.
  - intros response ->. eexists. split; [done|]. cbn. by rewrite Hinv, Hseq.
  - intros e2 -> Hnot2 Hun.
    rewrite conductorHandling_unattended; [|by rewrite <- Hseq in Hun|done].
    eexists. split; [done|]. cbn. by rewrite Hinv.
Qed.


(** X22.  A [ServerlessError] thrown by the callback of an expectation
    leaves the wrapper as it was thrown: it is not given the function
    name, the correlation id or the request id that a [ServerlessError]
    of the user function gets, it is not wrapped, and it is thrown to an
    API Gateway caller as well.  This holds whatever the sequence and the
    conductor's [onError] are; nothing is invoked. *)
Theorem serverless_error_of_a_callback_is_thrown_as_it_is
    event context w e found h cb thrown :
  let handlerContext := Wrapper.buildHandlerContext getCorrelationId event context w in
  let run := fn (ev_request event) handlerContext in
  run_outcome run = Throws e ->
  (forall s, e <> Serverless s) ->
  ErrorMeta.findError e (run_errorMgmt run) = Some found ->
  ErrorMeta.handling found = Some h ->
  ErrorMeta.callback h = Some cb ->
  cb e = Throws (Serverless thrown) ->
  wrapper event context w
  = (Throws (Serverless thrown), Wrapper.registerSequence (run_registered run) w).
Proof.
  intros handlerContext run Hrun Hnot Hfind Hhandling Hcallback Hcb.
  rewrite (wrapper_throws _ _ _ _ _ _ _ _ _ _ e Hrun).
  fold handlerContext. fold run. unfold Wrapper.catch_.
  assert (forall w1,
             errorHandling context handlerContext (run_errorMgmt run)
               (ev_apiGatewayIsLambdaProxyRequest event) JUndefined e w1
             = (Throws (Serverless thrown), w1)) as ->; [|done].
  intros w1. unfold Wrapper.errorHandling.
  destruct e; try (exfalso; by eapply Hnot);
    rewrite Hfind, Hhandling, Hcallback; eff; by rewrite Hcb.
Qed.

(** X23.  Whatever the wrapper throws, from the call of the user function
    on, is one of five things: a [ServerlessError]; a [RethrowError] of an
    error whose type is unhandled-error, handled-error or default-error;
    an [ErrorWithinError]; the error of the getter [activeFn] for a
    sequence with no active and no assigned step; or what the platform
    threw when the conductor's [onError] forwarding was invoked. *)
Theorem what_the_wrapper_throws event context w err w' :
  wrapper event context w = (Throws err, w') ->
  (exists s, err = Serverless s) \/
  (exists x, err = RethrowError x /\ rethrown x = true) \/
  (exists e x, err = ErrorWithinError e x) \/
  err = Error_ NoAssignedStep \/
  (exists arn params, platform arn (ParamsPayload params) = Throws err).
Proof.
  assert (forall handlerContext errorMeta result e w1,
             catch_ event context handlerContext errorMeta result e w1
             = (Throws err, w') ->
             (exists s, err = Serverless s) \/
             (exists x, err = RethrowError x /\ rethrown x = true) \/
             (exists e x, err = ErrorWithinError e x) \/
             err = Error_ NoAssignedStep \/
             (exists arn params, platform arn (ParamsPayload params) = Throws err))
    as Hcatch.
  { intros handlerContext errorMeta result e w1. unfold Wrapper.catch_.
    destruct (errorHandling context handlerContext errorMeta
                (ev_apiGatewayIsLambdaProxyRequest event) result e w1)
      as [[r|errorOfError] w2]; [done|].
    intros Hthrows. apply conductorHandling_throws in Hthrows.
    destruct Hthrows as [H1|[H2|[[x ->]|[H4|H5]]]].
    - by left.
    - right. by left.
    - right. right. left. by eexists _, _.
    - do 3 right. by left.
    - by do 4 right. }
  unfold Wrapper.wrapper.
  destruct (run_outcome _) as [result|e]; [|apply Hcatch].
  destruct (Wrapper.afterHandler platform JSON_stringify getResponseHeaders
              sequenceStatus getCorrelationId options _ _ _ _) as [[r|e] w2]; [done|].
  apply Hcatch.
Qed.
End wrapper_errors.

Lemma wrapper_invokes_nothing_outside_a_sequence_witness :
  Wrapper.wrapper WrapperExamples.platform WrapperExamples.JSON_stringify
    WrapperExamples.headers WrapperExamples.sequenceStatus "c-123"
    (WrapperExamples.returns WrapperExamples.ok WrapperExamples.defaultPolicy)
    WrapperExamples.untracked WrapperExamples.event WrapperExamples.context
    WrapperExamples.lastStep
  = (Returns (Result WrapperExamples.ok), WrapperExamples.lastStep).
Proof.
  apply (wrapper_invokes_nothing_outside_a_sequence
           WrapperExamples.platform WrapperExamples.JSON_stringify
           WrapperExamples.headers WrapperExamples.sequenceStatus "c-123"
           (WrapperExamples.returns WrapperExamples.ok WrapperExamples.defaultPolicy)
           WrapperExamples.untracked WrapperExamples.event WrapperExamples.context
           WrapperExamples.lastStep WrapperExamples.ok).
  - reflexivity.
  - right. split; reflexivity.
  - reflexivity.
Defined.

Lemma wrapper_continues_the_sequence_witness :
  exists body s,
    obj_get "foo" body = Some (JNum 7) /\
    Wrapper.wrapper WrapperExamples.platform WrapperExamples.JSON_stringify
      WrapperExamples.headers WrapperExamples.sequenceStatus "c-123"
      (WrapperExamples.returns (JObj [("data", JNum 7)]) WrapperExamples.defaultPolicy)
      WrapperExamples.untracked WrapperExamples.event WrapperExamples.context
      (mkWorld (mkSequence [Examples.A_active; Examples.B_waiting] ∅) None [])
    = (Returns (Result (JObj [("data", JNum 7)])),
       mkWorld
         (mkSequence [Examples.A_completed;
                      Step.set_status Status.active Examples.B_waiting]
            (<["A" := JObj [("data", JNum 7)]]> ∅))
         None
         [("B", Orchestrated (mkRequest (JObj body) (Some s)))]).
Proof.
  destruct (wrapper_continues_the_sequence
              WrapperExamples.platform WrapperExamples.JSON_stringify
              WrapperExamples.headers WrapperExamples.sequenceStatus "c-123"
              (WrapperExamples.returns (JObj [("data", JNum 7)])
                 WrapperExamples.defaultPolicy)
              WrapperExamples.untracked WrapperExamples.event WrapperExamples.context
              (mkWorld (mkSequence [Examples.A_active; Examples.B_waiting] ∅) None [])
              (JObj [("data", JNum 7)]) [] Examples.A_active Examples.B_waiting [])
    as (s & _ & Hreturns & _).
  - reflexivity.
  - reflexivity.
  - reflexivity.
  - reflexivity.
  - reflexivity.
  - constructor.
  - reflexivity.
  - reflexivity.
  - constructor.
  - destruct Hreturns as (body & Hkeys & Hwrapper); [reflexivity|].
    exists body, s. split.
    + apply fmap_Returns_inv. rewrite Hkeys. reflexivity.
    + apply (Hwrapper JUndefined). reflexivity.
Defined.

Lemma wrapper_starts_the_pending_sequence_witness :
  exists body s,
    Wrapper.wrapper WrapperExamples.platform WrapperExamples.JSON_stringify
      WrapperExamples.headers WrapperExamples.sequenceStatus "c-123"
      (WrapperExamples.returns WrapperExamples.ok WrapperExamples.defaultPolicy)
      WrapperExamples.untracked WrapperExamples.event WrapperExamples.context
      (mkWorld Seq.new (Some (mkSequence [Examples.A_active; Examples.B_assigned] ∅)) [])
    = (Returns (Result WrapperExamples.ok),
       mkWorld Seq.new (Some (mkSequence [Examples.A_active; Examples.B_assigned] ∅))
         [("A", Orchestrated (mkRequest (JObj body) (Some s)))]).
Proof.
  destruct (wrapper_starts_the_pending_sequence
              WrapperExamples.platform WrapperExamples.JSON_stringify
              WrapperExamples.headers WrapperExamples.sequenceStatus "c-123"
              (WrapperExamples.returns WrapperExamples.ok WrapperExamples.defaultPolicy)
              WrapperExamples.untracked WrapperExamples.event WrapperExamples.context
              (mkWorld Seq.new
                 (Some (mkSequence [Examples.A_active; Examples.B_assigned] ∅)) [])
              WrapperExamples.ok
              (mkSequence [Examples.A_active; Examples.B_assigned] ∅)
              [] Examples.A_active [Examples.B_assigned])
    as (body & s & _ & _ & _ & _ & Hwrapper).
  - reflexivity.
  - reflexivity.
  - right. split; reflexivity.
  - reflexivity.
  - split; [constructor|]. left. reflexivity.
  - reflexivity.
  - exists body, s. apply (Hwrapper JUndefined). reflexivity.
Defined.

Lemma unresolved_expectation_surfaces_witness :
  exists w',
    Wrapper.wrapper WrapperExamples.platform WrapperExamples.JSON_stringify
      WrapperExamples.headers WrapperExamples.sequenceStatus "c-123"
      (WrapperExamples.throws WrapperExamples.boom
         (ErrorMeta.mk
            [ErrorMeta.mkHandler (fun _ => true) 404
               (Some (ErrorMeta.mkHandling (Some (fun _ => Returns (JNum 0)))
                        (Some "errors")))]
            ErrorMeta.default 500))
      WrapperExamples.untracked WrapperExamples.event WrapperExamples.context
      WrapperExamples.lastStep
    = (Throws (RethrowError (HandledError 404 WrapperExamples.boom)), w') /\
    w_invoked w' = [].
Proof.
  apply (unresolved_expectation_surfaces
           WrapperExamples.platform WrapperExamples.JSON_stringify
           WrapperExamples.headers WrapperExamples.sequenceStatus "c-123"
           (WrapperExamples.throws WrapperExamples.boom
              (ErrorMeta.mk
                 [ErrorMeta.mkHandler (fun _ => true) 404
                    (Some (ErrorMeta.mkHandling (Some (fun _ => Returns (JNum 0)))
                             (Some "errors")))]
                 ErrorMeta.default 500))
           WrapperExamples.untracked WrapperExamples.event WrapperExamples.context
           WrapperExamples.lastStep WrapperExamples.boom
           (ErrorMeta.mkHandler (fun _ => true) 404
              (Some (ErrorMeta.mkHandling (Some (fun _ => Returns (JNum 0)))
                       (Some "errors"))))).
  - reflexivity.
  - discriminate.
  - reflexivity.
  - right. eexists _, _, _. split_and!; reflexivity.
  - right. exists [], Examples.A_active, []. split_and!; [reflexivity| |reflexivity].
    split; [constructor|]. left. reflexivity.
Defined.

Lemma resolved_expectation_returns_undefined_witness :
  exists w',
    Wrapper.wrapper WrapperExamples.platform WrapperExamples.JSON_stringify
      WrapperExamples.headers WrapperExamples.sequenceStatus "c-123"
      (WrapperExamples.throws WrapperExamples.boom
         (ErrorMeta.mk
            [ErrorMeta.mkHandler (fun _ => true) 404
               (Some (ErrorMeta.mkHandling (Some (fun _ => Returns (JBool true)))
                        (Some "errors")))]
            ErrorMeta.default 500))
      WrapperExamples.untracked (mkEvent (JObj []) true true) WrapperExamples.context
      WrapperExamples.lastStep
    = (Returns (Result JUndefined), w') /\
    w_invoked w' = [] ++ [("errors", ErrorPayload WrapperExamples.boom)] /\
    w_sequence w' = w_sequence WrapperExamples.lastStep.
Proof.
  apply (resolved_expectation_returns_undefined
           WrapperExamples.platform WrapperExamples.JSON_stringify
           WrapperExamples.headers WrapperExamples.sequenceStatus "c-123"
           (WrapperExamples.throws WrapperExamples.boom
              (ErrorMeta.mk
                 [ErrorMeta.mkHandler (fun _ => true) 404
                    (Some (ErrorMeta.mkHandling (Some (fun _ => Returns (JBool true)))
                             (Some "errors")))]
                 ErrorMeta.default 500))
           WrapperExamples.untracked (mkEvent (JObj []) true true)
           WrapperExamples.context WrapperExamples.lastStep WrapperExamples.boom
           (ErrorMeta.mkHandler (fun _ => true) 404
              (Some (ErrorMeta.mkHandling (Some (fun _ => Returns (JBool true)))
                       (Some "errors"))))
           (ErrorMeta.mkHandling (Some (fun _ => Returns (JBool true))) (Some "errors"))).
  - reflexivity.
  - discriminate.
  - reflexivity.
  - reflexivity.
  - right. eexists _, _. split_and!; reflexivity.
  - constructor; [|constructor]. exists JUndefined. reflexivity.
Defined.


Lemma error_forwarding_policy_witness :
  exists w',
    Wrapper.wrapper WrapperExamples.platform WrapperExamples.JSON_stringify
      WrapperExamples.headers WrapperExamples.sequenceStatus "c-123"
      (WrapperExamples.throws WrapperExamples.boom
         (ErrorMeta.mk [] (ErrorMeta.error_forwarding "tracker") 500))
      WrapperExamples.untracked WrapperExamples.event WrapperExamples.context
      WrapperExamples.lastStep
    = (Throws (ErrorWithinError WrapperExamples.boom WrapperExamples.down), w') /\
    w_invoked w' = [] ++ [("tracker", ErrorPayload WrapperExamples.boom)].
Proof.
  destruct (error_forwarding_policy
              WrapperExamples.platform WrapperExamples.JSON_stringify
              WrapperExamples.headers WrapperExamples.sequenceStatus "c-123"
              (WrapperExamples.throws WrapperExamples.boom
                 (ErrorMeta.mk [] (ErrorMeta.error_forwarding "tracker") 500))
              WrapperExamples.untracked WrapperExamples.event WrapperExamples.context
              WrapperExamples.lastStep WrapperExamples.boom "tracker")
    as [_ Hfails].
  - reflexivity.
  - discriminate.
  - reflexivity.
  - reflexivity.
  - apply (Hfails WrapperExamples.down).
    + reflexivity.
    + discriminate.
    + right. exists [], Examples.A_active, []. split_and!; [reflexivity| |reflexivity].
      split; [constructor|]. left. reflexivity.
Defined.


Lemma serverless_error_of_a_callback_is_thrown_as_it_is_witness :
  Wrapper.wrapper WrapperExamples.platform WrapperExamples.JSON_stringify
    WrapperExamples.headers WrapperExamples.sequenceStatus "c-123"
    (WrapperExamples.throws WrapperExamples.boom
       (ErrorMeta.mk
          [ErrorMeta.mkHandler (fun _ => true) 404
             (Some (ErrorMeta.mkHandling
                      (Some (fun _ => Throws (Serverless WrapperExamples.nope)))
                      None))]
          ErrorMeta.default 500))
    WrapperExamples.untracked WrapperExamples.event WrapperExamples.context
    WrapperExamples.guarded
  = (Throws (Serverless WrapperExamples.nope), WrapperExamples.guarded).
Proof.
  apply (serverless_error_of_a_callback_is_thrown_as_it_is
           WrapperExamples.platform WrapperExamples.JSON_stringify
           WrapperExamples.headers WrapperExamples.sequenceStatus "c-123"
           (WrapperExamples.throws WrapperExamples.boom
              (ErrorMeta.mk
                 [ErrorMeta.mkHandler (fun _ => true) 404
                    (Some (ErrorMeta.mkHandling
                             (Some (fun _ => Throws (Serverless WrapperExamples.nope)))
                             None))]
                 ErrorMeta.default 500))
           WrapperExamples.untracked WrapperExamples.event WrapperExamples.context
           WrapperExamples.guarded WrapperExamples.boom
           (ErrorMeta.mkHandler (fun _ => true) 404
              (Some (ErrorMeta.mkHandling
                       (Some (fun _ => Throws (Serverless WrapperExamples.nope)))
                       None)))
           (ErrorMeta.mkHandling
              (Some (fun _ => Throws (Serverless WrapperExamples.nope))) None)
           (fun _ => Throws (Serverless WrapperExamples.nope))
           WrapperExamples.nope);
    (reflexivity || discriminate).
Defined.

Lemma what_the_wrapper_throws_witness :
  (exists s, RethrowError (UnhandledError 500 WrapperExamples.boom) = Serverless s) \/
  (exists x, RethrowError (UnhandledError 500 WrapperExamples.boom) = RethrowError x /\
             rethrown x = true) \/
  (exists e x, RethrowError (UnhandledError 500 WrapperExamples.boom)
               = ErrorWithinError e x) \/
  RethrowError (UnhandledError 500 WrapperExamples.boom) = Error_ NoAssignedStep \/
  (exists arn params,
      WrapperExamples.platform arn (ParamsPayload params)
      = Throws (RethrowError (UnhandledError 500 WrapperExamples.boom))).
Proof.
  apply (what_the_wrapper_throws
           WrapperExamples.platform WrapperExamples.JSON_stringify
           WrapperExamples.headers WrapperExamples.sequenceStatus "c-123"
           (WrapperExamples.throws WrapperExamples.boom WrapperExamples.defaultPolicy)
           WrapperExamples.untracked WrapperExamples.event WrapperExamples.context
           (mkWorld Seq.new None [])
           (RethrowError (UnhandledError 500 WrapperExamples.boom))
           (mkWorld Seq.new None [])).
  reflexivity.
Defined.
